(** * zipcodetw: address normalisation, tokenisation, rules and the directory

    A shallow embedding of [zipcodetw/util.py] and the properties of it that
    the specification states.

    Text is Python 2 [unicode]: a sequence of code points.  The three regular
    expressions of the source are kept as syntax trees and run by a
    backtracking matcher with the leftmost, first-alternative-wins discipline
    of Python's [re] module. *)

From Stdlib Require Import ZArith NArith Lia Bool.
From Stdlib Require Import Strings.String Strings.Byte.
From stdpp Require Import gmap list sorting.

Local Open Scope N_scope.

(** ** Text *)

(** A character is a Unicode code point, a text is a list of them. *)
Definition char := N.
Abbreviation str := (list N).

(** The source file is UTF-8 ([# -*- coding: utf-8 -*-]); its [u'...']
    literals are decoded here the same way, so the literals below can be
    compared with the source character by character. *)
Fixpoint utf8_decode (bs : list N) : str :=
  match bs with
  | [] => []
  | b0 :: t =>
      if b0 <? 128 then b0 :: utf8_decode t
      else if b0 <? 224 then
        match t with
        | b1 :: t1 => ((b0 - 192) * 64 + (b1 - 128)) :: utf8_decode t1
        | _ => []
        end
      else if b0 <? 240 then
        match t with
        | b1 :: b2 :: t2 =>
            ((b0 - 224) * 4096 + (b1 - 128) * 64 + (b2 - 128)) :: utf8_decode t2
        | _ => []
        end
      else
        match t with
        | b1 :: b2 :: b3 :: t3 =>
            ((b0 - 240) * 262144 + (b1 - 128) * 4096 + (b2 - 128) * 64 + (b3 - 128))
              :: utf8_decode t3
        | _ => []
        end
  end.

Definition u (s : string) : str :=
  utf8_decode (map Byte.to_N (list_byte_of_string s)).

(** [c in u'...'] for a one-character [c]. *)
Definition inb (c : char) (s : str) : bool := existsb (N.eqb c) s.

Definition str_eqb (a b : str) : bool := bool_decide (a = b).

(** ** Regular expressions

    Only the constructs that the three patterns of the source use.
    Repetition is only ever applied to a character class there. *)
Inductive regex : Type :=
| Eps
| Cls (p : char -> bool)                (* one character of a class *)
| Seq (r1 r2 : regex)
| Alt (r1 r2 : regex)                   (* r1|r2, r1 tried first *)
| Opt (r : regex)                       (* r?  greedy *)
| Plus (p : char -> bool)               (* [..]+  greedy *)
| LazyMin (n : nat) (p : char -> bool)  (* [..]{n,}?  non-greedy *)
| Group (g : nat) (r : regex)           (* capturing group number g *)
| Ahead (r : regex)                     (* (?=r) *)
| NotAhead (r : regex)                  (* (?!r) *)
| NotBehind (p : char -> bool)          (* (?<![..]) *)
| Bol                                   (* ^ *)
| Eol.                                  (* $ *)

(** Matcher state: the text before the cursor (nearest character first), the
    text after it, and the groups captured so far. *)
Record mstate := MState {
  before : str;
  after : str;
  caps : list (nat * str)
}.

Definition consumed (st st' : mstate) : str :=
  take (length (after st) - length (after st')) (after st).

Definition set_cap (g : nat) (v : str) (st : mstate) : mstate :=
  MState (before st) (after st) ((g, v) :: caps st).

(** Python's [m.group(g)] as [findall] shows it: the last capture of the
    group, the empty text when the group took no part in the match. *)
Fixpoint get_cap (g : nat) (cs : list (nat * str)) : str :=
  match cs with
  | [] => []
  | (g', v) :: cs' => if Nat.eqb g g' then v else get_cap g cs'
  end.

Section Matcher.
Context {R : Type}.

(** [[..]*] greedy: as many as possible first, then one fewer, ... *)
Fixpoint greedy (p : char -> bool) (bef aft : str)
         (k : str -> str -> option R) : option R :=
  match aft with
  | c :: aft' =>
      if p c then
        match greedy p (c :: bef) aft' k with
        | Some x => Some x
        | None => k bef aft
        end
      else k bef aft
  | [] => k bef aft
  end.

(** [[..]*?] non-greedy: as few as possible first. *)
Fixpoint lazy (p : char -> bool) (bef aft : str)
         (k : str -> str -> option R) : option R :=
  match k bef aft with
  | Some x => Some x
  | None =>
      match aft with
      | c :: aft' => if p c then lazy p (c :: bef) aft' k else None
      | [] => None
      end
  end.

(** exactly [n] characters of the class *)
Fixpoint exactly (n : nat) (p : char -> bool) (bef aft : str)
         (k : str -> str -> option R) : option R :=
  match n with
  | O => k bef aft
  | S n' =>
      match aft with
      | c :: aft' => if p c then exactly n' p (c :: bef) aft' k else None
      | [] => None
      end
  end.
End Matcher.

(** The continuation [k] is the rest of the pattern: a failure of [k] makes
    the matcher try the next possibility, which is backtracking. *)
Fixpoint run (r : regex) (st : mstate) (k : mstate -> option mstate)
  : option mstate :=
  match r with
  | Eps => k st
  | Cls p =>
      match after st with
      | c :: aft' => if p c then k (MState (c :: before st) aft' (caps st)) else None
      | [] => None
      end
  | Seq r1 r2 => run r1 st (fun st1 => run r2 st1 k)
  | Alt r1 r2 =>
      match run r1 st k with
      | Some x => Some x
      | None => run r2 st k
      end
  | Opt r1 =>
      match run r1 st k with
      | Some x => Some x
      | None => k st
      end
  | Plus p =>
      exactly 1 p (before st) (after st)
        (fun b a => greedy p b a (fun b' a' => k (MState b' a' (caps st))))
  | LazyMin n p =>
      exactly n p (before st) (after st)
        (fun b a => lazy p b a (fun b' a' => k (MState b' a' (caps st))))
  | Group g r1 =>
      run r1 st (fun st' => k (set_cap g (consumed st st') st'))
  | Ahead r1 =>
      match run r1 st Some with
      | Some _ => k st
      | None => None
      end
  | NotAhead r1 =>
      match run r1 st Some with
      | Some _ => None
      | None => k st
      end
  | NotBehind p =>
      match before st with
      | c :: _ => if p c then None else k st
      | [] => k st
      end
  | Bol =>
      match before st with
      | [] => k st
      | _ => None
      end
  | Eol =>
      (* without re.M, $ is the end of the text or just before a final newline *)
      match after st with
      | [] => k st
      | [c] => if c =? 10 then k st else None
      | _ => None
      end
  end.

(** [pattern.match] at one position of the text. *)
Definition match_at (re : regex) (bef aft : str) : option mstate :=
  run re (MState bef aft []) Some.

(** The literal text [s] as a pattern. *)
Fixpoint Lit (s : str) : regex :=
  match s with
  | [] => Eps
  | [c] => Cls (N.eqb c)
  | c :: s' => Seq (Cls (N.eqb c)) (Lit s')
  end.

Definition one_of (s : string) : char -> bool := fun c => inb c (u s).
Definition is_digit (c : char) : bool := (48 <=? c) && (c <=? 57).   (* \d, no re.U *)
Definition dot (c : char) : bool := negb (c =? 10).                   (* . , no re.S *)

(** What a left-to-right scan of the text yields: the characters no match
    covers, and the matches.  [re.sub] and [re.findall] are both read off
    it.  None of the three patterns matches the empty text (see
    [run_consumes] below), so after a match of [n] characters the scan resumes
    [n] characters further, and nothing can match at the end of the text. *)
Inductive piece : Type :=
| Keep (c : char)
| Hit (found : str) (groups : list (nat * str)).

Fixpoint scan (re : regex) (bef aft : str) (skip : nat) : list piece :=
  match aft with
  | [] => []
  | c :: aft' =>
      match skip with
      | S n => scan re (c :: bef) aft' n
      | O =>
          match match_at re bef aft with
          | Some st =>
              let n := (length aft - length (after st))%nat in
              Hit (take n aft) (caps st) :: scan re (c :: bef) aft' (n - 1)
          | None => Keep c :: scan re (c :: bef) aft' 0
          end
      end
  end.

(** [re.sub(repl, s)] with a function [repl] of the matched text. *)
Definition re_sub (re : regex) (repl : str -> str) (s : str) : str :=
  concat (map (fun p => match p with Keep c => [c] | Hit f _ => repl f end)
              (scan re [] s 0)).

(** [re.findall(s)] for a pattern with several groups: one tuple of groups
    per match. *)
Definition re_findall (re : regex) (s : str) : list (list (nat * str)) :=
  omap (fun p => match p with Keep _ => None | Hit _ g => Some g end)
       (scan re [] s 0).

(** ** Address *)

Module Address.

(** [TOKEN_RE] *)
Definition NO : nat := 0.
Definition SUBNO : nat := 1.
Definition NAME : nat := 2.
Definition UNIT : nat := 3.

(** The first [(?: ... )] of the pattern: a number with its sub-number, or
    a name. *)
Definition TOKEN_HEAD : regex :=
  Alt
    (Seq (Group NO (Plus is_digit))
         (Seq (Opt (Group SUBNO (Seq (Lit (u "之")) (Plus is_digit))))
              (Ahead (Cls (one_of "巷弄號樓")))))
    (Group NAME (Alt (Cls is_digit) (LazyMin 2 dot))).

(** The second [(?: ... )]: the unit, or the lookahead that lets it be
    elided. *)
Definition TOKEN_TAIL : regex :=
  Alt
    (Group UNIT (Cls (one_of "縣市鄉鎮市區村里鄰路街段巷弄號樓")))
    (Ahead
       (Alt
          (Seq (Plus is_digit)
               (Seq (Opt (Seq (Lit (u "之")) (Plus is_digit)))
                    (Cls (one_of "巷弄號樓"))))
          Eol)).

Definition TOKEN_RE : regex := Seq TOKEN_HEAD TOKEN_TAIL.

(** [TO_REPLACE_RE]; in a character class re.X keeps the blanks, so the
    third alternative holds the space and the ideographic space. *)
Definition TO_REPLACE_RE : regex :=
  Alt (Seq Bol (Plus (fun c => c <=? 127)))
 (Alt (Seq (Cls (one_of "台臺"))
           (Seq (Lit (u "灣"))
                (Seq (Opt (Lit (u "省")))
                     (NotAhead (Alt (Lit (u "大道")) (Lit (u "港務")))))))
 (Alt (Cls (one_of " 　,，台~-"))
 (Alt (Seq (NotBehind (one_of "臺台新竹"))
           (Seq (Lit (u "北市")) (NotAhead (Lit (u "場")))))
 (Alt (Cls (fun c => (65296 <=? c) && (c <=? 65305)))        (* [０-９] *)
      (Seq (Opt (Cls (one_of "一二三四五六七八九")))
           (Seq (Opt (Lit (u "十")))
                (Seq (Cls (one_of "一二三四五六七八九"))
                     (Ahead (Cls (one_of "段路街巷弄號樓")))))))))).

(** [TO_REPLACE_MAP]: the texts to replace that are not in here are removed *)
Definition TO_REPLACE_MAP : list (str * str) :=
  [ (u "-", u "之"); (u "~", u "之"); (u "台", u "臺"); (u "北市", u "臺北市");
    (u "１", u "1"); (u "２", u "2"); (u "３", u "3"); (u "４", u "4");
    (u "５", u "5"); (u "６", u "6"); (u "７", u "7"); (u "８", u "8");
    (u "９", u "9"); (u "０", u "0");
    (u "一", u "1"); (u "二", u "2"); (u "三", u "3"); (u "四", u "4");
    (u "五", u "5"); (u "六", u "6"); (u "七", u "7"); (u "八", u "8");
    (u "九", u "9") ].

Fixpoint dict_get (d : list (str * str)) (key : str) : option str :=
  match d with
  | [] => None
  | (k0, v) :: d' => if str_eqb key k0 then Some v else dict_get d' key
  end.

Definition CHINESE_NUMERALS_SET : str := u "一二三四五六七八九十".

(** The inner [replace(m)] of [normalize], as a function of [m.group()].
    Where the source indexes [TO_REPLACE_MAP] the lookup falls back on the
    empty text here; on a match of [TO_REPLACE_RE] the fallback is never
    taken ([replace_never_raises] below). *)
Definition map_at (found : str) (i : nat) : str :=
  match found !! i with
  | Some c => default [] (dict_get TO_REPLACE_MAP [c])
  | None => []
  end.

Definition replace (found : str) : str :=
  match dict_get TO_REPLACE_MAP found with
  | Some v => v
  | None =>
      match found with
      | c :: _ =>
          if inb c CHINESE_NUMERALS_SET then
            (* for '十一' to '九十九' *)
            if Nat.eqb (length found) 2 then u "1" ++ map_at found 1
            else if Nat.eqb (length found) 3 then map_at found 0 ++ map_at found 2
            else []
          else []
      | [] => []
      end
  end.

Definition normalize (s : str) : str := re_sub TO_REPLACE_RE replace s.

(** A token is the 4-tuple [(no, subno, name, unit)] that [findall] gives
    for one match of [TOKEN_RE]. *)
Record token := Token {
  t_no : str;
  t_subno : str;
  t_name : str;
  t_unit : str
}.

#[global] Instance token_eq_dec : EqDecision token.
Proof. solve_decision. Defined.

Definition token_of_groups (g : list (nat * str)) : token :=
  Token (get_cap NO g) (get_cap SUBNO g) (get_cap NAME g) (get_cap UNIT g).

Definition tokenize (addr_str : str) : list token :=
  map token_of_groups (re_findall TOKEN_RE (normalize addr_str)).

(** [u''.join(token)] *)
Definition join_token (t : token) : str :=
  t_no t ++ t_subno t ++ t_name t ++ t_unit t.

(** [flat()], [flat(i)] and [flat(f, e)]: the tokens of [tokens[:]],
    [tokens[:i]] and [tokens[f:e]], joined. *)
Definition flat (tokens : list token) : str :=
  concat (map join_token tokens).
Definition flat_to (tokens : list token) (i : nat) : str :=
  flat (take i tokens).
Definition flat_range (tokens : list token) (f e : nat) : str :=
  flat (take (e - f) (drop f tokens)).

(** [tokens[idx]] for a Python index: a negative one counts from the end,
    [None] stands for IndexError. *)
Definition py_index {A} (l : list A) (idx : Z) : option A :=
  if (0 <=? idx)%Z then l !! Z.to_nat idx
  else if (- Z.of_nat (length l) <=? idx)%Z
       then l !! Z.to_nat (Z.of_nat (length l) + idx)
       else None.

(** [pick_to_flat] of the given indices; a token that is not there adds
    nothing here, where the source raises IndexError: the one caller checks
    [len_tokens >= 3] before it asks for the tokens 0 and 2. *)
Definition pick_to_flat (tokens : list token) (idxs : list Z) : str :=
  concat (map (fun idx => from_option join_token [] (py_index tokens idx)) idxs).

(** [int(s)] on a text of ASCII digits, which is all [TOKEN_RE] ever puts
    in [no] and after the first character of [subno]
    ([tokenize_well_formed] below). *)
Definition int (s : str) : Z :=
  fold_left (fun acc c => (acc * 10 + (Z.of_N c - 48))%Z) s 0%Z.

(** [int(s or 0)] *)
Definition int_or_0 (s : str) : Z :=
  match s with
  | [] => 0%Z
  | _ => int s
  end.

Definition parse (tokens : list token) (idx : Z) : Z * Z :=
  match py_index tokens idx with
  | None => (0, 0)%Z
  | Some token => (int_or_0 (t_no token), int_or_0 (drop 1 (t_subno token)))
  end.

End Address.

Export Address(token, Token, t_no, t_subno, t_name, t_unit).

(** ** StandardAddress *)

Module StandardAddress.

Definition LEVEL_UNITS_LIST : list str := [u "縣市"; u "區市鎮鄉"; u "路街里"].

(** [for i in range(start_pos, len_tokens): if tokens[i][UNIT] == unit]:
    the first such index and its token; [ts] is [tokens[i:]]. *)
Fixpoint first_with_unit (unit : str) (ts : list token) (i : nat)
  : option (nat * token) :=
  match ts with
  | [] => None
  | t :: ts' =>
      if str_eqb (t_unit t) unit then Some (i, t)
      else first_with_unit unit ts' (S i)
  end.

(** [for unit in units]: the first unit of the group that some token from
    [start_pos] on carries selects that token and ends the group ([break]);
    a unit found nowhere passes to the next one ([continue]).  The state is
    [(standard_tokens, start_pos)]. *)
Fixpoint scan_units (units : str) (tokens : list token)
         (st : list token * nat) : list token * nat :=
  match units with
  | [] => st
  | unit :: units' =>
      match first_with_unit [unit] (drop (snd st) tokens) (snd st) with
      | Some (i, t) => (fst st ++ [t], S i)
      | None => scan_units units' tokens st
      end
  end.

Definition scan_levels (tokens : list token) : list token * nat :=
  fold_left (fun st units => scan_units units tokens st) LEVEL_UNITS_LIST ([], 0%nat).

Definition standardize (tokens : list token) : list token :=
  let '(standard_tokens, start_pos) := scan_levels tokens in
  standard_tokens ++ drop start_pos tokens.

(** [StandardAddress(addr_str).tokens] *)
Definition new (addr_str : str) : list token :=
  standardize (Address.tokenize addr_str).

End StandardAddress.

(** ** Rule *)

Module Rule.

Definition RULE_TOKEN_RE : regex :=
  Alt (Lit (u "及以上附號"))
 (Alt (Lit (u "含附號以下"))
 (Alt (Lit (u "含附號全"))
 (Alt (Lit (u "含附號"))
 (Alt (Lit (u "以下"))
 (Alt (Lit (u "以上"))
 (Alt (Lit (u "附號全"))
      (Seq (Cls (one_of "連至單雙全"))
           (Ahead (Alt (Cls (fun c => is_digit c || inb c (u "全"))) Eol))))))))).

(** The inner [extract(m)] of [part]: the token to add to [rule_tokens]
    (the empty text adds nothing) and the text that replaces the match. *)
Definition extract (found : str) : str * str :=
  if str_eqb found (u "連") then ([], [])
  else if str_eqb found (u "附號全") then (found, u "號")
  else (found, []).

Definition add_token (acc : gset str) (p : piece) : gset str :=
  match p with
  | Keep _ => acc
  | Hit found _ =>
      match fst (extract found) with
      | [] => acc
      | tok => {[ tok ]} ∪ acc
      end
  end.

Definition part (rule_str : str) : gset str * str :=
  let rule_str := Address.normalize rule_str in
  (fold_left add_token (scan RULE_TOKEN_RE [] rule_str 0) ∅,
   re_sub RULE_TOKEN_RE (fun found => snd (extract found)) rule_str).

Record t := Make {
  rule_tokens : gset str;
  tokens : list token
}.

(** [Rule(rule_str)] *)
Definition new (rule_str : str) : t :=
  let '(rule_tokens, addr_str) := part rule_str in
  Make rule_tokens (Address.tokenize addr_str).

(** lexicographic order of Python's pairs *)
Definition pair_le (a b : Z * Z) : bool :=
  ((fst a <? fst b) || ((fst a =? fst b) && (snd a <=? snd b)))%Z.

(** [while i >= 0: if self.tokens[i] != addr.tokens[i]: return False];
    [n] is [i + 1].  Both indices are in range when the loop is entered
    from [match]. *)
Fixpoint tokens_agree (mine his : list token) (n : nat) : bool :=
  match n with
  | O => true
  | S i => bool_decide (mine !! i = his !! i) && tokens_agree mine his i
  end.

(** The test of one rule token [rt]; [true] is the Python condition that
    makes [match] return False. *)
Definition rejects (rule_tokens : gset str) (his mine asst : Z * Z) (rt : str) : bool :=
  (str_eqb rt (u "單") && negb (Z.land (fst his) 1 =? 1)%Z)
  || (str_eqb rt (u "雙") && negb (Z.land (fst his) 1 =? 0)%Z)
  || (str_eqb rt (u "以上") && negb (pair_le mine his))
  || (str_eqb rt (u "以下") && negb (pair_le his mine))
  || (str_eqb rt (u "至") && negb
        ((pair_le asst his && pair_le his mine)
         || (bool_decide (u "含附號全" ∈ rule_tokens) && (fst his =? fst mine)%Z)))
  || (str_eqb rt (u "含附號") && negb (fst his =? fst mine)%Z)
  || (str_eqb rt (u "附號全") && negb ((fst his =? fst mine)%Z && (0 <? snd his)%Z))
  || (str_eqb rt (u "及以上附號") && negb (pair_le mine his))
  || (str_eqb rt (u "含附號以下") && negb (pair_le his mine || (fst his =? fst mine)%Z)).

Definition matches (self : t) (addr : list token) : bool :=
  let nonempty := negb (bool_decide (rule_tokens self = ∅)) in
  (* except tokens reserved for rule token *)
  let my_last_pos := (Z.of_nat (length (tokens self)) - 1)%Z in
  let my_last_pos :=
    (my_last_pos - Z.b2z (nonempty && negb (bool_decide (u "全" ∈ rule_tokens self))))%Z in
  let my_last_pos :=
    (my_last_pos - Z.b2z (bool_decide (u "至" ∈ rule_tokens self)))%Z in
  (* tokens must be matched exactly *)
  if (Z.of_nat (length addr) <=? my_last_pos)%Z then false
  else if negb (tokens_agree (tokens self) addr (Z.to_nat (my_last_pos + 1))) then false
  else
    (* check the rule tokens *)
    let his_no_pair := Address.parse addr (my_last_pos + 1) in
    if nonempty && bool_decide (his_no_pair = (0, 0)%Z) then false
    else
      let my_no_pair := Address.parse (tokens self) (-1) in
      let my_asst_no_pair := Address.parse (tokens self) (-2) in
      forallb (fun rt => negb (rejects (rule_tokens self) his_no_pair
                                       my_no_pair my_asst_no_pair rt))
              (elements (rule_tokens self)).

End Rule.


(** ** Directory *)

Module Directory.

(** The store: the rows of [precise], in the order they were inserted, with
    [(addr_str, rule_str)] their primary key; and [gradual], keyed by
    [addr_str], whose [zipcode] column may hold NULL ([None]). *)
Record tables := Tables {
  precise : list (str * str * str);
  gradual : gmap str (option str)
}.

Definition empty_tables : tables := Tables [] ∅.

(** [for i in range(min(len(str_a), len(str_b))): if str_a[i] != str_b[i]:
    break]: the [i] of the [break], if there was one. *)
Fixpoint first_diff (str_a str_b : str) (i : nat) : option nat :=
  match str_a, str_b with
  | a :: str_a', b :: str_b' =>
      if a =? b then first_diff str_a' str_b' (S i) else Some i
  | _, _ => None
  end.

Definition get_common_part (str_a str_b : option str) : option str :=
  match str_a, str_b with
  | None, _ => str_b
  | _, None => str_a
  | Some a, Some b =>
      let i :=
        match first_diff a b 0 with
        | Some i => i                                 (* break *)
        | None =>                                     (* else: i += 1 *)
            match Nat.min (length a) (length b) with
            | O => 1%nat                              (* i = 0, the range is empty *)
            | S last => S last                        (* i = last value of the range *)
            end
        end in
      Some (take i a)
  end.

(** [insert or ignore into precise values (?, ?, ?)] *)
Definition has_key (addr_str rule_str : str) (row : str * str * str) : bool :=
  str_eqb (fst (fst row)) addr_str && str_eqb (snd (fst row)) rule_str.

Definition put_precise (addr_str rule_str zipcode : str) (t : tables) : tables :=
  if existsb (has_key addr_str rule_str) (precise t) then t
  else Tables (precise t ++ [(addr_str, rule_str, zipcode)]) (gradual t).

(** [select zipcode from gradual where addr_str = ?], then
    [replace into gradual values (?, ?)] *)
Definition put_gradual (addr_str zipcode : str) (t : tables) : tables :=
  let stored_zipcode :=
    match gradual t !! addr_str with
    | None => None
    | Some row0 => row0
    end in
  Tables (precise t)
         (<[addr_str := get_common_part stored_zipcode (Some zipcode)]> (gradual t)).

Definition put (head_addr_str tail_rule_str zipcode : str) (t : tables) : tables :=
  let addr := Address.tokenize head_addr_str in
  (* (a, b, c) *)
  let t := put_precise (Address.flat addr) (head_addr_str ++ tail_rule_str) zipcode t in
  (* (a, b, c) -> (a,); (a, b); (a, b, c); (b,); (b, c); (c,) *)
  let len_tokens := length addr in
  let t :=
    fold_left
      (fun t f =>
         fold_left
           (fun t l => put_gradual (Address.flat_range addr f (l + 1)) zipcode t)
           (seq f (len_tokens - f)) t)
      (seq 0 len_tokens) t in
  if (3 <=? len_tokens)%nat then
    (* (a, b, c, d) -> (a, c) *)
    put_gradual (Address.pick_to_flat addr [0; 2]%Z) zipcode t
  else t.

(** *** Methods on the connection

    [None] is a database file in which the two tables do not exist yet. *)
Definition database := option tables.

Inductive exn := OperationalError | IndexError | StopIteration.

Definition result (A : Type) : Type := (exn + A)%type.

#[global] Instance result_ret : MRet result := fun A a => inr a.
#[global] Instance result_bind : MBind result :=
  fun A B k r => match r with inl e => inl e | inr a => k a end.

(** What running a method leaves: its outcome, and the store as the method's
    statements have changed it so far, not yet committed. *)
Definition method (A : Type) : Type := database -> result A * database.

(** [create table precise]; [create table gradual]: an error when the
    table is there already. *)
Definition create_tables (d : database) : result tables :=
  match d with
  | None => inr empty_tables
  | Some _ => inl OperationalError
  end.

(** [self.conn.rollback()]: the rows go back to what they were when the
    method was entered.  The sqlite3 module runs [create table] outside of
    the transaction, so tables that the method created stay, empty. *)
Definition rollback (entered now : database) : database :=
  match entered, now with
  | Some t, _ => Some t
  | None, Some _ => Some empty_tables
  | None, None => None
  end.

Definition within_a_transaction {A} (m : method A) : method A :=
  fun d =>
    match m d with
    | (inl e, d') => (inl e, rollback d d')     (* except: rollback; raise *)
    | (inr retval, d') => (inr retval, d')      (* else: commit *)
    end.

(** One turn of the loop of [load_chp_csv] on a [row] of [csv.reader]. *)
Definition load_row (row : list str) (t : tables) : result tables :=
  let head_addr_str := concat (drop 1 (take (length row - 1) row)) in   (* row[1:-1] *)
  tail_rule_str ← from_option inr (inl IndexError) (Address.py_index row (-1));
  zipcode ← from_option inr (inl IndexError) (Address.py_index row 0);
  mret (put head_addr_str tail_rule_str zipcode t).

Fixpoint load_rows (rows : list (list str)) (t : tables) : result () * tables :=
  match rows with
  | [] => (inr (), t)
  | row :: rows' =>
      match load_row row t with
      | inl e => (inl e, t)
      | inr t' => load_rows rows' t'
      end
  end.

(** [chp_csv_lines] is given as the rows that [csv.reader] makes of the
    lines (a blank line makes the row [[]]), their fields as the texts that
    [decode('utf-8')] makes of them; the first line is skipped before the
    reader sees it. *)
Definition load_chp_csv_method (chp_csv_lines : list (list str)) : method () :=
  fun d =>
    match create_tables d with
    | inl e => (inl e, d)
    | inr t =>
        match chp_csv_lines with
        | [] => (inl StopIteration, Some t)             (* next(lines_iter) *)
        | _ :: rows =>
            let '(r, t') := load_rows rows t in (r, Some t')
        end
    end.

Definition load_chp_csv (chp_csv_lines : list (list str)) : method () :=
  within_a_transaction (load_chp_csv_method chp_csv_lines).

(** The order in which the index of the primary key holds the texts: that
    of the BINARY collation, which compares the bytes of the UTF-8 encodings,
    that is the code points, a text coming after its proper prefixes. *)
Fixpoint text_ltb (a b : str) : bool :=
  match a, b with
  | _, [] => false
  | [], _ :: _ => true
  | x :: a', y :: b' => (x <? y) || ((x =? y) && text_ltb a' b')
  end.

(** A row put in its place among rows that are in the order of the index:
    after the rows of a smaller [rule_str], before the others. *)
Fixpoint index_insert (row : str * str) (rows : list (str * str)) : list (str * str) :=
  match rows with
  | [] => [row]
  | row' :: rows' =>
      if text_ltb (fst row') (fst row) then row' :: index_insert row rows'
      else row :: rows
  end.

Definition index_order (rows : list (str * str)) : list (str * str) :=
  foldr index_insert [] rows.

(** [select rule_str, zipcode from precise where addr_str = ?].  There is
    no [order by]: sqlite answers the query through the index of the primary
    key [(addr_str, rule_str)], so the rows of an [addr_str] come by
    [rule_str], not in the order in which they were inserted. *)
Definition get_rule_str_zipcode_pairs (d : database) (addr_str : str)
  : result (list (str * str)) :=
  match d with
  | None => inl OperationalError
  | Some t =>
      inr (index_order
             (omap (fun row => if str_eqb (fst (fst row)) addr_str
                               then Some (snd (fst row), snd row) else None)
                   (precise t)))
  end.

(** [row and row[0] or None] *)
Definition get_gradual_zipcode (d : database) (addr_str : str)
  : result (option str) :=
  match d with
  | None => inl OperationalError
  | Some t =>
      inr match gradual t !! addr_str with
          | Some (Some (c :: z)) => Some (c :: z)
          | _ => None
          end
  end.

(** [for rule_str, zipcode in rzpairs: if Rule(rule_str).match(addr):
    return zipcode] *)
Fixpoint first_match (rzpairs : list (str * str)) (addr : list token) : option str :=
  match rzpairs with
  | [] => None
  | (rule_str, zipcode) :: rzpairs' =>
      if Rule.matches (Rule.new rule_str) addr then Some zipcode
      else first_match rzpairs' addr
  end.

(** [for i in range(len(addr.tokens), 0, -1)] *)
Fixpoint find_loop (d : database) (addr : list token) (i : nat) : result str :=
  match i with
  | O => inr []                                          (* return u'' *)
  | S i' =>
      let addr_str := Address.flat_to addr i in
      rzpairs ← get_rule_str_zipcode_pairs d addr_str;
      match first_match rzpairs addr with
      | Some zipcode => inr zipcode
      | None =>
          gzipcode ← get_gradual_zipcode d addr_str;
          match gzipcode with
          | Some (c :: z) => inr (c :: z)                (* if gzipcode *)
          | _ => find_loop d addr i'
          end
      end
  end.

Definition find_method (addr_str : str) : method str :=
  fun d =>
    let addr := StandardAddress.new addr_str in
    (find_loop d addr (length addr), d).

Definition find (addr_str : str) : method str :=
  within_a_transaction (find_method addr_str).

End Directory.

(** *** The connection of a directory

    [sqlite3.connect] numbers the connections that it opens; the world of a
    directory object is the database file, the number of connections opened
    so far and the connections that are open. *)
Module Connection.

Record directory := Directory {
  keep_alive : bool;
  conn : option nat
}.

(** [Directory(db_path, keep_alive)] *)
Definition init (keep_alive : bool) : directory := Directory keep_alive None.

Record world := World {
  file : Directory.database;
  connects : nat;
  opened : gset nat
}.

(** [method_wrapper]: connect unless a connection is kept; run the method
    in a transaction; [finally], close the connection unless it is kept. *)
Definition method_wrapper {A} (m : Directory.method A) (self : directory) (w : world)
  : Directory.result A * directory * world :=
  let '(c, self, w) :=
    match keep_alive self, conn self with
    | true, Some c => (c, self, w)
    | _, _ =>
        (* self.conn = sqlite3.connect(self.db_path) *)
        let c := connects w in
        (c, Directory (keep_alive self) (Some c),
         World (file w) (S c) ({[ c ]} ∪ opened w))
    end in
  let '(retval, d) := Directory.within_a_transaction m (file w) in
  let opened' :=
    if keep_alive self then opened w
    else opened w ∖ {[ c ]} in                         (* self.conn.close() *)
  (retval, self, World d (connects w) opened').

(** The two methods that are wrapped, and a sequence of calls of them. *)
Inductive call : Type :=
| LoadChpCsv (chp_csv_lines : list (list str))
| Find (addr_str : str).

Inductive outcome : Type :=
| Loaded (r : Directory.result ())
| Found (r : Directory.result str).

Definition do_call (c : call) (self : directory) (w : world)
  : outcome * directory * world :=
  match c with
  | LoadChpCsv lines =>
      let '(r, self, w) := method_wrapper (Directory.load_chp_csv_method lines) self w in
      (Loaded r, self, w)
  | Find s =>
      let '(r, self, w) := method_wrapper (Directory.find_method s) self w in
      (Found r, self, w)
  end.

Fixpoint do_calls (cs : list call) (self : directory) (w : world)
  : list outcome * directory * world :=
  match cs with
  | [] => ([], self, w)
  | c :: cs' =>
      let '(o, self, w) := do_call c self w in
      let '(os, self, w) := do_calls cs' self w in
      (o :: os, self, w)
  end.

End Connection.

(** ** Notions used to state the properties *)

(** The least number of characters a match of the pattern covers. *)
Fixpoint min_len (r : regex) : nat :=
  match r with
  | Cls _ | Plus _ => 1
  | Seq r1 r2 => min_len r1 + min_len r2
  | Alt r1 r2 => Nat.min (min_len r1) (min_len r2)
  | LazyMin n _ => n
  | Group _ r1 => min_len r1
  | Eps | Opt _ | Ahead _ | NotAhead _ | NotBehind _ | Bol | Eol => 0
  end.

(** What a match of a pattern is, told without the order in which the
    matcher tries things: [step r st st'] when [r] can take the matcher from
    [st] to [st'].  The matcher is sound for it ([run_sound]). *)
Fixpoint step (r : regex) (st st' : mstate) : Prop :=
  match r with
  | Eps => st' = st
  | Cls p =>
      exists c aft', after st = c :: aft' /\ p c = true
                     /\ st' = MState (c :: before st) aft' (caps st)
  | Seq r1 r2 => exists st1, step r1 st st1 /\ step r2 st1 st'
  | Alt r1 r2 => step r1 st st' \/ step r2 st st'
  | Opt r1 => step r1 st st' \/ st' = st
  | Plus p =>
      exists v, (1 <= length v)%nat /\ Forall (fun c => p c = true) v
                /\ after st = v ++ after st'
                /\ before st' = rev v ++ before st /\ caps st' = caps st
  | LazyMin n p =>
      exists v, (n <= length v)%nat /\ Forall (fun c => p c = true) v
                /\ after st = v ++ after st'
                /\ before st' = rev v ++ before st /\ caps st' = caps st
  | Group g r1 => exists st1, step r1 st st1 /\ st' = set_cap g (consumed st st1) st1
  | Ahead r1 => st' = st /\ exists x, step r1 st x
  | NotAhead r1 => st' = st /\ run r1 st Some = None
  | NotBehind p => st' = st /\ forall c, head (before st) = Some c -> p c = false
  | Bol => st' = st /\ before st = []
  | Eol => st' = st /\ (after st = [] \/ after st = [10])
  end.

(** [st'] is [st] after reading the text [v]. *)
Definition spans (st : mstate) (v : str) (st' : mstate) : Prop :=
  after st = v ++ after st' /\ before st' = rev v ++ before st.

(** What the tokenizer promises of a token. *)
Definition digits (s : str) : Prop := Forall (fun c => is_digit c = true) s.

Record wf_token (t : token) : Prop := {
  wf_no : digits (t_no t);
  wf_subno : t_subno t = [] \/
             exists ds, t_subno t = u "之" ++ ds /\ ds <> [] /\ digits ds;
  wf_unit : t_unit t = [] \/
            exists c, t_unit t = [c] /\ c ∈ u "縣市鄉鎮市區村里鄰路街段巷弄號樓";
  wf_one : (t_no t <> [] /\ t_name t = []) \/
           (t_no t = [] /\ t_subno t = [] /\ t_name t <> [])
}.

(** [replace] with the lookups of the source checked: [None] is a KeyError
    or an IndexError. *)
Definition replace_checked (found : str) : option str :=
  match Address.dict_get Address.TO_REPLACE_MAP found with
  | Some v => Some v
  | None =>
      c0 ← found !! 0%nat;
      if inb c0 Address.CHINESE_NUMERALS_SET then
        if Nat.eqb (length found) 2 then
          c1 ← found !! 1%nat;
          v1 ← Address.dict_get Address.TO_REPLACE_MAP [c1];
          Some (u "1" ++ v1)
        else if Nat.eqb (length found) 3 then
          v0 ← Address.dict_get Address.TO_REPLACE_MAP [c0];
          c2 ← found !! 2%nat;
          v2 ← Address.dict_get Address.TO_REPLACE_MAP [c2];
          Some (v0 ++ v2)
        else Some []
      else Some []
  end.

Definition replace_safe (found : str) : bool :=
  bool_decide (replace_checked found = Some (Address.replace found)).

(** The integers 1 to 99 in the common Han form (一 ... 九, 十, 十一 ...
    十九, 二十, 二十一 ... 九十九) and in ASCII decimal. *)
Definition han_digit_of (d : nat) : str :=
  match u "一二三四五六七八九" !! (d - 1)%nat with
  | Some c => [c]
  | None => []
  end.

Definition han_of (n : nat) : str :=
  (if (n / 10 =? 0)%nat then []
   else if (n / 10 =? 1)%nat then u "十"
   else han_digit_of (n / 10) ++ u "十")
  ++ (if (n mod 10 =? 0)%nat then [] else han_digit_of (n mod 10)).

Definition dec_of (n : nat) : str :=
  (if (n <? 10)%nat then [] else [48 + N.of_nat (n / 10)])
  ++ [48 + N.of_nat (n mod 10)].

(** The group scan of [StandardAddress] told on what is left of the tokens
    rather than on indices: the first token of the given unit and the
    tokens after it. *)
Fixpoint pick_unit (unit : str) (ts : list token) : option (token * list token) :=
  match ts with
  | [] => None
  | t :: ts' =>
      if str_eqb (t_unit t) unit then Some (t, ts') else pick_unit unit ts'
  end.

Fixpoint pick_group (units : str) (ts : list token) : option (token * list token) :=
  match units with
  | [] => None
  | unit :: units' =>
      match pick_unit [unit] ts with
      | Some r => Some r
      | None => pick_group units' ts
      end
  end.

Fixpoint pick_levels (groups : list str) (ts : list token) : list token :=
  match groups with
  | [] => ts
  | units :: groups' =>
      match pick_group units ts with
      | Some (t, rest) => t :: pick_levels groups' rest
      | None => pick_levels groups' ts
      end
  end.

(** The character-wise longest common prefix of two texts, and of a
    non-empty sequence of texts. *)
Fixpoint common_prefix (a b : str) : str :=
  match a, b with
  | x :: a', y :: b' => if x =? y then x :: common_prefix a' b' else []
  | _, _ => []
  end.

Definition longest_common_prefix (z1 : str) (zs : list str) : str :=
  fold_left common_prefix zs z1.

(** The writes of the directory, to speak of any sequence of them. *)
Inductive write : Type :=
| PutPrecise (addr_str rule_str zipcode : str)
| PutGradual (addr_str zipcode : str)
| Put (head_addr_str tail_rule_str zipcode : str).

Definition do_write (t : Directory.tables) (w : write) : Directory.tables :=
  match w with
  | PutPrecise a r z => Directory.put_precise a r z t
  | PutGradual a z => Directory.put_gradual a z t
  | Put h r z => Directory.put h r z t
  end.

(** [precise[(k, r)]] *)
Definition precise_lookup (t : Directory.tables) (k r : str) : option str :=
  snd <$> List.find (Directory.has_key k r) (Directory.precise t).

(** The rows of a database, none when the tables are not there. *)
Definition rows_of (d : Directory.database) : Directory.tables :=
  default Directory.empty_tables d.

(** Rows in the order of the index: no row has a [rule_str] that comes
    before that of a row before it. *)
Definition in_index_order (rows : list (str * str)) : Prop :=
  StronglySorted (fun r1 r2 => Directory.text_ltb (fst r2) (fst r1) = false) rows.

(** [a] comes before [b] in the order of the code points: at the first
    place where they differ [a] has the smaller one, or [a] ends there. *)
Inductive comes_before : str -> str -> Prop :=
| before_prefix (y : char) (b : str) : comes_before [] (y :: b)
| before_head (x y : char) (a b : str) : x < y -> comes_before (x :: a) (y :: b)
| before_tail (x : char) (a b : str) : comes_before a b -> comes_before (x :: a) (x :: b).

(** What one prefix key yields in a lookup of the address [addr]. *)
Section LookupSpec.
Variable t : Directory.tables.
Variable addr : list token.

Definition rule_matches (rz : str * str) : bool :=
  Rule.matches (Rule.new (fst rz)) addr.

(** the zipcode of the first row of the key whose rule matches, in the
    order of the query: the row of [precise] under the key whose rule matches
    [addr] and whose [rule_str] no matching row of the key comes before *)
Definition precise_hit (key z : str) : Prop :=
  exists rule_str,
    (key, rule_str, z) ∈ Directory.precise t
    /\ Rule.matches (Rule.new rule_str) addr = true
    /\ forall rule_str' z',
         (key, rule_str', z') ∈ Directory.precise t ->
         Rule.matches (Rule.new rule_str') addr = true ->
         ~ comes_before rule_str' rule_str.

(** no row of [precise] under the key has a rule that matches *)
Definition precise_miss (key : str) : Prop :=
  forall rule_str z,
    (key, rule_str, z) ∈ Directory.precise t ->
    Rule.matches (Rule.new rule_str) addr = false.

(** the gradual value of the key, present and not empty *)
Definition gradual_hit (key z : str) : Prop :=
  Directory.gradual t !! key = Some (Some z) /\ z <> [].

Definition hit_at (key z : str) : Prop :=
  precise_hit key z \/ (precise_miss key /\ gradual_hit key z).

Definition miss_at (key : str) : Prop :=
  precise_miss key /\ forall z, ~ gradual_hit key z.
End LookupSpec.

(** [normalize] with the lookups of [replace] checked: [None] when one of
    them raises. *)
Definition normalize_checked (s : str) : option str :=
  pieces ← mapM (fun p => match p with
                          | Keep c => Some [c]
                          | Hit found _ => replace_checked found
                          end)
                (scan Address.TO_REPLACE_RE [] s 0);
  Some (concat pieces).

(** The characters that [normalize] never leaves in its result: those of
    the third alternative of [TO_REPLACE_RE], and the full-width digits. *)
Definition is_noise (c : char) : bool :=
  one_of " 　,，台~-" c || ((65296 <=? c) && (c <=? 65305)).

(** The characters a match of [TO_REPLACE_RE] can start with. *)
Definition may_start_match (c : char) : bool :=
  (c <=? 127) || one_of "台臺" c || one_of " 　,，台~-" c || one_of "北" c
  || ((65296 <=? c) && (c <=? 65305))
  || one_of "一二三四五六七八九" c || one_of "十" c.

(** The part of the text that a piece of a scan stands for. *)
Definition piece_text (p : piece) : str :=
  match p with
  | Keep c => [c]
  | Hit found _ => found
  end.

(** [unit] is one of the units of [LEVEL_UNITS_LIST]. *)
Definition is_level_unit (unit : str) : bool :=
  existsb (fun units => existsb (fun c => str_eqb unit [c]) units)
          StandardAddress.LEVEL_UNITS_LIST.

(** The qualifiers that [part] can put in [rule_tokens]: the texts that
    [RULE_TOKEN_RE] matches, but for 連. *)
Definition RULE_KEYWORDS : list str :=
  [ u "及以上附號"; u "含附號以下"; u "含附號全"; u "含附號"; u "以下"; u "以上";
    u "附號全"; u "至"; u "單"; u "雙"; u "全" ].

(** The [my_last_pos] of [match]: the index of the last token of the rule
    that the address must repeat. *)
Definition my_last_pos (self : Rule.t) : Z :=
  (Z.of_nat (length (Rule.tokens self)) - 1
   - Z.b2z (negb (bool_decide (Rule.rule_tokens self = ∅))
            && negb (bool_decide (u "全" ∈ Rule.rule_tokens self)))
   - Z.b2z (bool_decide (u "至" ∈ Rule.rule_tokens self)))%Z.

(** The keys under which [put] writes to [gradual], in the order of its
    calls of [put_gradual]: every contiguous run of the tokens, then tokens 0
    and 2 when there are three tokens or more. *)
Definition gradual_keys (head_addr_str : str) : list str :=
  let addr := Address.tokenize head_addr_str in
  let len_tokens := length addr in
  flat_map (fun f => map (fun l => Address.flat_range addr f (l + 1))
                         (seq f (len_tokens - f)))
           (seq 0 len_tokens)
  ++ (if (3 <=? len_tokens)%nat then [Address.pick_to_flat addr [0; 2]%Z] else []).

(** The primary key under which [put] writes to [precise]. *)
Definition precise_key (head_addr_str tail_rule_str : str) : str * str :=
  (Address.flat (Address.tokenize head_addr_str), head_addr_str ++ tail_rule_str).

(** A directory built from rows [(head_addr_str, tail_rule_str, zipcode)] by
    [put], from the empty tables. *)
Definition put_all (rows : list (str * str * str)) (t : Directory.tables)
  : Directory.tables :=
  fold_left (fun t row => Directory.put row.1.1 row.1.2 row.2 t) rows t.

(** The zipcodes that the rows write under the key [k] of [gradual], in the
    order of the rows. *)
Definition zipcodes_under (k : str) (rows : list (str * str * str)) : list str :=
  map snd (List.filter (fun row => bool_decide (k ∈ gradual_keys row.1.1)) rows).

(** What one put_gradual of [z] makes of the row of its key. *)
Definition again (v : option (option str)) (z : str) : option (option str) :=
  Some (Directory.get_common_part
          (match v with None => None | Some row0 => row0 end) (Some z)).

(** The arguments that [load_chp_csv] gives to [put] for a row of the
    reader: [row[1:-1]] joined, [row[-1]] and [row[0]]. *)
Definition put_args (row : list str) : str * str * str :=
  (concat (drop 1 (take (length row - 1) row)), List.last row [], hd [] row).

(** Every zipcode of the store comes from the texts [Z]: those of
    [precise] are among them, those of [gradual] are prefixes of them. *)
Definition from_rows (Z : list str) (t : Directory.tables) : Prop :=
  (forall row, row ∈ Directory.precise t -> row.2 ∈ Z)
  /\ (forall k v, Directory.gradual t !! k = Some (Some v) ->
                  exists z, z ∈ Z /\ v `prefix_of` z).

(** The texts that a pass of [normalize] only rewrites in place: they do
    not begin with an ASCII character or a full-width digit, and hold no
    blank, no comma, no 灣 and none of the Han numerals 一 to 九. *)
Definition untidy : char -> bool := one_of " 　,，灣一二三四五六七八九".

Definition tidy (s : str) : bool :=
  match s with
  | [] => true
  | c :: _ => negb (c <=? 127) && negb ((65296 <=? c) && (c <=? 65305))
  end
  && forallb (fun c => negb (untidy c)) s.

(** What a pass makes of such a text, character by character: 台 becomes
    臺, ~ and - become 之, a full-width digit becomes the ASCII digit, and 臺
    is put before a 北市 that does not follow 臺, 台, 新 or 竹 and is not
    followed by 場. *)
Definition abbreviated (prev : option char) (c : char) (rest : str) : bool :=
  one_of "北" c
  && match rest with
     | c1 :: rest' =>
         one_of "市" c1
         && match rest' with
            | c2 :: _ => negb (one_of "場" c2)
            | [] => true
            end
     | [] => false
     end
  && match prev with
     | Some c0 => negb (one_of "臺台新竹" c0)
     | None => true
     end.

Definition piece_of (prev : option char) (c : char) (rest : str) : str :=
  if one_of "台" c then u "臺"
  else if one_of "~-" c then u "之"
  else if (65296 <=? c) && (c <=? 65305) then [c - 65248]
  else if abbreviated prev c rest then u "臺" ++ [c]
  else [c].

Fixpoint rewritten (prev : option char) (s : str) : str :=
  match s with
  | [] => []
  | c :: s' => piece_of prev c s' ++ rewritten (Some c) s'
  end.

(** The character before is one of those after which 北市 is left alone. *)
Definition behind (prev : option char) : bool :=
  match prev with
  | Some c0 => one_of "臺台新竹" c0
  | None => false
  end.

(** * Properties *)

(** ** The matcher *)

Section MatcherFacts.
Context {R : Type}.
Implicit Types (k : str -> str -> option R) (p : char -> bool).

Lemma greedy_consumes p aft : forall bef k res,
  greedy p bef aft k = Some res ->
  exists b' a', k b' a' = Some res /\ (length a' <= length aft)%nat.
Proof.
  induction aft as [|c aft IH]; intros bef k res H; simpl in H.
  - eauto.
  - destruct (p c); [|eauto].
    destruct (greedy p (c :: bef) aft k) eqn:E.
    + inversion H; subst. apply IH in E as (b' & a' & Hk & Hl).
      exists b', a'. simpl. split; [done | lia].
    + eauto.
Qed.

Lemma lazy_consumes p aft : forall bef k res,
  lazy p bef aft k = Some res ->
  exists b' a', k b' a' = Some res /\ (length a' <= length aft)%nat.
Proof.
  induction aft as [|c aft IH]; intros bef k res H; simpl in H.
  - destruct (k bef []) eqn:E; [|done]. inversion H; subst. eauto.
  - destruct (k bef (c :: aft)) eqn:E.
    + inversion H; subst. eauto.
    + destruct (p c); [|done].
      apply IH in H as (b' & a' & Hk & Hl).
      exists b', a'. simpl. split; [done | lia].
Qed.

Lemma exactly_consumes n p : forall aft bef k res,
  exactly n p bef aft k = Some res ->
  exists b' a', k b' a' = Some res /\ (length a' + n <= length aft)%nat.
Proof.
  induction n as [|n IH]; intros aft bef k res H; simpl in H.
  - exists bef, aft. split; [done | lia].
  - destruct aft as [|c aft]; [done|]. destruct (p c); [|done].
    apply IH in H as (b' & a' & Hk & Hl).
    exists b', a'. simpl. split; [done | lia].
Qed.
End MatcherFacts.

(** A match covers at least [min_len] characters: the continuation is
    entered that much further in the text. *)
Lemma run_consumes r : forall st k res,
  run r st k = Some res ->
  exists st', k st' = Some res /\
              (length (after st') + min_len r <= length (after st))%nat.
Proof.
  induction r as [ |p|r1 IH1 r2 IH2|r1 IH1 r2 IH2|r1 IH1|p|n p|g r1 IH1
                 |r1 IH1|r1 IH1|p| | ]; intros st k res H; cbn [run min_len] in H |- *.
  - exists st. split; [done | lia].
  - destruct (after st) as [|c aft] eqn:Ea; [done|]. destruct (p c); [|done].
    eexists. split; [exact H | simpl; lia].
  - apply IH1 in H as (st1 & H & Hl1). apply IH2 in H as (st2 & H & Hl2).
    exists st2. split; [done | lia].
  - destruct (run r1 st k) eqn:E.
    + inversion H; subst. apply IH1 in E as (st' & ? & ?). exists st'. split; [done | lia].
    + apply IH2 in H as (st' & ? & ?). exists st'. split; [done | lia].
  - destruct (run r1 st k) eqn:E.
    + inversion H; subst. apply IH1 in E as (st' & ? & ?). exists st'. split; [done | lia].
    + exists st. split; [done | lia].
  - apply (exactly_consumes 1) in H as (b & a & H & Hl).
    apply greedy_consumes in H as (b' & a' & H & Hl').
    eexists. split; [exact H | simpl; lia].
  - apply exactly_consumes in H as (b & a & H & Hl).
    apply lazy_consumes in H as (b' & a' & H & Hl').
    eexists. split; [exact H | simpl; lia].
  - apply IH1 in H as (st' & H & Hl). eexists. split; [exact H | simpl; lia].
  - destruct (run r1 st Some); [|done]. exists st. split; [done | lia].
  - destruct (run r1 st Some); [done|]. exists st. split; [done | lia].
  - exists st. split; [|lia]. destruct (before st) as [|c ?]; [done|].
    by destruct (p c).
  - exists st. split; [|lia]. by destruct (before st).
  - exists st. split; [|lia]. destruct (after st) as [|c [|? ?]]; try done.
    by destruct (c =? 10).
Qed.

(** None of the three patterns of the source matches the empty text, which
    is what [scan] relies on. *)
Lemma match_at_consumes re bef aft st :
  (1 <= min_len re)%nat ->
  match_at re bef aft = Some st ->
  (length (after st) < length aft)%nat.
Proof.
  intros Hm H. apply run_consumes in H as (st' & H & Hl).
  inversion H; subst. simpl in Hl. lia.
Qed.

Lemma patterns_min_len :
  min_len Address.TO_REPLACE_RE = 1%nat /\
  min_len Address.TOKEN_RE = 1%nat /\
  min_len Rule.RULE_TOKEN_RE = 1%nat.
Proof. vm_compute. done. Qed.

(** ** What the patterns match *)

Section MatcherSound.
Context {R : Type}.
Implicit Types (k : str -> str -> option R) (p : char -> bool).

Lemma greedy_sound p aft : forall bef k res,
  greedy p bef aft k = Some res ->
  exists v a', aft = v ++ a' /\ Forall (fun c => p c = true) v
               /\ k (rev v ++ bef) a' = Some res.
Proof.
  induction aft as [|c aft IH]; intros bef k res H; simpl in H.
  - exists [], []. done.
  - destruct (p c) eqn:Ep; [|by exists [], (c :: aft)].
    destruct (greedy p (c :: bef) aft k) eqn:E; [|by exists [], (c :: aft)].
    inversion H; subst. apply IH in E as (v & a' & -> & Hv & Hk).
    exists (c :: v), a'. split; [done|]. split; [by constructor|].
    simpl. by rewrite <- app_assoc.
Qed.

Lemma lazy_sound p aft : forall bef k res,
  lazy p bef aft k = Some res ->
  exists v a', aft = v ++ a' /\ Forall (fun c => p c = true) v
               /\ k (rev v ++ bef) a' = Some res.
Proof.
  induction aft as [|c aft IH]; intros bef k res H; simpl in H.
  - destruct (k bef []) eqn:E; [|done]. inversion H; subst. by exists [], [].
  - destruct (k bef (c :: aft)) eqn:E.
    + inversion H; subst. by exists [], (c :: aft).
    + destruct (p c) eqn:Ep; [|done].
      apply IH in H as (v & a' & -> & Hv & Hk).
      exists (c :: v), a'. split; [done|]. split; [by constructor|].
      simpl. by rewrite <- app_assoc.
Qed.

Lemma exactly_sound n p : forall aft bef k res,
  exactly n p bef aft k = Some res ->
  exists v a', aft = v ++ a' /\ length v = n /\ Forall (fun c => p c = true) v
               /\ k (rev v ++ bef) a' = Some res.
Proof.
  induction n as [|n IH]; intros aft bef k res H; simpl in H.
  - by exists [], aft.
  - destruct aft as [|c aft]; [done|]. destruct (p c) eqn:Ep; [|done].
    apply IH in H as (v & a' & -> & Hl & Hv & Hk).
    exists (c :: v), a'. split; [done|]. split; [by rewrite <- Hl|].
    split; [by constructor|]. simpl. by rewrite <- app_assoc.
Qed.
End MatcherSound.

Lemma run_sound r : forall st k res,
  run r st k = Some res -> exists st', step r st st' /\ k st' = Some res.
Proof.
  induction r as [ |p|r1 IH1 r2 IH2|r1 IH1 r2 IH2|r1 IH1|p|n p|g r1 IH1
                 |r1 IH1|r1 IH1|p| | ]; intros st k res H; cbn [run step] in H |- *.
  - eauto.
  - destruct (after st) as [|c aft] eqn:Ea; [done|]. destruct (p c) eqn:Ep; [|done].
    eexists. split; [|exact H]. eauto.
  - apply IH1 in H as (st1 & H1 & H). apply IH2 in H as (st2 & H2 & H). eauto.
  - destruct (run r1 st k) eqn:E.
    + inversion H; subst. apply IH1 in E as (st' & ? & ?). eauto.
    + apply IH2 in H as (st' & ? & ?). eauto.
  - destruct (run r1 st k) eqn:E.
    + inversion H; subst. apply IH1 in E as (st' & ? & ?). eauto.
    + eauto.
  - apply (exactly_sound 1) in H as (v1 & a1 & Ha & Hl & Hv1 & H).
    apply greedy_sound in H as (v2 & a2 & -> & Hv2 & H).
    eexists. split; [|exact H]. exists (v1 ++ v2). simpl.
    split; [rewrite length_app; lia|]. split; [by apply Forall_app|].
    split; [by rewrite Ha, <- app_assoc|].
    split; [|done]. by rewrite rev_app_distr, <- app_assoc.
  - apply exactly_sound in H as (v1 & a1 & Ha & Hl & Hv1 & H).
    apply lazy_sound in H as (v2 & a2 & -> & Hv2 & H).
    eexists. split; [|exact H]. exists (v1 ++ v2). simpl.
    split; [rewrite length_app; lia|]. split; [by apply Forall_app|].
    split; [by rewrite Ha, <- app_assoc|].
    split; [|done]. by rewrite rev_app_distr, <- app_assoc.
  - apply IH1 in H as (st' & H1 & H). eauto.
  - destruct (run r1 st Some) eqn:E; [|done].
    apply IH1 in E as (x & ? & _). eauto.
  - destruct (run r1 st Some) eqn:E; [done|]. eauto.
  - exists st. destruct (before st) as [|c ?] eqn:Eb.
    + split; [|done]. split; [done|]. by intros c.
    + destruct (p c) eqn:Ep; [done|]. split; [|done]. split; [done|].
      by intros c' [= <-].
  - exists st. destruct (before st) eqn:Eb; [|done]. done.
  - exists st. destruct (after st) as [|c [|? ?]] eqn:Ea; try done.
    + split; [|done]. split; [done|]. by left.
    + destruct (c =? 10) eqn:Ec; [|done]. apply N.eqb_eq in Ec as ->.
      split; [|done]. split; [done|]. by right.
Qed.

Lemma spans_consumed st v st' : spans st v st' -> consumed st st' = v.
Proof.
  intros [Ha _]. unfold consumed. rewrite Ha, length_app.
  replace (length v + length (after st') - length (after st'))%nat with (length v) by lia.
  by rewrite take_app_length.
Qed.

Lemma spans_trans st1 v1 st2 v2 st3 :
  spans st1 v1 st2 -> spans st2 v2 st3 -> spans st1 (v1 ++ v2) st3.
Proof.
  intros [Ha1 Hb1] [Ha2 Hb2]. split.
  - by rewrite Ha1, Ha2, app_assoc.
  - by rewrite Hb2, Hb1, rev_app_distr, app_assoc.
Qed.

Lemma step_spans r : forall st st', step r st st' -> exists v, spans st v st'.
Proof.
  induction r as [ |p|r1 IH1 r2 IH2|r1 IH1 r2 IH2|r1 IH1|p|n p|g r1 IH1
                 |r1 IH1|r1 IH1|p| | ]; intros st st' H; cbn [step] in H.
  - subst. by exists [].
  - destruct H as (c & aft' & Ha & _ & ->). exists [c]. by split.
  - destruct H as (st1 & H1 & H2).
    apply IH1 in H1 as [v1 H1]. apply IH2 in H2 as [v2 H2].
    exists (v1 ++ v2). by eapply spans_trans.
  - destruct H as [H|H]; eauto.
  - destruct H as [H| ->]; [eauto | by exists []].
  - destruct H as (v & _ & _ & Ha & Hb & _). by exists v.
  - destruct H as (v & _ & _ & Ha & Hb & _). by exists v.
  - destruct H as (st1 & H1 & ->). apply IH1 in H1 as [v H1]. by exists v.
  - destruct H as [-> _]. by exists [].
  - destruct H as [-> _]. by exists [].
  - destruct H as [-> _]. by exists [].
  - destruct H as [-> _]. by exists [].
  - destruct H as [-> _]. by exists [].
Qed.

Lemma step_Lit s : forall st st',
  step (Lit s) st st' -> spans st s st' /\ caps st' = caps st.
Proof.
  induction s as [|c s IH]; intros st st' H.
  - simpl in H. subst. by split.
  - destruct s as [|c' s].
    + simpl in H. destruct H as (c0 & aft' & Ha & Hc & ->).
      apply N.eqb_eq in Hc as <-. by split.
    + change (Lit (c :: c' :: s)) with (Seq (Cls (N.eqb c)) (Lit (c' :: s))) in H.
      cbn [step] in H. destruct H as (st1 & (c0 & aft' & Ha & Hc & ->) & H2).
      apply N.eqb_eq in Hc as <-. apply IH in H2 as [H2 Hcaps].
      split; [|done].
      apply (spans_trans st [c] (MState (c :: before st) aft' (caps st))); [by split | done].
Qed.

Lemma step_Plus p st st' :
  step (Plus p) st st' ->
  exists v, v <> [] /\ Forall (fun c => p c = true) v /\ spans st v st'
            /\ caps st' = caps st.
Proof.
  intros (v & Hl & Hv & Ha & Hb & Hc). exists v.
  split; [by destruct v; [simpl in Hl; lia|]|]. done.
Qed.

Lemma zhi_not_nil (vs : str) : u "之" ++ vs <> [].
Proof. vm_compute. discriminate. Qed.

Lemma token_head_caps st0 st1 :
  step Address.TOKEN_HEAD st0 st1 -> caps st0 = [] ->
  (exists no, no <> [] /\ digits no
     /\ (caps st1 = [(Address.NO, no)]
         \/ exists ds, ds <> [] /\ digits ds
                       /\ caps st1 = [(Address.SUBNO, u "之" ++ ds); (Address.NO, no)]))
  \/ (exists name, name <> [] /\ caps st1 = [(Address.NAME, name)]).
Proof.
  unfold Address.TOKEN_HEAD. cbn [step]. intros [Hnum|Hname] H0.
  - left. destruct Hnum as (s1 & (s0 & Hd & ->) & s2 & Hopt & -> & _).
    apply (step_Plus is_digit) in Hd as (vn & Hne & Hvn & Hsp & Hc).
    rewrite (spans_consumed _ _ _ Hsp) in Hopt. rewrite H0 in Hc.
    exists vn. split; [done|]. split; [done|].
    destruct Hopt as [(s3 & (s4 & Hzhi & Hd2) & ->)| ->].
    + apply step_Lit in Hzhi as [Hsp1 Hc1].
      apply (step_Plus is_digit) in Hd2 as (vs & Hne2 & Hvs & Hsp2 & Hc2).
      pose proof (spans_trans _ _ _ _ _ Hsp1 Hsp2) as Hsp3.
      rewrite (spans_consumed _ _ _ Hsp3).
      right. exists vs. split; [done|]. split; [done|].
      cbn [caps set_cap]. rewrite Hc2, Hc1. cbn [caps set_cap]. by rewrite Hc.
    + left. cbn [caps set_cap]. by rewrite Hc.
  - right. destruct Hname as (s1 & Hn & ->).
    assert (exists v, v <> [] /\ spans st0 v s1 /\ caps s1 = [])
      as (v & Hne & Hsp & Hc).
    { destruct Hn as [(c & aft' & Ha & _ & ->)|Hn].
      - exists [c]. by repeat split.
      - destruct Hn as (v & Hl & _ & Ha & Hb & Hc). exists v.
        split; [by destruct v; [simpl in Hl; lia|]|]. rewrite Hc. by repeat split. }
    rewrite (spans_consumed _ _ _ Hsp).
    exists v. split; [done|]. cbn [caps set_cap]. by rewrite Hc.
Qed.

Lemma one_of_elem (s : string) (c : char) : one_of s c = true -> c ∈ u s.
Proof.
  unfold one_of, inb. intros Hc.
  apply existsb_exists in Hc as (x & Hx & Heq). apply N.eqb_eq in Heq as ->.
  by apply list_elem_of_In.
Qed.

Lemma token_tail_caps st1 st :
  step Address.TOKEN_TAIL st1 st ->
  caps st = caps st1
  \/ exists c, c ∈ u "縣市鄉鎮市區村里鄰路街段巷弄號樓"
               /\ caps st = (Address.UNIT, [c]) :: caps st1.
Proof.
  unfold Address.TOKEN_TAIL. cbn [step].
  intros [(s1 & (c & aft' & Ha & Hc & ->) & ->)|[-> _]]; [|by left].
  right. exists c. split.
  - by apply one_of_elem.
  - cbn [caps set_cap].
    by rewrite (spans_consumed st1 [c] (MState (c :: before st1) aft' (caps st1)))
      by by split.
Qed.

Lemma token_re_well_formed bef aft st :
  match_at Address.TOKEN_RE bef aft = Some st ->
  wf_token (Address.token_of_groups (caps st)).
Proof.
  intros H. apply run_sound in H as (st' & H & [= ->]).
  cbn [step] in H. destruct H as (st1 & Hhead & Htail).
  apply token_head_caps in Hhead; [|done].
  apply token_tail_caps in Htail.
  unfold Address.token_of_groups, Address.NO, Address.SUBNO, Address.NAME,
    Address.UNIT in *.
  destruct Htail as [-> | (c & Hc & ->)];
    destruct Hhead as [(no & Hne & Hno & [-> | (ds & Hds & Hd & ->)])
                      |(name & Hne & ->)];
    cbn [get_cap Nat.eqb];
    (split; cbn [t_no t_subno t_name t_unit];
     [ first [exact Hno | constructor]
     | first [left; reflexivity
             | right; exists ds; split; [reflexivity | split; assumption]]
     | first [left; reflexivity
             | right; exists c; split; [reflexivity | assumption]]
     | first [left; split; [assumption | reflexivity]
             | right; split; [reflexivity | split; [reflexivity | assumption]]] ]).
Qed.

Lemma scan_hit re : forall aft bef skip found groups,
  Hit found groups ∈ scan re bef aft skip ->
  exists b a st, match_at re b a = Some st /\ groups = caps st
                 /\ found = consumed (MState b a []) st.
Proof.
  induction aft as [|c aft IH]; intros bef skip found groups Hin; simpl in Hin.
  - by apply elem_of_nil in Hin.
  - destruct skip as [|n]; [|by eapply IH].
    destruct (match_at re bef (c :: aft)) as [st|] eqn:E.
    + apply elem_of_cons in Hin as [[= -> ->]|Hin]; [|by eapply IH].
      exists bef, (c :: aft), st. done.
    + apply elem_of_cons in Hin as [[=]|Hin]. by eapply IH.
Qed.

Theorem tokenize_well_formed (addr_str : str) :
  Forall wf_token (Address.tokenize addr_str).
Proof.
  unfold Address.tokenize, re_findall. apply Forall_forall. intros t Ht.
  apply list_elem_of_fmap in Ht as (g & -> & Hg).
  apply list_elem_of_omap in Hg as ([c|found groups] & Hin & Hp); [done|].
  injection Hp as ->.
  apply scan_hit in Hin as (b & a & st & Hm & -> & _).
  by eapply token_re_well_formed.
Qed.

Lemma inb_elem c s : inb c s = true <-> c ∈ s.
Proof.
  unfold inb. rewrite existsb_exists, list_elem_of_In. split.
  - intros (x & Hx & Heq). by apply N.eqb_eq in Heq as ->.
  - intros H. exists c. split; [done | apply N.eqb_refl].
Qed.

Lemma class_not_numeral (p : char -> bool) :
  forallb (fun c => negb (p c)) Address.CHINESE_NUMERALS_SET = true ->
  forall c, p c = true -> inb c Address.CHINESE_NUMERALS_SET = false.
Proof.
  intros H c Hp. destruct (inb c Address.CHINESE_NUMERALS_SET) eqn:E; [|done].
  apply inb_elem, list_elem_of_In in E.
  rewrite forallb_forall in H. apply H in E. by rewrite Hp in E.
Qed.

Lemma replace_safe_not_numeral (v : str) c :
  head v = Some c -> inb c Address.CHINESE_NUMERALS_SET = false ->
  replace_safe v = true.
Proof.
  intros Hh Hc. apply bool_decide_eq_true.
  unfold replace_checked, Address.replace.
  destruct (Address.dict_get Address.TO_REPLACE_MAP v); [done|].
  destruct v as [|c0 v]; [done|]. injection Hh as ->.
  change ((c :: v) !! 0%nat) with (Some c). cbn [mbind option_bind]. by rewrite Hc.
Qed.

Lemma step_Cls_then p r st st' :
  step (Seq (Cls p) r) st st' ->
  exists c v, p c = true /\ spans st (c :: v) st'.
Proof.
  intros (st1 & (c & aft' & Ha & Hc & ->) & Hr).
  apply step_spans in Hr as [v Hv]. exists c, v. split; [done|].
  apply (spans_trans st [c] (MState (c :: before st) aft' (caps st))); [by split | done].
Qed.

(** The numerals of the last alternative of [TO_REPLACE_RE] are all in
    [TO_REPLACE_MAP] where [replace] looks them up. *)
Lemma han_numerals_safe :
  Forall (fun d =>
    replace_safe ([] ++ [] ++ [d]) = true
    /\ replace_safe ([] ++ u "十" ++ [d]) = true
    /\ Forall (fun d1 => replace_safe ([d1] ++ [] ++ [d]) = true
                         /\ replace_safe ([d1] ++ u "十" ++ [d]) = true)
              (u "一二三四五六七八九"))
    (u "一二三四五六七八九").
Proof. refine (bool_decide_unpack _ _). vm_compute. exact I. Qed.

Lemma numeral_shape_safe (o1 o2 : str) (d : char) :
  (o1 = [] \/ exists d1, one_of "一二三四五六七八九" d1 = true /\ o1 = [d1]) ->
  (o2 = [] \/ o2 = u "十") ->
  one_of "一二三四五六七八九" d = true ->
  replace_safe (o1 ++ o2 ++ [d]) = true.
Proof.
  intros H1 H2 Hd. pose proof han_numerals_safe as H.
  rewrite Forall_forall in H. apply one_of_elem in Hd.
  destruct (H d Hd) as (Ha & Hb & Hall). rewrite Forall_forall in Hall.
  destruct H1 as [-> | (d1 & Hd1 & ->)].
  - destruct H2 as [-> | ->]; assumption.
  - apply one_of_elem in Hd1. destruct (Hall d1 Hd1) as [Hc He].
    destruct H2 as [-> | ->]; assumption.
Qed.

Lemma u_bei : head (u "北市") = Some 21271.
Proof. vm_compute. reflexivity. Qed.

(** [normalize] never raises: on every match of [TO_REPLACE_RE] the
    lookups of [replace] succeed, and [replace] is the value they give. *)
Theorem replace_never_raises bef aft st :
  match_at Address.TO_REPLACE_RE bef aft = Some st ->
  replace_checked (consumed (MState bef aft []) st)
  = Some (Address.replace (consumed (MState bef aft []) st)).
Proof.
  intros H. apply run_sound in H as (st' & H & [= ->]).
  apply (bool_decide_unpack _). fold (replace_safe (consumed (MState bef aft []) st)).
  apply Is_true_true.
  set (st0 := MState bef aft []) in *.
  unfold Address.TO_REPLACE_RE in H.
  destruct H as [H|[H|[H|[H|[H|H]]]]].
  - destruct H as (st1 & [-> _] & H).
    apply (step_Plus (fun c => c <=? 127)) in H as (v & Hne & Hv & Hsp & _).
    rewrite (spans_consumed _ _ _ Hsp). destruct v as [|c v]; [done|].
    apply (replace_safe_not_numeral _ c); [done|].
    apply (class_not_numeral (fun c => c <=? 127)); [by vm_compute|].
    by inversion Hv.
  - apply step_Cls_then in H as (c & v & Hc & Hsp).
    rewrite (spans_consumed _ _ _ Hsp).
    apply (replace_safe_not_numeral _ c); [done|].
    by apply (class_not_numeral (one_of "台臺")); [vm_compute|].
  - destruct H as (c & aft' & Ha & Hc & ->).
    rewrite (spans_consumed st0 [c] (MState (c :: before st0) aft' (caps st0)))
      by by split.
    apply (replace_safe_not_numeral _ c); [done|].
    by apply (class_not_numeral (one_of " 　,，台~-")); [vm_compute|].
  - destruct H as (st1 & [-> _] & st2 & H & [-> _]).
    apply step_Lit in H as [Hsp _]. rewrite (spans_consumed _ _ _ Hsp).
    apply (replace_safe_not_numeral _ 21271); [exact u_bei | by vm_compute].
  - destruct H as (c & aft' & Ha & Hc & ->).
    rewrite (spans_consumed st0 [c] (MState (c :: before st0) aft' (caps st0)))
      by by split.
    apply (replace_safe_not_numeral _ c); [done|].
    by apply (class_not_numeral (fun c => (65296 <=? c) && (c <=? 65305)));
      [vm_compute|].
  - destruct H as (st1 & H1 & st2 & H2 & st3 & H3 & [-> _]).
    assert (exists o1, spans st0 o1 st1
              /\ (o1 = [] \/ exists d1, one_of "一二三四五六七八九" d1 = true /\ o1 = [d1]))
      as (o1 & Hs1 & Ho1).
    { destruct H1 as [(c & aft' & Ha & Hc & ->)| ->].
      - exists [c]. split; [by split | eauto].
      - exists []. split; [by split | by left]. }
    assert (exists o2, spans st1 o2 st2 /\ (o2 = [] \/ o2 = u "十")) as (o2 & Hs2 & Ho2).
    { destruct H2 as [H2| ->].
      - apply step_Lit in H2 as [H2 _]. exists (u "十"). split; [done | by right].
      - exists []. split; [by split | by left]. }
    destruct H3 as (d & aft' & Ha & Hd & ->).
    assert (spans st2 [d] (MState (d :: before st2) aft' (caps st2))) as Hs3 by by split.
    pose proof (spans_trans _ _ _ _ _ Hs1 (spans_trans _ _ _ _ _ Hs2 Hs3)) as Hsp.
    rewrite (spans_consumed _ _ _ Hsp). by apply numeral_shape_safe.
Qed.

(** ** StandardAddress *)

Lemma str_eqb_eq (a b : str) : str_eqb a b = true <-> a = b.
Proof. unfold str_eqb. apply bool_decide_eq_true. Qed.

Lemma str_eqb_neq (a b : str) : str_eqb a b = false <-> a <> b.
Proof. unfold str_eqb. apply bool_decide_eq_false. Qed.

Lemma pick_unit_none unit ts :
  pick_unit unit ts = None <-> forall x, x ∈ ts -> t_unit x <> unit.
Proof.
  induction ts as [|t ts IH]; simpl.
  - split; [|done]. intros _ x Hx. by apply elem_of_nil in Hx.
  - destruct (str_eqb (t_unit t) unit) eqn:E.
    + split; [done|]. intros H. apply str_eqb_eq in E.
      destruct (H t); [left | done].
    + apply str_eqb_neq in E. rewrite IH. split.
      * intros H x Hx. apply elem_of_cons in Hx as [->|Hx]; auto.
      * intros H x Hx. apply H. by right.
Qed.

Lemma pick_unit_some unit ts t rest :
  pick_unit unit ts = Some (t, rest) ->
  t_unit t = unit /\ exists pre, ts = pre ++ t :: rest.
Proof.
  induction ts as [|t0 ts IH]; simpl; [done|].
  destruct (str_eqb (t_unit t0) unit) eqn:E.
  - intros [= -> ->]. apply str_eqb_eq in E. split; [done|]. by exists [].
  - intros H. apply IH in H as (Hu & pre & ->). split; [done|]. by exists (t0 :: pre).
Qed.

Lemma pick_group_some units ts t rest :
  pick_group units ts = Some (t, rest) -> exists pre, ts = pre ++ t :: rest.
Proof.
  induction units as [|unit units IH]; simpl; [done|].
  destruct (pick_unit [unit] ts) as [[t0 r0]|] eqn:E; [|done].
  intros [= -> ->]. by apply pick_unit_some in E as [_ ?].
Qed.

Lemma pick_group_none_sublist units ts xs :
  pick_group units ts = None -> xs `sublist_of` ts -> pick_group units xs = None.
Proof.
  intros H Hs. induction units as [|unit units IH]; simpl in *; [done|].
  destruct (pick_unit [unit] ts) eqn:E; [done|].
  rewrite pick_unit_none in E.
  assert (pick_unit [unit] xs = None) as ->; [|auto].
  apply pick_unit_none. intros x Hx. apply E. by eapply elem_of_sublist.
Qed.

(** The token a group selects is selected again when it is put in front of
    any part of what came after it. *)
Lemma pick_group_again units ts t rest xs :
  pick_group units ts = Some (t, rest) -> xs `sublist_of` rest ->
  pick_group units (t :: xs) = Some (t, xs).
Proof.
  intros H Hs. induction units as [|unit units IH]; simpl in *; [done|].
  destruct (pick_unit [unit] ts) as [[t0 r0]|] eqn:E.
  - inversion H; subst. apply pick_unit_some in E as [Hu _].
    apply str_eqb_eq in Hu. by rewrite Hu.
  - destruct (pick_group_some _ _ _ _ H) as [pre ->].
    rewrite pick_unit_none in E.
    destruct (str_eqb (t_unit t) [unit]) eqn:E1.
    + apply str_eqb_eq in E1. destruct (E t); [|done].
      apply elem_of_app. right. left.
    + assert (pick_unit [unit] xs = None) as ->; [|auto].
      apply pick_unit_none. intros x Hx. apply E.
      apply elem_of_app. right. right. by eapply elem_of_sublist.
Qed.

Lemma pick_levels_sublist groups : forall ts, pick_levels groups ts `sublist_of` ts.
Proof.
  induction groups as [|units groups IH]; intros ts; simpl; [done|].
  destruct (pick_group units ts) as [[t rest]|] eqn:E; [|done].
  apply pick_group_some in E as [pre ->].
  apply sublist_inserts_l. by apply sublist_skip.
Qed.

(** Selecting the levels of a token sequence whose levels were selected
    already changes nothing. *)
Lemma pick_levels_idem groups : forall ts,
  pick_levels groups (pick_levels groups ts) = pick_levels groups ts.
Proof.
  induction groups as [|units groups IH]; intros ts; simpl; [done|].
  destruct (pick_group units ts) as [[t rest]|] eqn:E.
  - rewrite (pick_group_again _ _ _ _ _ E (pick_levels_sublist groups rest)).
    by rewrite IH.
  - rewrite (pick_group_none_sublist _ _ _ E (pick_levels_sublist groups ts)).
    apply IH.
Qed.

(** The index scan of the source and the scan on what is left agree. *)
Lemma first_with_unit_pick unit ts : forall i0,
  match StandardAddress.first_with_unit unit ts i0 with
  | Some (i, t) =>
      (i0 <= i)%nat /\ ts !! (i - i0)%nat = Some t
      /\ pick_unit unit ts = Some (t, drop (S (i - i0)) ts)
  | None => pick_unit unit ts = None
  end.
Proof.
  induction ts as [|t0 ts IH]; intros i0; simpl; [done|].
  destruct (str_eqb (t_unit t0) unit).
  - replace (i0 - i0)%nat with 0%nat by lia. by rewrite drop_0.
  - specialize (IH (S i0)).
    destruct (StandardAddress.first_with_unit unit ts (S i0)) as [[i t]|]; [|done].
    destruct IH as (Hle & Hl & Hp).
    replace (i - i0)%nat with (S (i - S i0)) by lia. by split; [lia|].
Qed.

Lemma scan_units_pick tokens std start : forall units,
  match pick_group units (drop start tokens) with
  | Some (t, rest) =>
      exists i, StandardAddress.scan_units units tokens (std, start) = (std ++ [t], S i)
                /\ (start <= i)%nat /\ tokens !! i = Some t /\ drop (S i) tokens = rest
  | None => StandardAddress.scan_units units tokens (std, start) = (std, start)
  end.
Proof.
  induction units as [|unit units IH]; simpl; [done|].
  pose proof (first_with_unit_pick [unit] (drop start tokens) start) as H.
  destruct (StandardAddress.first_with_unit [unit] (drop start tokens) start)
    as [[i t]|].
  - destruct H as (Hle & Hl & ->). exists i. split; [done|]. split; [done|].
    rewrite lookup_drop in Hl. rewrite drop_drop.
    replace (start + (i - start))%nat with i in Hl by lia.
    by replace (start + S (i - start))%nat with (S i) by lia.
  - rewrite H. exact IH.
Qed.

Lemma scan_levels_pick tokens groups : forall std start,
  let st := fold_left (fun st units => StandardAddress.scan_units units tokens st)
                      groups (std, start) in
  st.1 ++ drop st.2 tokens = std ++ pick_levels groups (drop start tokens)
  /\ (std `sublist_of` take start tokens -> st.1 `sublist_of` take st.2 tokens).
Proof.
  induction groups as [|units groups IH]; intros std start; simpl; [done|].
  pose proof (scan_units_pick tokens std start units) as H.
  destruct (pick_group units (drop start tokens)) as [[t rest]|].
  - destruct H as (i & -> & Hle & Hl & <-).
    destruct (IH (std ++ [t]) (S i)) as [IH1 IH2]. split.
    + rewrite IH1. by rewrite <- app_assoc.
    + intros Hs. apply IH2. rewrite (take_S_r _ _ _ Hl).
      apply sublist_app; [|done].
      etrans; [exact Hs|].
      replace start with (Nat.min start i) by lia. rewrite <- take_take.
      apply sublist_take.
  - rewrite H. apply IH.
Qed.

Lemma standardize_pick_levels tokens :
  StandardAddress.standardize tokens
  = pick_levels StandardAddress.LEVEL_UNITS_LIST tokens.
Proof.
  unfold StandardAddress.standardize, StandardAddress.scan_levels.
  pose proof (scan_levels_pick tokens StandardAddress.LEVEL_UNITS_LIST [] 0%nat) as [H _].
  destruct (fold_left _ _ _) as [std start]. simpl in H. by rewrite drop_0 in H.
Qed.

Lemma standardize_idem tokens :
  StandardAddress.standardize (StandardAddress.standardize tokens)
  = StandardAddress.standardize tokens.
Proof. rewrite !standardize_pick_levels. apply pick_levels_idem. Qed.

Lemma standardize_sublist tokens :
  StandardAddress.standardize tokens `sublist_of` tokens.
Proof. rewrite standardize_pick_levels. apply pick_levels_sublist. Qed.

(** The tokens of a StandardAddress and of a Rule are tokens of the
    tokenizer, so [parse] only ever reads digits. *)
Lemma standard_address_well_formed (addr_str : str) :
  Forall wf_token (StandardAddress.new addr_str).
Proof.
  unfold StandardAddress.new.
  pose proof (tokenize_well_formed addr_str) as H.
  rewrite Forall_forall in H |- *. intros t Ht. apply H.
  eapply elem_of_sublist; [exact Ht | apply standardize_sublist].
Qed.

Lemma rule_well_formed (rule_str : str) :
  Forall wf_token (Rule.tokens (Rule.new rule_str)).
Proof.
  unfold Rule.new. destruct (Rule.part rule_str) as [rule_tokens addr_str].
  apply tokenize_well_formed.
Qed.

(** C10: the tokens of a StandardAddress are the tokens that the group scan
    selected, in the order of their selection, followed by every token
    from the cursor on; the selected tokens are an in-order subsequence of
    the tokens before the cursor, so the whole is an in-order subsequence of
    the plain tokenisation, and a token before the cursor that was not
    selected is not in the result. *)
Theorem standard_tokens_subsequence (addr_str : str) :
  let plain := Address.tokenize addr_str in
  let picked := (StandardAddress.scan_levels plain).1 in
  let cursor := (StandardAddress.scan_levels plain).2 in
  StandardAddress.new addr_str = picked ++ drop cursor plain
  /\ picked `sublist_of` take cursor plain
  /\ StandardAddress.new addr_str `sublist_of` plain.
Proof.
  intros plain picked cursor.
  assert (StandardAddress.new addr_str = picked ++ drop cursor plain) as Hnew.
  { unfold StandardAddress.new, StandardAddress.standardize, picked, cursor.
    fold plain. by destruct (StandardAddress.scan_levels plain). }
  assert (picked `sublist_of` take cursor plain) as Hpicked.
  { apply (scan_levels_pick plain StandardAddress.LEVEL_UNITS_LIST [] 0%nat).
    apply sublist_nil_l. }
  split; [done|]. split; [done|].
  rewrite Hnew. rewrite <- (take_drop cursor plain) at 2.
  by apply sublist_app.
Qed.

(** C8 (amended): the group scan is idempotent on token sequences, so a
    StandardAddress built from the flat() text of StandardAddress(s) has the
    tokens of StandardAddress(s) whenever that flat() text tokenises back to
    them. *)
Theorem standardization_stable_when_flat_retokenizes (addr_str : str) :
  Address.tokenize (Address.flat (StandardAddress.new addr_str))
    = StandardAddress.new addr_str ->
  StandardAddress.new (Address.flat (StandardAddress.new addr_str))
    = StandardAddress.new addr_str.
Proof.
  intros H. unfold StandardAddress.new at 1. rewrite H.
  unfold StandardAddress.new. apply standardize_idem.
Qed.

Lemma standardization_stable_witness :
  let s := u "中正區臺北市忠孝東路1段1號" in
  Address.tokenize (Address.flat (StandardAddress.new s)) = StandardAddress.new s
  /\ StandardAddress.new (Address.flat (StandardAddress.new s)) = StandardAddress.new s.
Proof.
  split; [vm_compute; reflexivity|].
  apply (standardization_stable_when_flat_retokenizes (u "中正區臺北市忠孝東路1段1號")).
  vm_compute; reflexivity.
Defined.

(** C8 fails as stated: the Han numeral of "三號" is normalised to "3號",
    whose only token is (3, , , 號) and whose flat() text is "3號"; a
    StandardAddress of that text loses the leading ASCII digit to
    normalisation and has no token at all. *)
Lemma standardization_not_stable :
  let s := u "三號" in
  StandardAddress.new s = [Token (u "3") [] [] (u "號")]
  /\ Address.flat (StandardAddress.new s) = u "3號"
  /\ StandardAddress.new (Address.flat (StandardAddress.new s)) = []
  /\ StandardAddress.new (Address.flat (StandardAddress.new s)) <> StandardAddress.new s.
Proof. vm_compute. repeat split; discriminate. Qed.

(** ** Rule *)

Lemma tokens_agree_take mine his n :
  Rule.tokens_agree mine his n = true <-> take n mine = take n his.
Proof.
  induction n as [|n IH]; simpl; [by rewrite !take_0|].
  rewrite andb_true_iff, bool_decide_eq_true, IH. split.
  - intros [Hn Ht]. destruct (mine !! n) as [x|] eqn:E.
    + rewrite (take_S_r _ _ _ E), (take_S_r his n x) by done. by rewrite Ht.
    + symmetry in Hn. apply lookup_ge_None in E, Hn.
      rewrite !take_ge in Ht |- * by lia. done.
  - intros H. split.
    + rewrite <- (lookup_take_lt mine (S n) n), <- (lookup_take_lt his (S n) n) by lia.
      by rewrite H.
    + assert (take n (take (S n) mine) = take n (take (S n) his)) as H' by by rewrite H.
      rewrite !take_take in H'. by replace (Nat.min n (S n)) with n in H' by lia.
Qed.

Lemma tokens_agree_prefix mine his :
  Rule.tokens_agree mine his (length mine) = true <-> take (length mine) his = mine.
Proof.
  rewrite tokens_agree_take, take_ge by done. split; done.
Qed.

Lemma rejects_quan S his mine asst : Rule.rejects S his mine asst (u "全") = false.
Proof.
  unfold Rule.rejects.
  repeat match goal with
         | |- context [str_eqb (u "全") ?b] =>
             replace (str_eqb (u "全") b) with false by (vm_compute; reflexivity)
         end.
  reflexivity.
Qed.

(** C9: a rule without qualifiers matches an address exactly when the rule
    has no more tokens than the address and its tokens are the first
    len(R) tokens of the address; nothing is asked of the token that
    follows. *)
Theorem match_without_qualifiers (r : Rule.t) (addr : list token) :
  Rule.rule_tokens r = ∅ ->
  Rule.matches r addr = true <->
  (length (Rule.tokens r) <= length addr)%nat
  /\ take (length (Rule.tokens r)) addr = Rule.tokens r.
Proof.
  destruct r as [rt R]. cbn [Rule.rule_tokens Rule.tokens]. intros ->.
  unfold Rule.matches. cbn [Rule.rule_tokens Rule.tokens].
  rewrite (bool_decide_eq_true_2 (∅ = ∅)) by done.
  rewrite !(bool_decide_eq_false_2 (_ ∈ ∅)) by set_solver.
  rewrite elements_empty. cbn [negb andb Z.b2z forallb].
  replace (Z.of_nat (length R) - 1 - 0 - 0 + 1)%Z with (Z.of_nat (length R)) by lia.
  rewrite Nat2Z.id.
  destruct (Z.of_nat (length addr) <=? Z.of_nat (length R) - 1 - 0 - 0)%Z eqn:E.
  - apply Z.leb_le in E. split; [done|]. intros [? _]. lia.
  - apply Z.leb_gt in E.
    destruct (Rule.tokens_agree R addr (length R)) eqn:Ea; cbn [negb].
    + apply tokens_agree_prefix in Ea. split; [|done]. intros _. split; [lia | done].
    + split; [done|]. intros [_ Ht]. apply tokens_agree_prefix in Ht. congruence.
Qed.

Lemma match_without_qualifiers_witness :
  let r := Rule.new (u "臺北市中正區") in
  let addr := StandardAddress.new (u "臺北市中正區忠孝東路1段5號") in
  Rule.rule_tokens r = ∅
  /\ (Rule.matches r addr = true <->
      (length (Rule.tokens r) <= length addr)%nat
      /\ take (length (Rule.tokens r)) addr = Rule.tokens r).
Proof.
  split; [vm_compute; reflexivity|].
  apply (match_without_qualifiers (Rule.new (u "臺北市中正區"))
           (StandardAddress.new (u "臺北市中正區忠孝東路1段5號"))).
  vm_compute; reflexivity.
Defined.

(** C4 (amended): a rule whose qualifier set is exactly {全} matches an
    address exactly when its tokens are the first len(R) tokens of the
    address and the token of the address at index len(R) parses to a
    pair other than (0, 0); an address that ends with the rule's tokens, or
    whose next token carries no number, is not matched. *)
Theorem match_quan (r : Rule.t) (addr : list token) :
  Rule.rule_tokens r = {[ u "全" ]} ->
  Rule.matches r addr = true <->
  (length (Rule.tokens r) <= length addr)%nat
  /\ take (length (Rule.tokens r)) addr = Rule.tokens r
  /\ Address.parse addr (Z.of_nat (length (Rule.tokens r))) <> (0, 0)%Z.
Proof.
  destruct r as [rt R]. cbn [Rule.rule_tokens Rule.tokens]. intros ->.
  unfold Rule.matches. cbn [Rule.rule_tokens Rule.tokens].
  rewrite (bool_decide_eq_false_2 ({[ u "全" ]} = ∅)) by set_solver.
  rewrite (bool_decide_eq_true_2 (u "全" ∈ _)) by set_solver.
  rewrite (bool_decide_eq_false_2 (u "至" ∈ _))
    by (intros H%elem_of_singleton; vm_compute in H; discriminate).
  rewrite elements_singleton. cbn [negb andb Z.b2z forallb].
  rewrite rejects_quan. cbn [negb andb].
  replace (Z.of_nat (length R) - 1 - 0 - 0 + 1)%Z with (Z.of_nat (length R)) by lia.
  rewrite Nat2Z.id.
  destruct (Z.of_nat (length addr) <=? Z.of_nat (length R) - 1 - 0 - 0)%Z eqn:E.
  - apply Z.leb_le in E. split; [done|]. intros [? _]. lia.
  - apply Z.leb_gt in E.
    destruct (Rule.tokens_agree R addr (length R)) eqn:Ea; cbn [negb].
    + apply tokens_agree_prefix in Ea.
      destruct (bool_decide (Address.parse addr (Z.of_nat (length R)) = (0, 0)%Z)) eqn:Ep.
      * apply bool_decide_eq_true in Ep. split; [done|]. intros (_ & _ & ?). done.
      * apply bool_decide_eq_false in Ep. split; [|done]. intros _.
        split; [lia|]. split; done.
    + split; [done|]. intros (_ & Ht & _). apply tokens_agree_prefix in Ht. congruence.
Qed.

Lemma match_quan_witness :
  let r := Rule.new (u "臺北市中正區全") in
  let addr := StandardAddress.new (u "臺北市中正區5號") in
  Rule.rule_tokens r = {[ u "全" ]}
  /\ (Rule.matches r addr = true <->
      (length (Rule.tokens r) <= length addr)%nat
      /\ take (length (Rule.tokens r)) addr = Rule.tokens r
      /\ Address.parse addr (Z.of_nat (length (Rule.tokens r))) <> (0, 0)%Z).
Proof.
  split; [vm_compute; reflexivity|].
  apply (match_quan (Rule.new (u "臺北市中正區全"))
           (StandardAddress.new (u "臺北市中正區5號"))).
  vm_compute; reflexivity.
Defined.

(** C4 fails as stated: the rule "臺北市全" has the qualifier set {全} and
    the one token (, , 臺北, 市), which is the first and only token of the
    address "臺北市"; yet the rule does not match it, because the address
    has no numbered token after the prefix. *)
Lemma match_quan_needs_a_number :
  let r := Rule.new (u "臺北市全") in
  let addr := StandardAddress.new (u "臺北市") in
  Rule.rule_tokens r = {[ u "全" ]}
  /\ take (length (Rule.tokens r)) addr = Rule.tokens r
  /\ Rule.matches r addr = false
  /\ ~ (Rule.matches r addr = true <->
        take (length (Rule.tokens r)) addr = Rule.tokens r).
Proof.
  assert (Rule.matches (Rule.new (u "臺北市全")) (StandardAddress.new (u "臺北市")) = false)
    as Hm by (vm_compute; reflexivity).
  assert (take (length (Rule.tokens (Rule.new (u "臺北市全"))))
               (StandardAddress.new (u "臺北市"))
          = Rule.tokens (Rule.new (u "臺北市全"))) as Ht by (vm_compute; reflexivity).
  cbv zeta. split; [vm_compute; reflexivity|]. split; [exact Ht|].
  split; [exact Hm|]. intros [_ H]. specialize (H Ht). rewrite Hm in H.
  clear -H. discriminate H.
Qed.

(** ** Normalisation *)

(** C3 fails as stated: the first normalisation turns the full-width digits
    of "１０號" into "10號", and the second one deletes that leading ASCII run. *)
Lemma normalize_not_idempotent :
  let s := u "１０號" in
  Address.normalize s = u "10號"
  /\ Address.normalize (Address.normalize s) = u "號"
  /\ Address.normalize (Address.normalize s) <> Address.normalize s.
Proof. vm_compute. repeat split; discriminate. Qed.

(** C5: what the code does on the Han numerals 1 to 99 before each of the
    seven units, after the street name of the specification's example: the
    numerals with a units digit are converted to ASCII decimal, the multiples
    of ten (十, 二十, ... 九十) are left as they are.  So the first and the
    third literal of the claim hold, the second does not. *)
Theorem normalize_han_numerals :
  Address.normalize (u "忠孝東路一段") = u "忠孝東路1段"
  /\ Address.normalize (u "忠孝東路九十九段") = u "忠孝東路99段"
  /\ Address.normalize (u "忠孝東路十段") = u "忠孝東路十段"
  /\ Address.normalize (u "忠孝東路十段") <> u "忠孝東路10段"
  /\ Forall (fun n =>
        Forall (fun unit =>
          Address.normalize (u "忠孝東路" ++ han_of n ++ [unit])
          = u "忠孝東路"
              ++ (if (n mod 10 =? 0)%nat then han_of n else dec_of n) ++ [unit])
          (u "段路街巷弄號樓"))
        (seq 1 99).
Proof.
  split; [vm_compute; reflexivity|]. split; [vm_compute; reflexivity|].
  split; [vm_compute; reflexivity|]. split; [vm_compute; discriminate|].
  refine (bool_decide_unpack _ _). vm_compute. exact I.
Qed.

(** ** Directory: the precise index *)

Lemma find_app_some {A} (p : A -> bool) (l k : list A) x :
  List.find p l = Some x -> List.find p (l ++ k) = Some x.
Proof.
  induction l as [|y l IH]; simpl; [done|]. destruct (p y); [done | exact IH].
Qed.

Lemma find_none_existsb {A} (p : A -> bool) (l : list A) :
  List.find p l = None -> existsb p l = false.
Proof.
  induction l as [|y l IH]; simpl; [done|]. destruct (p y); [done | exact IH].
Qed.

Lemma find_some_existsb {A} (p : A -> bool) (l : list A) x :
  List.find p l = Some x -> existsb p l = true.
Proof.
  induction l as [|y l IH]; simpl; [done|]. destruct (p y); [done | exact IH].
Qed.

Lemma precise_lookup_some t k r z :
  precise_lookup t k r = Some z <->
  exists row, List.find (Directory.has_key k r) (Directory.precise t) = Some row
              /\ snd row = z.
Proof.
  unfold precise_lookup.
  destruct (List.find _ _) as [row|]; simpl; split.
  - intros [= <-]. eauto.
  - intros (row' & [= <-] & <-). done.
  - done.
  - intros (? & ? & _). done.
Qed.

Lemma put_precise_keeps t k r z a b z' :
  precise_lookup t k r = Some z ->
  precise_lookup (Directory.put_precise a b z' t) k r = Some z.
Proof.
  intros H. unfold Directory.put_precise.
  destruct (existsb _ _); [done|].
  apply precise_lookup_some in H as (row & Hf & <-).
  apply precise_lookup_some. exists row. split; [|done].
  simpl. by apply find_app_some.
Qed.

Lemma put_gradual_precise a z t :
  Directory.precise (Directory.put_gradual a z t) = Directory.precise t.
Proof. done. Qed.

Lemma fold_put_gradual_precise {A} (key : A -> str) z (l : list A) : forall t,
  Directory.precise (fold_left (fun t x => Directory.put_gradual (key x) z t) l t)
  = Directory.precise t.
Proof. induction l as [|x l IH]; intros t; simpl; [done|]. by rewrite IH. Qed.

Lemma put_precise_of_put h r z t :
  Directory.precise (Directory.put h r z t)
  = Directory.precise
      (Directory.put_precise (Address.flat (Address.tokenize h)) (h ++ r) z t).
Proof.
  unfold Directory.put.
  set (t1 := Directory.put_precise _ _ _ t).
  set (addr := Address.tokenize h).
  assert (forall fs t0,
    Directory.precise
      (fold_left (fun t f =>
         fold_left (fun t l => Directory.put_gradual
                                 (Address.flat_range addr f (l + 1)) z t)
                   (seq f (length addr - f)) t) fs t0)
    = Directory.precise t0) as Hfold.
  { induction fs as [|f fs IH]; intros t0; simpl; [done|].
    rewrite IH. apply (fold_put_gradual_precise
                         (fun l => Address.flat_range addr f (l + 1))). }
  destruct (3 <=? length addr)%nat; [rewrite put_gradual_precise|]; apply Hfold.
Qed.

Lemma do_write_keeps t k r z w :
  precise_lookup t k r = Some z -> precise_lookup (do_write t w) k r = Some z.
Proof.
  intros H. destruct w as [a b z'|a z'|h b z']; simpl.
  - by apply put_precise_keeps.
  - done.
  - unfold precise_lookup. rewrite put_precise_of_put.
    by apply put_precise_keeps.
Qed.

(** C6: once put_precise(k, r, z) has stored z under a key pair that was
    free, the value under (k, r) is z after any sequence of later writes,
    and a later put_precise(k, r, z') leaves the whole store as it is. *)
Theorem precise_first_writer_wins
        (t : Directory.tables) (k r z : str) (later : list write) (z' : str) :
  precise_lookup t k r = None ->
  let t1 := Directory.put_precise k r z t in
  let t2 := fold_left do_write later t1 in
  precise_lookup t1 k r = Some z
  /\ precise_lookup t2 k r = Some z
  /\ Directory.put_precise k r z' t2 = t2
  /\ precise_lookup (Directory.put_precise k r z' t2) k r = Some z.
Proof.
  intros Hfree t1 t2.
  assert (precise_lookup t1 k r = Some z) as H1.
  { unfold t1, Directory.put_precise, precise_lookup in *.
    destruct (List.find _ (Directory.precise t)) eqn:E; [done|].
    rewrite (find_none_existsb _ _ E). simpl.
    clear Hfree. induction (Directory.precise t) as [|row rows IH]; simpl in *.
    - unfold Directory.has_key. simpl.
      by rewrite !(proj2 (str_eqb_eq _ _) eq_refl).
    - destruct (Directory.has_key k r row); [done | by apply IH]. }
  assert (precise_lookup t2 k r = Some z) as H2.
  { unfold t2. generalize t1 H1.
    induction later as [|w later IH]; intros t0 H0; simpl; [done|].
    apply IH. by apply do_write_keeps. }
  assert (Directory.put_precise k r z' t2 = t2) as H3.
  { apply precise_lookup_some in H2 as (row & Hf & _).
    unfold Directory.put_precise. by rewrite (find_some_existsb _ _ _ Hf). }
  split; [done|]. split; [done|]. split; [done|]. by rewrite H3.
Qed.

Lemma precise_first_writer_wins_witness :
  let t := Directory.empty_tables in
  let later := [Put (u "臺北市中正區") (u "全") (u "100");
                PutGradual (u "臺北市") (u "100");
                PutPrecise (u "臺北市") (u "全") (u "999")] in
  precise_lookup t (u "臺北市") (u "全") = None
  /\ precise_lookup
       (Directory.put_precise (u "臺北市") (u "全") (u "200")
          (fold_left do_write later
             (Directory.put_precise (u "臺北市") (u "全") (u "100") t)))
       (u "臺北市") (u "全") = Some (u "100").
Proof.
  split; [vm_compute; reflexivity|].
  apply (precise_first_writer_wins Directory.empty_tables (u "臺北市") (u "全") (u "100")
           [Put (u "臺北市中正區") (u "全") (u "100");
            PutGradual (u "臺北市") (u "100");
            PutPrecise (u "臺北市") (u "全") (u "999")] (u "200")).
  vm_compute; reflexivity.
Defined.

(** ** Directory: the gradual index *)

Lemma first_diff_common_prefix a : forall b i,
  match Directory.first_diff a b i with
  | Some j => (i <= j)%nat /\ common_prefix a b = take (j - i) a
  | None => common_prefix a b = take (Nat.min (length a) (length b)) a
  end.
Proof.
  induction a as [|x a IH]; intros [|y b] i; simpl; try done.
  destruct (x =? y).
  - specialize (IH b (S i)). destruct (Directory.first_diff a b (S i)) as [j|].
    + destruct IH as [Hle ->]. split; [lia|].
      by replace (j - i)%nat with (S (j - S i)) by lia.
    + by rewrite IH.
  - split; [lia|]. by replace (i - i)%nat with 0%nat by lia.
Qed.

(** [get_common_part] is the longest common prefix unless the new text is
    empty and the stored one is not. *)
Lemma get_common_part_lcp a b :
  b <> [] \/ a = [] ->
  Directory.get_common_part (Some a) (Some b) = Some (common_prefix a b).
Proof.
  intros H. unfold Directory.get_common_part.
  pose proof (first_diff_common_prefix a b 0) as Hd.
  destruct (Directory.first_diff a b 0) as [j|].
  - destruct Hd as [_ ->]. by rewrite Nat.sub_0_r.
  - rewrite Hd. destruct a as [|x a]; [by destruct b|].
    destruct b as [|y b]; [by destruct H|]. done.
Qed.

Lemma get_common_part_is_prefix a b :
  exists i, Directory.get_common_part (Some a) (Some b) = Some (take i a).
Proof. unfold Directory.get_common_part. eauto. Qed.

Lemma put_gradual_lookup k z t :
  Directory.gradual (Directory.put_gradual k z t) !! k
  = Some (Directory.get_common_part
            (match Directory.gradual t !! k with None => None | Some row0 => row0 end)
            (Some z)).
Proof. unfold Directory.put_gradual. simpl. by rewrite lookup_insert_eq. Qed.

Lemma fold_put_gradual_lcp (k : str) (zs : list str) : forall t a,
  Directory.gradual t !! k = Some (Some a) ->
  Forall (fun z => z <> []) zs ->
  Directory.gradual (fold_left (fun t z => Directory.put_gradual k z t) zs t) !! k
  = Some (Some (fold_left common_prefix zs a)).
Proof.
  induction zs as [|z zs IH]; intros t a Ha Hne; simpl; [done|].
  inversion Hne as [|? ? Hz Hzs]; subst.
  apply IH; [|done]. rewrite put_gradual_lookup, Ha. f_equal.
  apply get_common_part_lcp. by left.
Qed.

(** Where the claim C2 holds: with zipcodes that are not empty, the value
    under a fresh key after put_gradual(k, z1), ..., put_gradual(k, zn) is
    the longest common prefix of z1 ... zn. *)
Lemma put_gradual_lcp_nonempty (t : Directory.tables) (k z1 : str) (zs : list str) :
  Directory.gradual t !! k = None ->
  Forall (fun z => z <> []) zs ->
  Directory.gradual
    (fold_left (fun t z => Directory.put_gradual k z t) zs (Directory.put_gradual k z1 t))
    !! k = Some (Some (longest_common_prefix z1 zs)).
Proof.
  intros Hfree Hne. apply fold_put_gradual_lcp; [|done].
  rewrite put_gradual_lookup, Hfree. done.
Qed.

(** The stored value never lengthens: a put_gradual leaves a prefix of what
    was stored. *)
Lemma put_gradual_shortens (t : Directory.tables) (k a z : str) :
  Directory.gradual t !! k = Some (Some a) ->
  exists i, Directory.gradual (Directory.put_gradual k z t) !! k = Some (Some (take i a)).
Proof.
  intros H. rewrite put_gradual_lookup, H.
  destruct (get_common_part_is_prefix a z) as [i ->]. eauto.
Qed.

(** C2: where the code departs from the claim.  After put_gradual(k, "100")
    and put_gradual(k, "") under any key k of an empty store, the stored value
    is "1", while the longest common prefix of "100" and "" is the empty
    text: with an empty range the [for ... else] of get_common_part still
    runs its [else] and cuts the stored text at 1 instead of 0. *)
Theorem put_gradual_empty_zipcode (k : str) :
  Directory.gradual
    (Directory.put_gradual k (u "")
       (Directory.put_gradual k (u "100") Directory.empty_tables)) !! k
  = Some (Some (u "1"))
  /\ longest_common_prefix (u "100") [u ""] = []
  /\ Directory.get_common_part (Some (u "100")) (Some (u "")) = Some (u "1").
Proof.
  rewrite !put_gradual_lookup. simpl. rewrite lookup_empty. simpl.
  split; [|split]; vm_compute; reflexivity.
Qed.

(** ** Directory: loading *)

Lemma load_row_nonempty (row : list str) (t : Directory.tables) :
  row <> [] -> exists t', Directory.load_row row t = inr t'.
Proof.
  intros Hne. unfold Directory.load_row.
  assert (exists x, Address.py_index row (-1) = Some x) as [x ->].
  { unfold Address.py_index. simpl.
    destruct (- Z.of_nat (length row) <=? -1)%Z eqn:E.
    - apply lookup_lt_is_Some. destruct row; [done|]. simpl length in *. lia.
    - apply Z.leb_gt in E. destruct row; [done|]. simpl length in *. lia. }
  assert (exists y, Address.py_index row 0 = Some y) as [y ->].
  { unfold Address.py_index. simpl. destruct row; [done|]. eauto. }
  simpl. eauto.
Qed.

Lemma load_rows_blank rows : forall t,
  [] ∈ rows ->
  exists t', Directory.load_rows rows t = (inl Directory.IndexError, t').
Proof.
  induction rows as [|row rows IH]; intros t Hin.
  - by apply elem_of_nil in Hin.
  - simpl. destruct row as [|f row].
    + simpl. eauto.
    + destruct (load_row_nonempty (f :: row) t) as [t' ->]; [done|].
      apply IH. apply elem_of_cons in Hin as [?|?]; done.
Qed.

(** C7 (amended): a data row with no field at all (a blank line) aborts the
    load.  On a database file without tables the error that reaches the
    caller is IndexError, raised at the blank row, and the rows put before
    it are rolled back: the two tables are left, empty.  On a file that has
    the tables already the error is OperationalError, raised by
    create_tables before any row is read, and the store is left as it was.
    Either way no row of the load persists.  A row with one or two fields
    raises nothing: it is loaded like any other row, with an empty head
    address. *)
Theorem load_blank_row_aborts
        (header : list str) (rows : list (list str)) (d : Directory.database) :
  [] ∈ rows ->
  Directory.load_chp_csv (header :: rows) None
  = (inl Directory.IndexError, Some Directory.empty_tables)
  /\ (forall t, Directory.load_chp_csv (header :: rows) (Some t)
                = (inl Directory.OperationalError, Some t))
  /\ rows_of (snd (Directory.load_chp_csv (header :: rows) d)) = rows_of d
  /\ (forall row t, row <> [] ->
        Directory.load_row row t
        = inr (Directory.put (concat (drop 1 (take (length row - 1) row)))
                             (List.last row []) (hd [] row) t)).
Proof.
  intros Hin. unfold Directory.load_chp_csv, Directory.within_a_transaction,
                Directory.load_chp_csv_method.
  split; [|split; [|split]].
  - cbn [Directory.create_tables].
    by destruct (load_rows_blank rows Directory.empty_tables Hin) as [t' ->].
  - done.
  - destruct d as [t|]; simpl; [done|].
    by destruct (load_rows_blank rows Directory.empty_tables Hin) as [t' ->].
  - intros row t Hne. unfold Directory.load_row.
    assert (Address.py_index row (-1) = Some (List.last row [])) as ->.
    { unfold Address.py_index. simpl.
      destruct (- Z.of_nat (length row) <=? -1)%Z eqn:E.
      - replace (Z.to_nat (Z.of_nat (length row) + -1)) with (length row - 1)%nat by lia.
        clear E. induction row as [|f [|g row] IH]; [done|done|].
        specialize (IH ltac:(done)). simpl in *. by rewrite Nat.sub_0_r in IH.
      - apply Z.leb_gt in E. destruct row; [done|]. simpl length in *. lia. }
    assert (Address.py_index row 0 = Some (hd [] row)) as ->.
    { by destruct row. }
    done.
Qed.

Lemma load_blank_row_aborts_witness :
  let header := [u "zipcode"; u "city"; u "scope"] in
  let rows := [[u "100"; u "臺北市中正區"; u "全"]; []] in
  [] ∈ rows
  /\ Directory.load_chp_csv (header :: rows) None
     = (inl Directory.IndexError, Some Directory.empty_tables)
  /\ rows_of (snd (Directory.load_chp_csv (header :: rows) None)) = rows_of None.
Proof.
  assert ([] ∈ [[u "100"; u "臺北市中正區"; u "全"]; []]) as Hin by (by right; left).
  split; [exact Hin|].
  destruct (load_blank_row_aborts [u "zipcode"; u "city"; u "scope"]
              [[u "100"; u "臺北市中正區"; u "全"]; []] None Hin) as (H1 & _ & H3 & _).
  split; [exact H1 | exact H3].
Defined.

(** C7 fails as stated: a data row of two fields does not abort the load;
    the load commits, and the row is in [precise] under the empty address. *)
Lemma load_short_row_is_stored :
  Directory.load_chp_csv [[u "zipcode"; u "city"; u "scope"]; [u "100"; u "全"]] None
  = (inr (), Some (Directory.Tables [([], u "全", u "100")] ∅)).
Proof. vm_compute. reflexivity. Qed.

(** ** Directory: lookup *)

Lemma first_match_spec addr rows :
  match Directory.first_match rows addr with
  | Some z =>
      exists rows1 rule_str rows2,
        rows = rows1 ++ (rule_str, z) :: rows2
        /\ Rule.matches (Rule.new rule_str) addr = true
        /\ Forall (fun rz => rule_matches addr rz = false) rows1
  | None => Forall (fun rz => rule_matches addr rz = false) rows
  end.
Proof.
  induction rows as [|[rule_str zipcode] rows IH]; simpl; [done|].
  destruct (Rule.matches (Rule.new rule_str) addr) eqn:E.
  - exists [], rule_str, rows. done.
  - destruct (Directory.first_match rows addr) as [z|].
    + destruct IH as (rows1 & r & rows2 & -> & Hm & Hall).
      exists ((rule_str, zipcode) :: rows1), r, rows2.
      split; [done|]. split; [done|]. by constructor.
    + by constructor.
Qed.

(** *** The order of the index *)

Lemma text_ltb_comes_before a : forall b,
  Directory.text_ltb a b = true <-> comes_before a b.
Proof.
  induction a as [|x a IH]; intros [|y b]; cbn [Directory.text_ltb].
  - split; [done|]. inversion 1.
  - split; [constructor|done].
  - split; [done|]. inversion 1.
  - rewrite orb_true_iff, andb_true_iff, N.ltb_lt, N.eqb_eq, IH. split.
    + intros [Hlt|[-> Hab]]; [by apply before_head | by apply before_tail].
    + inversion 1; subst; [by left | by right].
Qed.

Lemma text_ltb_irrefl a : Directory.text_ltb a a = false.
Proof.
  induction a as [|x a IH]; [done|]. cbn [Directory.text_ltb].
  by rewrite N.ltb_irrefl, N.eqb_refl, IH.
Qed.

Lemma text_ltb_trans a : forall b c,
  Directory.text_ltb a b = true -> Directory.text_ltb b c = true ->
  Directory.text_ltb a c = true.
Proof.
  induction a as [|x a IH]; intros [|y b] [|z c]; cbn [Directory.text_ltb];
    try done.
  rewrite !orb_true_iff, !andb_true_iff, !N.ltb_lt, !N.eqb_eq.
  intros [Hxy|[-> Hab]] [Hyz|[-> Hbc]].
  - left. lia.
  - by left.
  - by left.
  - right. split; [done|]. by eapply IH.
Qed.

Lemma text_ltb_total a : forall b,
  Directory.text_ltb a b = false -> Directory.text_ltb b a = false -> a = b.
Proof.
  induction a as [|x a IH]; intros [|y b]; cbn [Directory.text_ltb]; try done.
  rewrite !orb_false_iff, !andb_false_iff, !N.ltb_ge, !N.eqb_neq.
  intros [Hxy Hab] [Hyx Hba].
  assert (x = y) as -> by lia. f_equal.
  apply IH; [by destruct Hab | by destruct Hba].
Qed.

(** [a] is not after [b], [b] is not after [c]: [a] is not after [c]. *)
Lemma text_leb_trans a b c :
  Directory.text_ltb b a = false -> Directory.text_ltb c b = false ->
  Directory.text_ltb c a = false.
Proof.
  intros Hba Hcb. destruct (Directory.text_ltb c a) eqn:Hca; [|done].
  destruct (Directory.text_ltb a b) eqn:Hab.
  - by rewrite (text_ltb_trans c a b) in Hcb.
  - rewrite (text_ltb_total a b Hab Hba) in Hca. congruence.
Qed.

Lemma index_insert_perm row rows : Directory.index_insert row rows ≡ₚ row :: rows.
Proof.
  induction rows as [|row' rows IH]; cbn [Directory.index_insert]; [done|].
  destruct (Directory.text_ltb _ _); [|done].
  rewrite IH. apply Permutation_swap.
Qed.

Lemma index_order_perm rows : Directory.index_order rows ≡ₚ rows.
Proof.
  induction rows as [|row rows IH]; [done|].
  unfold Directory.index_order in *. cbn [foldr].
  by rewrite index_insert_perm, IH.
Qed.

Lemma index_insert_sorted row rows :
  in_index_order rows -> in_index_order (Directory.index_insert row rows).
Proof.
  unfold in_index_order.
  induction 1 as [|row' rows Hs IH Hall]; cbn [Directory.index_insert].
  { by repeat constructor. }
  destruct (Directory.text_ltb (fst row') (fst row)) eqn:Hlt.
  - constructor; [done|].
    rewrite index_insert_perm. constructor; [|done].
    destruct (Directory.text_ltb (fst row) (fst row')) eqn:Hgt; [|done].
    pose proof (text_ltb_trans _ _ _ Hlt Hgt) as Hc.
    by rewrite text_ltb_irrefl in Hc.
  - constructor; [by constructor|]. constructor; [done|].
    eapply Forall_impl; [exact Hall|]. intros row'' H. cbn beta in *.
    by eapply text_leb_trans.
Qed.

Lemma index_order_sorted rows : in_index_order (Directory.index_order rows).
Proof.
  induction rows as [|row rows IH]; [constructor|].
  by apply index_insert_sorted.
Qed.

Lemma in_index_order_later rows1 row rows2 row' :
  in_index_order (rows1 ++ row :: rows2) -> row' ∈ rows2 ->
  Directory.text_ltb (fst row') (fst row) = false.
Proof.
  unfold in_index_order. induction rows1 as [|r rows1 IH]; cbn [app].
  - intros Hs Hin. apply StronglySorted_inv in Hs as [_ Hall].
    rewrite Forall_forall in Hall. by apply Hall.
  - intros Hs. apply StronglySorted_inv in Hs as [Hs _]. by apply IH.
Qed.

(** The rows that the query gets for a key: those of [precise] under the
    key, each once for each time it is there, in the order of the index. *)
Lemma get_rule_str_zipcode_pairs_spec t key :
  exists rows,
    Directory.get_rule_str_zipcode_pairs (Some t) key = inr rows
    /\ in_index_order rows
    /\ forall rule_str z,
         (rule_str, z) ∈ rows <-> (key, rule_str, z) ∈ Directory.precise t.
Proof.
  eexists. split; [reflexivity|]. split; [apply index_order_sorted|].
  intros rule_str z. rewrite index_order_perm, list_elem_of_omap. split.
  - intros ([[k r] z0] & Hin & Hsel). cbn [fst snd] in Hsel.
    destruct (str_eqb k key) eqn:Hk; [|done].
    apply str_eqb_eq in Hk. by injection Hsel as -> ->; subst.
  - intros Hin. exists (key, rule_str, z). split; [done|]. cbn [fst snd].
    by rewrite (proj2 (str_eqb_eq key key)).
Qed.

(** One turn of the loop of [find]: the key is a hit and its zipcode is
    returned, or it is a miss and the loop goes on. *)
Lemma find_loop_step t addr i :
  let key := Address.flat_to addr (S i) in
  (exists z, hit_at t addr key z
             /\ Directory.find_loop (Some t) addr (S i) = inr z)
  \/ (miss_at t addr key
      /\ Directory.find_loop (Some t) addr (S i) = Directory.find_loop (Some t) addr i).
Proof.
  intros key. cbn [Directory.find_loop]. fold key.
  destruct (get_rule_str_zipcode_pairs_spec t key) as (rows & -> & Hsorted & Hrows).
  unfold hit_at, miss_at, precise_hit, precise_miss, gradual_hit.
  cbn [Directory.get_gradual_zipcode mbind Directory.result_bind].
  pose proof (first_match_spec addr rows) as Hf.
  destruct (Directory.first_match rows addr) as [z|].
  - left. exists z. split; [|done]. left.
    destruct Hf as (rows1 & r & rows2 & -> & Hm & Hall).
    exists r. split; [|split; [done|]].
    + apply Hrows, elem_of_app. right. left.
    + intros r' z' Hin Hm' Hbefore.
      apply text_ltb_comes_before in Hbefore.
      apply Hrows, elem_of_app in Hin as [Hin|Hin].
      * rewrite Forall_forall in Hall. apply Hall in Hin.
        unfold rule_matches in Hin. cbn [fst] in Hin. congruence.
      * apply elem_of_cons in Hin as [[= -> ->]|Hin].
        -- by rewrite text_ltb_irrefl in Hbefore.
        -- apply (in_index_order_later _ _ _ _ Hsorted) in Hin.
           cbn [fst] in Hin. congruence.
  - assert (forall rule_str z,
              (key, rule_str, z) ∈ Directory.precise t ->
              Rule.matches (Rule.new rule_str) addr = false) as Hmiss.
    { intros r z Hin. apply Hrows in Hin.
      rewrite Forall_forall in Hf. by apply Hf in Hin. }
    destruct (Directory.gradual t !! key) as [[[|c g]|]|] eqn:Eg.
    + right. split; [|done]. split; [done|]. intros z [[= <-] Hne]. done.
    + left. exists (c :: g). split; [|done]. right. split; [done|]. done.
    + right. split; [|done]. split; [done|]. intros z [[=] _].
    + right. split; [|done]. split; [done|]. intros z [[=] _].
Qed.

Lemma find_loop_spec t addr : forall i,
  exists z,
    Directory.find_loop (Some t) addr i = inr z
    /\ ((exists j, (1 <= j <= i)%nat
                   /\ hit_at t addr (Address.flat_to addr j) z
                   /\ forall j', (j < j' <= i)%nat ->
                                 miss_at t addr (Address.flat_to addr j'))
        \/ (z = []
            /\ forall j, (1 <= j <= i)%nat -> miss_at t addr (Address.flat_to addr j))).
Proof.
  induction i as [|i (z & Hz & IH)].
  - exists []. split; [done|]. right. split; [done|]. intros j Hj. lia.
  - destruct (find_loop_step t addr i) as [(z' & Hhit & ->)|[Hmiss ->]].
    + exists z'. split; [done|]. left. exists (S i).
      split; [lia|]. split; [done|]. intros j' Hj'. lia.
    + exists z. split; [done|].
      destruct IH as [(j & Hj & Hhit & Hlater)|[-> Hall]].
      * left. exists j. split; [lia|]. split; [done|]. intros j' Hj'.
        destruct (decide (j' = S i)) as [->|]; [done|]. apply Hlater. lia.
      * right. split; [done|]. intros j Hj.
        destruct (decide (j = S i)) as [->|]; [done|]. apply Hall. lia.
Qed.

Lemma rows_of_key_agree (l : list (str * str * str)) k z1 z2 :
  NoDup (map fst l) -> (k, z1) ∈ l -> (k, z2) ∈ l -> z1 = z2.
Proof.
  induction l as [|[k0 z0] l IH]; intros Hnd H1 H2.
  { by apply elem_of_nil in H1. }
  cbn [map fst] in Hnd. apply NoDup_cons in Hnd as [Hnotin Hnd].
  assert (forall z, (k0, z) ∈ l -> False) as Hk0.
  { intros z Hz. apply Hnotin. apply list_elem_of_fmap. by exists (k0, z). }
  apply elem_of_cons in H1 as [H1|H1]; apply elem_of_cons in H2 as [H2|H2].
  - congruence.
  - injection H1 as -> ->. by apply Hk0 in H2.
  - injection H2 as -> ->. by apply Hk0 in H1.
  - by apply IH.
Qed.

(** With the primary key, a key has one hit at most. *)
Lemma hit_at_unique t addr key z1 z2 :
  NoDup (map fst (Directory.precise t)) ->
  hit_at t addr key z1 -> hit_at t addr key z2 -> z1 = z2.
Proof.
  intros Hnd [H1|[Hm1 [Hg1 _]]] [H2|[Hm2 [Hg2 _]]].
  - destruct H1 as (r1 & Hin1 & Hmatch1 & Hmin1).
    destruct H2 as (r2 & Hin2 & Hmatch2 & Hmin2).
    assert (r1 = r2) as ->.
    { apply text_ltb_total.
      - destruct (Directory.text_ltb r1 r2) eqn:E; [|done].
        apply text_ltb_comes_before in E. by destruct (Hmin2 r1 z1 Hin1 Hmatch1 E).
      - destruct (Directory.text_ltb r2 r1) eqn:E; [|done].
        apply text_ltb_comes_before in E. by destruct (Hmin1 r2 z2 Hin2 Hmatch2 E). }
    by eapply rows_of_key_agree.
  - destruct H1 as (r1 & Hin1 & Hmatch1 & _). apply Hm2 in Hin1. congruence.
  - destruct H2 as (r2 & Hin2 & Hmatch2 & _). apply Hm1 in Hin2. congruence.
  - congruence.
Qed.

(** C1: on every state of the two indexes and every address text, find
    returns a text and leaves the store as it was.  With A the
    StandardAddress of the text, the text returned is the hit of the longest
    prefix key A.flat(i), 1 <= i <= len(A), that has one, every longer
    prefix key being a miss.  A hit of a key is the zipcode of the first row
    of [precise] under that key whose rule matches A, the rows taken as the
    query gives them, by their rule text in the order of the code points; or,
    when no row of the key matches, the value of [gradual] under the key if
    it is there and not empty.  A key is a miss when neither is there.  When
    no prefix key has a hit, and so when A has no token, the empty text is
    returned.  In a store that keeps the primary key of [precise], a key has
    one hit at most, so this tells the text returned. *)
Theorem find_spec (t : Directory.tables) (addr_str : str) :
  let addr := StandardAddress.new addr_str in
  let key i := Address.flat_to addr i in
  exists z,
    Directory.find addr_str (Some t) = (inr z, Some t)
    /\ ((exists i, (1 <= i <= length addr)%nat
                   /\ hit_at t addr (key i) z
                   /\ forall j, (i < j <= length addr)%nat -> miss_at t addr (key j))
        \/ (z = []
            /\ forall j, (1 <= j <= length addr)%nat -> miss_at t addr (key j)))
    /\ (length addr = 0%nat -> z = [])
    /\ (NoDup (map fst (Directory.precise t)) ->
        forall k z1 z2, hit_at t addr k z1 -> hit_at t addr k z2 -> z1 = z2).
Proof.
  intros addr key.
  destruct (find_loop_spec t addr (length addr)) as (z & Hz & Hspec).
  exists z. split; [|split; [|split]].
  - unfold Directory.find, Directory.within_a_transaction, Directory.find_method.
    fold addr. by rewrite Hz.
  - exact Hspec.
  - intros H0. rewrite H0 in Hz. simpl in Hz. by inversion Hz.
  - intros Hnd k z1 z2. by apply hit_at_unique.
Qed.

(** ** Normalisation: what it never does *)

Lemma mapM_all {A B} (f : A -> option B) (g : A -> B) (l : list A) :
  Forall (fun x => f x = Some (g x)) l -> mapM f l = Some (map g l).
Proof.
  induction 1 as [|x l Hx _ IH]; [done|].
  cbn [mapM]. rewrite Hx. cbn [mbind option_bind]. rewrite IH. done.
Qed.

(** X1: normalize never raises: on every match that the rewrite finds in any
    text, each dictionary lookup and each index of replace succeeds, so the
    checked normalisation returns, and returns what normalize returns. *)
Theorem normalize_never_raises (s : str) :
  normalize_checked s = Some (Address.normalize s).
Proof.
  unfold normalize_checked, Address.normalize, re_sub.
  erewrite (mapM_all _ (fun p => match p with
                                 | Keep c => [c]
                                 | Hit f _ => Address.replace f
                                 end)); [done|].
  apply Forall_forall. intros [c|found groups] Hin; [done|].
  apply scan_hit in Hin as (b & a & st & Hm & _ & ->).
  by apply replace_never_raises.
Qed.

Lemma scan_keep re : forall aft bef skip c,
  Keep c ∈ scan re bef aft skip ->
  exists b a, match_at re b (c :: a) = None.
Proof.
  induction aft as [|c0 aft IH]; intros bef skip c Hin; simpl in Hin.
  - by apply elem_of_nil in Hin.
  - destruct skip as [|n]; [|by eapply IH].
    destruct (match_at re bef (c0 :: aft)) as [st|] eqn:E.
    + apply elem_of_cons in Hin as [[=]|Hin]. by eapply IH.
    + apply elem_of_cons in Hin as [[= ->]|Hin]; [eauto | by eapply IH].
Qed.

Lemma run_Alt_none r1 r2 st k :
  run (Alt r1 r2) st k = None -> run r1 st k = None /\ run r2 st k = None.
Proof. cbn [run]. by destruct (run r1 st k). Qed.

Lemma run_Cls_none p bef c aft :
  run (Cls p) (MState bef (c :: aft) []) Some = None -> p c = false.
Proof. cbn [run after]. by destruct (p c). Qed.

Lemma dict_get_value d k v :
  Address.dict_get d k = Some v -> v ∈ map snd d.
Proof.
  induction d as [|[k0 v0] d IH]; simpl; [done|].
  destruct (str_eqb k k0).
  - intros [= ->]. left.
  - intros H. right. auto.
Qed.

Lemma map_values_clean :
  Forall (fun v => forallb (fun c => negb (is_noise c)) v = true)
         (map snd Address.TO_REPLACE_MAP).
Proof. refine (bool_decide_unpack _ _). vm_compute. exact I. Qed.

Lemma dict_get_clean k v :
  Address.dict_get Address.TO_REPLACE_MAP k = Some v ->
  forallb (fun c => negb (is_noise c)) v = true.
Proof.
  intros H. apply dict_get_value in H.
  pose proof map_values_clean as Hall. rewrite Forall_forall in Hall. by apply Hall.
Qed.

Lemma map_at_clean found i :
  forallb (fun c => negb (is_noise c)) (Address.map_at found i) = true.
Proof.
  unfold Address.map_at. destruct (found !! i) as [c|]; [|done].
  destruct (Address.dict_get Address.TO_REPLACE_MAP [c]) as [v|] eqn:E; [|done].
  by apply dict_get_clean in E.
Qed.

Lemma one_clean : forallb (fun c => negb (is_noise c)) (u "1") = true.
Proof. vm_compute. reflexivity. Qed.

Lemma replace_clean found :
  forallb (fun c => negb (is_noise c)) (Address.replace found) = true.
Proof.
  unfold Address.replace.
  destruct (Address.dict_get Address.TO_REPLACE_MAP found) as [v|] eqn:E.
  - by apply dict_get_clean in E.
  - destruct found as [|c found]; [done|].
    destruct (inb c Address.CHINESE_NUMERALS_SET); [|done].
    destruct (Nat.eqb _ 2).
    + rewrite forallb_app. apply andb_true_iff.
      split; [exact one_clean | apply map_at_clean].
    + destruct (Nat.eqb _ 3); [|done].
      rewrite forallb_app. apply andb_true_iff. split; apply map_at_clean.
Qed.

Lemma kept_not_noise bef c aft :
  match_at Address.TO_REPLACE_RE bef (c :: aft) = None -> is_noise c = false.
Proof.
  unfold match_at, Address.TO_REPLACE_RE. intros H.
  apply run_Alt_none in H as [_ H]. apply run_Alt_none in H as [_ H].
  apply run_Alt_none in H as [H3 H]. apply run_Alt_none in H as [_ H].
  apply run_Alt_none in H as [H5 _].
  apply run_Cls_none in H3, H5. unfold is_noise. by rewrite H3, H5.
Qed.

(** X2: the result of normalize holds none of the characters of the class
    [ 　,，台~-] and no full-width digit: wherever they stand in the text
    they are replaced or deleted, and no replacement brings one in. *)
Theorem normalize_leaves_no_noise (s : str) (c : char) :
  c ∈ Address.normalize s ->
  one_of " 　,，台~-" c = false /\ ((65296 <=? c) && (c <=? 65305)) = false.
Proof.
  intros Hc.
  assert (is_noise c = false) as H; [|by apply orb_false_iff in H].
  unfold Address.normalize, re_sub in Hc.
  apply list_elem_of_In, in_concat in Hc as (piece & Hp & Hc).
  apply list_elem_of_In in Hp, Hc.
  apply list_elem_of_fmap in Hp as ([c0|found groups] & -> & Hin).
  - apply list_elem_of_singleton in Hc as ->.
    apply scan_keep in Hin as (b & a & Hn). by eapply kept_not_noise.
  - pose proof (replace_clean found) as H. rewrite forallb_forall in H.
    apply list_elem_of_In, H in Hc. by apply negb_true_iff in Hc.
Qed.

Lemma normalize_leaves_no_noise_witness :
  33274 ∈ Address.normalize (u "１０，台北市")
  /\ one_of " 　,，台~-" 33274 = false
  /\ ((65296 <=? 33274) && (33274 <=? 65305)) = false.
Proof.
  split; [vm_compute; by do 2 right; left|].
  apply (normalize_leaves_no_noise (u "１０，台北市") 33274).
  vm_compute. by do 2 right; left.
Defined.

Lemma scan_no_match re : forall aft bef,
  Forall (fun c => forall b a, match_at re b (c :: a) = None) aft ->
  scan re bef aft 0 = map Keep aft.
Proof.
  induction aft as [|c aft IH]; intros bef H; [done|].
  inversion H as [|? ? Hc Hrest]; subst. simpl. rewrite Hc. f_equal. by apply IH.
Qed.

Lemma spans_head st v st' c aft :
  spans st v st' -> v <> [] -> after st = c :: aft -> head v = Some c.
Proof.
  intros [Ha _] Hne Hc. destruct v as [|c0 v]; [done|].
  rewrite Hc in Ha. simpl in Ha. by injection Ha as -> _.
Qed.

Lemma u_shi : u "十" = [21313].
Proof. vm_compute. reflexivity. Qed.

Lemma one_of_bei : one_of "北" 21271 = true.
Proof. vm_compute. reflexivity. Qed.

Lemma one_of_shi : one_of "十" 21313 = true.
Proof. vm_compute. reflexivity. Qed.

(** A match of [TO_REPLACE_RE] starts with one of the characters of
    [may_start_match]. *)
Lemma match_start bef c aft st :
  match_at Address.TO_REPLACE_RE bef (c :: aft) = Some st ->
  may_start_match c = true.
Proof.
  intros H. apply run_sound in H as (st' & H & [= ->]).
  set (st0 := MState bef (c :: aft) []) in *.
  assert (forall v st', spans st0 v st' -> v <> [] -> head v = Some c) as Hhead.
  { intros v st' Hsp Hne. by eapply spans_head. }
  unfold may_start_match. unfold Address.TO_REPLACE_RE in H.
  destruct H as [H|[H|[H|[H|[H|H]]]]].
  - destruct H as (st1 & [-> _] & H).
    apply (step_Plus (fun c => c <=? 127)) in H as (v & Hne & Hv & Hsp & _).
    destruct v as [|c0 v]; [done|]. specialize (Hhead _ _ Hsp Hne).
    injection Hhead as ->. inversion Hv as [|? ? Hc _]; subst. by rewrite Hc.
  - apply step_Cls_then in H as (c0 & v & Hc & Hsp).
    specialize (Hhead _ _ Hsp ltac:(done)). injection Hhead as ->.
    rewrite Hc. by rewrite orb_true_r.
  - destruct H as (c0 & aft' & Ha & Hc & ->). injection Ha as -> _.
    rewrite Hc. by rewrite !orb_true_r.
  - destruct H as (st1 & [-> _] & st2 & H & [-> _]).
    apply step_Lit in H as [Hsp _].
    pose proof (Hhead _ _ Hsp ltac:(by vm_compute)) as Hh.
    rewrite u_bei in Hh. injection Hh as <-.
    rewrite one_of_bei. by rewrite !orb_true_r.
  - destruct H as (c0 & aft' & Ha & Hc & ->). injection Ha as -> _.
    rewrite Hc. by rewrite !orb_true_r.
  - destruct H as (st1 & H1 & st2 & H2 & st3 & H3 & [-> _]).
    destruct H3 as (d & aft' & Ha3 & Hd & ->).
    destruct H1 as [(c1 & aft1 & Ha & Hc & ->)| ->].
    + injection Ha as -> _. rewrite Hc. by rewrite !orb_true_r.
    + destruct H2 as [H2| ->].
      * apply step_Lit in H2 as [Hsp _].
        pose proof (Hhead _ _ Hsp ltac:(by vm_compute)) as Hh.
        rewrite u_shi in Hh. injection Hh as <-.
        rewrite one_of_shi. by rewrite !orb_true_r.
      * injection Ha3 as -> _. rewrite Hd. by rewrite !orb_true_r.
Qed.

(** X3: a text that holds none of the characters a rewrite can start with
    (ASCII, 台, 臺, the noise class, 北, full-width digits, the Han numerals
    一 to 十) is left by normalize as it is. *)
Theorem normalize_fixes_plain_text (s : str) :
  forallb (fun c => negb (may_start_match c)) s = true ->
  Address.normalize s = s.
Proof.
  intros H. unfold Address.normalize, re_sub.
  rewrite scan_no_match.
  - clear H. induction s as [|c s IH]; simpl; [done|]. by rewrite IH.
  - rewrite forallb_forall in H. apply Forall_forall. intros c Hc b a.
    apply list_elem_of_In, H, negb_true_iff in Hc.
    destruct (match_at Address.TO_REPLACE_RE b (c :: a)) as [st|] eqn:E; [|done].
    apply match_start in E. congruence.
Qed.

Lemma normalize_fixes_plain_text_witness :
  forallb (fun c => negb (may_start_match c)) (u "中正區忠孝東路") = true
  /\ Address.normalize (u "中正區忠孝東路") = u "中正區忠孝東路".
Proof.
  split; [vm_compute; reflexivity|].
  apply (normalize_fixes_plain_text (u "中正區忠孝東路")). vm_compute; reflexivity.
Defined.

(** ** Normalisation: where a second pass changes nothing *)

(** *** The matcher finds every match *)

Section MatcherComplete.
Context {R : Type}.
Implicit Types (k : str -> str -> option R) (p : char -> bool).

Lemma greedy_complete p v : forall bef a' k,
  Forall (fun c => p c = true) v ->
  k (rev v ++ bef) a' <> None -> greedy p bef (v ++ a') k <> None.
Proof.
  induction v as [|c v IH]; intros bef a' k Hv Hk.
  - cbn [app rev] in *. destruct a' as [|c a']; cbn [greedy]; [done|].
    destruct (p c); [|done]. by destruct (greedy p (c :: bef) a' k).
  - apply Forall_cons in Hv as [Hc Hv]. cbn [app greedy]. rewrite Hc.
    specialize (IH (c :: bef) a' k Hv).
    cbn [rev] in Hk. rewrite <- app_assoc in Hk. specialize (IH Hk).
    match goal with |- context [match ?g with _ => _ end] => destruct g eqn:E end;
      [done | by destruct (IH E)].
Qed.

Lemma lazy_complete p v : forall bef a' k,
  Forall (fun c => p c = true) v ->
  k (rev v ++ bef) a' <> None -> lazy p bef (v ++ a') k <> None.
Proof.
  induction v as [|c v IH]; intros bef a' k Hv Hk.
  - cbn [app rev] in *. destruct a' as [|c a']; cbn [lazy];
      by destruct (k bef _).
  - apply Forall_cons in Hv as [Hc Hv]. cbn [app lazy]. rewrite Hc.
    destruct (k bef (c :: v ++ a')); [done|].
    apply IH; [done|]. cbn [rev] in Hk. by rewrite <- app_assoc in Hk.
Qed.

Lemma exactly_complete p v : forall bef a' k,
  Forall (fun c => p c = true) v ->
  k (rev v ++ bef) a' <> None -> exactly (length v) p bef (v ++ a') k <> None.
Proof.
  induction v as [|c v IH]; intros bef a' k Hv Hk; [done|].
  apply Forall_cons in Hv as [Hc Hv]. cbn [length app exactly]. rewrite Hc.
  apply IH; [done|]. cbn [rev] in Hk. by rewrite <- app_assoc in Hk.
Qed.
End MatcherComplete.

Lemma run_complete r : forall st st' k,
  step r st st' -> k st' <> None -> run r st k <> None.
Proof.
  induction r as [ |p|r1 IH1 r2 IH2|r1 IH1 r2 IH2|r1 IH1|p|n p|g r1 IH1
                 |r1 IH1|r1 IH1|p| | ]; intros st st' k H Hk; cbn [run step] in H |- *.
  - by subst.
  - destruct H as (c & aft' & -> & -> & ->). done.
  - destruct H as (st1 & H1 & H2). eapply IH1; [exact H1|]. by eapply IH2.
  - destruct (run r1 st k) eqn:E; [done|]. destruct H as [H|H].
    + by apply (IH1 _ _ k H) in Hk.
    + by eapply IH2.
  - destruct (run r1 st k) eqn:E; [done|]. destruct H as [H| ->]; [|done].
    by apply (IH1 _ _ k H) in Hk.
  - destruct H as (v & Hl & Hv & Ha & Hb & Hc). rewrite Ha.
    destruct v as [|c v]; [cbn in Hl; lia|].
    apply Forall_cons in Hv as [Hpc Hv]. cbn [app exactly]. rewrite Hpc.
    apply greedy_complete; [done|].
    destruct st' as [b' a' c']. cbn [before after caps] in *. subst.
    cbn [rev] in Hk. by rewrite <- app_assoc in Hk.
  - destruct H as (v & Hl & Hv & Ha & Hb & Hc). rewrite Ha.
    rewrite <- (take_drop n v), <- app_assoc.
    assert (length (take n v) = n) as Hn by (rewrite length_take; lia).
    rewrite <- Hn at 1.
    rewrite <- (take_drop n v) in Hv. apply Forall_app in Hv as [Hv1 Hv2].
    apply exactly_complete; [done|]. apply lazy_complete; [done|].
    destruct st' as [b' a' c']. cbn [before after caps] in *. subst.
    rewrite <- (take_drop n v) in Hk at 1.
    by rewrite rev_app_distr, <- app_assoc in Hk.
  - destruct H as (st1 & H1 & ->). by eapply IH1.
  - destruct H as [-> (x & Hx)].
    destruct (run r1 st Some) eqn:E; [done|].
    by destruct (IH1 st x Some Hx ltac:(done) E).
  - destruct H as [-> H]. by rewrite H.
  - destruct H as [-> H]. destruct (before st) as [|c b]; [done|].
    by rewrite (H c eq_refl).
  - destruct H as [-> H]. by rewrite H.
  - destruct H as [-> [H|H]]; by rewrite H.
Qed.

Lemma step_Lit_intro s : forall st rest,
  after st = s ++ rest ->
  step (Lit s) st (MState (rev s ++ before st) rest (caps st)).
Proof.
  induction s as [|c s IH]; intros st rest Ha.
  - cbn. destruct st. cbn in *. by subst.
  - destruct s as [|c' s].
    + cbn [Lit step]. exists c, rest. split; [done|]. split; [apply N.eqb_refl|done].
    + change (Lit (c :: c' :: s)) with (Seq (Cls (N.eqb c)) (Lit (c' :: s))).
      cbn [step]. exists (MState (c :: before st) (c' :: s ++ rest) (caps st)).
      split.
      * exists c, (c' :: s ++ rest). split; [done|]. split; [apply N.eqb_refl|done].
      * specialize (IH (MState (c :: before st) (c' :: s ++ rest) (caps st)) rest eq_refl).
        cbn [before caps] in IH. cbn [rev] in *. by rewrite <- !app_assoc in *.
Qed.

(** *** A pass of [normalize] on a tidy text *)

Lemma code_tai : u "臺" = [33274].
Proof. vm_compute. reflexivity. Qed.

Lemma code_zhi : u "之" = [20043].
Proof. vm_compute. reflexivity. Qed.

Lemma code_bei_shi : u "北市" = [21271; 24066].
Proof. vm_compute. reflexivity. Qed.

Lemma code_chang : u "場" = [22580].
Proof. vm_compute. reflexivity. Qed.

Lemma code_wan : u "灣" = [28771].
Proof. vm_compute. reflexivity. Qed.

Lemma one_of_single (s : string) (x c : char) :
  u s = [x] -> one_of s c = (c =? x).
Proof. unfold one_of, inb. intros ->. cbn [existsb]. apply orb_false_r. Qed.

Lemma one_of_bei_iff c : one_of "北" c = (c =? 21271).
Proof. apply one_of_single. vm_compute. reflexivity. Qed.

Lemma one_of_shi_iff c : one_of "市" c = (c =? 24066).
Proof. apply one_of_single. vm_compute. reflexivity. Qed.

Lemma one_of_chang_iff c : one_of "場" c = (c =? 22580).
Proof. apply one_of_single. vm_compute. reflexivity. Qed.

Lemma one_of_tai_iff c : one_of "台" c = (c =? 21488).
Proof. apply one_of_single. vm_compute. reflexivity. Qed.

(** A character of a class is a character of a class that holds it. *)
Lemma one_of_sub (s1 s2 : string) (c : char) :
  forallb (one_of s2) (u s1) = true -> one_of s1 c = true -> one_of s2 c = true.
Proof.
  intros Hsub Hc. apply one_of_elem, list_elem_of_In in Hc.
  rewrite forallb_forall in Hsub. by apply Hsub.
Qed.

Lemma full_width_cases (c : char) :
  (65296 <=? c) && (c <=? 65305) = true ->
  c ∈ [65296; 65297; 65298; 65299; 65300; 65301; 65302; 65303; 65304; 65305].
Proof.
  intros H. apply andb_true_iff in H as [H1 H2].
  apply N.leb_le in H1, H2.
  assert (c = 65296 \/ c = 65297 \/ c = 65298 \/ c = 65299 \/ c = 65300
          \/ c = 65301 \/ c = 65302 \/ c = 65303 \/ c = 65304 \/ c = 65305)
    as Hc by lia.
  repeat (destruct Hc as [->|Hc]; [set_solver|]). subst. set_solver.
Qed.

Lemma piece_of_full_width prev rest :
  Forall (fun c => Address.replace [c] = piece_of prev c rest)
         [65296; 65297; 65298; 65299; 65300; 65301; 65302; 65303; 65304; 65305].
Proof. repeat constructor; vm_compute; reflexivity. Qed.

Lemma piece_of_noise prev rest :
  Forall (fun c => untidy c = true \/ Address.replace [c] = piece_of prev c rest)
         (u " 　,，台~-").
Proof.
  assert (u " 　,，台~-" = [32; 12288; 44; 65292; 21488; 126; 45]) as ->
    by (vm_compute; reflexivity).
  repeat constructor; first [left; vm_compute; reflexivity | right; vm_compute; reflexivity].
Qed.

Lemma piece_of_bei prev rest :
  piece_of prev 21271 rest
  = if abbreviated prev 21271 rest then [33274; 21271] else [21271].
Proof.
  unfold piece_of. generalize (abbreviated prev 21271 rest). intros b.
  destruct b; vm_compute; reflexivity.
Qed.

Lemma piece_of_shi prev rest : piece_of prev 24066 rest = [24066].
Proof. vm_compute. reflexivity. Qed.

Lemma replace_bei_shi : Address.replace [21271; 24066] = [33274; 21271; 24066].
Proof. vm_compute. reflexivity. Qed.

Lemma not_ahead_chang (st : mstate) :
  run (Lit (u "場")) st Some = None <->
  match after st with
  | c2 :: _ => negb (one_of "場" c2) = true
  | [] => True
  end.
Proof.
  rewrite code_chang. cbn [Lit run]. destruct (after st) as [|c2 aft']; [done|].
  rewrite one_of_chang_iff, N.eqb_sym. by destruct (c2 =? 22580).
Qed.

Lemma not_behind_iff (bef : str) :
  (forall c0, head bef = Some c0 -> one_of "臺台新竹" c0 = false) <->
  match head bef with
  | Some c0 => negb (one_of "臺台新竹" c0)
  | None => true
  end = true.
Proof.
  destruct (head bef) as [c0|]; [|done]. rewrite negb_true_iff. split.
  - intros H. by apply H.
  - by intros H c [= <-].
Qed.

(** A match at a place of a text without untidy characters: of one
    character that is rewritten, or of 北市. *)
Lemma hit_piece bef c rest st :
  match_at Address.TO_REPLACE_RE bef (c :: rest) = Some st ->
  forallb (fun c => negb (untidy c)) (c :: rest) = true ->
  (bef = [] -> (c <=? 127) = false) ->
  (after st = rest /\ Address.replace [c] = piece_of (head bef) c rest)
  \/ (exists rest', c = 21271 /\ rest = 24066 :: rest' /\ after st = rest'
                    /\ abbreviated (head bef) 21271 rest = true).
Proof.
  intros H Htidy Hfirst. apply run_sound in H as (st' & H & [= ->]).
  assert (forall d, d ∈ c :: rest -> untidy d = false) as Hin.
  { intros d Hd. rewrite forallb_forall in Htidy.
    apply list_elem_of_In, Htidy in Hd. by apply negb_true_iff in Hd. }
  unfold Address.TO_REPLACE_RE in H.
  destruct H as [H|[H|[H|[H|[H|H]]]]].
  - exfalso. destruct H as (st1 & [-> Hbol] & H).
    apply (step_Plus (fun c => c <=? 127)) in H as (v & Hne & Hv & [Hsp _] & _).
    destruct v as [|c0 v]; [done|]. cbn [after app] in Hsp. injection Hsp as <- _.
    apply Forall_cons in Hv as [Hc _]. cbn [before] in Hbol.
    specialize (Hfirst Hbol). congruence.
  - exfalso. destruct H as (st1 & (c0 & aft' & Ha & Hc & ->) & st2 & HLit & _).
    apply step_Lit in HLit as [[Hsp _] _]. cbn [after] in Ha, Hsp.
    injection Ha as <- <-. rewrite code_wan in Hsp.
    assert (untidy 28771 = false) as Hw; [|by vm_compute in Hw].
    apply Hin. right. rewrite Hsp. left.
  - left. destruct H as (c0 & aft' & Ha & Hc & ->). cbn [after] in Ha |- *.
    injection Ha as <- <-. split; [done|].
    pose proof (piece_of_noise (head bef) rest) as Hall. rewrite Forall_forall in Hall.
    destruct (Hall c (one_of_elem _ _ Hc)) as [Hu|Hr]; [|done].
    rewrite (Hin c) in Hu; [done|left].
  - right. destruct H as (st1 & [-> Hnb] & st2 & HLit & [-> Hna]).
    apply step_Lit in HLit as [[Hsp _] _]. cbn [after] in Hsp.
    rewrite code_bei_shi in Hsp. cbn [app] in Hsp. injection Hsp as -> ->.
    exists (after st2). split; [done|]. split; [done|]. split; [done|].
    unfold abbreviated. rewrite one_of_bei_iff, one_of_shi_iff.
    apply not_ahead_chang in Hna. apply not_behind_iff in Hnb. cbn [before] in Hnb.
    apply andb_true_iff. split; [|exact Hnb].
    rewrite !N.eqb_refl. cbn [andb]. by destruct (after st2).
  - left. destruct H as (c0 & aft' & Ha & Hc & ->). cbn [after] in Ha |- *.
    injection Ha as <- <-. split; [done|].
    pose proof (piece_of_full_width (head bef) rest) as Hall. rewrite Forall_forall in Hall.
    by apply Hall, full_width_cases.
  - exfalso. destruct H as (st1 & H1 & st2 & H2 & st3 & H3 & _).
    destruct H3 as (d & aft' & Ha3 & Hd & _).
    apply step_spans in H1 as [v1 [Hs1 _]]. apply step_spans in H2 as [v2 [Hs2 _]].
    assert (untidy d = true) as Hu.
    { apply (one_of_sub "一二三四五六七八九"); [by vm_compute|done]. }
    rewrite Hin in Hu; [done|].
    cbn [after] in Hs1. rewrite Hs1, Hs2, Ha3.
    apply elem_of_app. right. apply elem_of_app. right. left.
Qed.

(** A place of a text where nothing matches: the character stays. *)
Lemma keep_piece bef c rest :
  match_at Address.TO_REPLACE_RE bef (c :: rest) = None ->
  piece_of (head bef) c rest = [c].
Proof.
  intros Hnone. pose proof (kept_not_noise _ _ _ Hnone) as Hn.
  unfold is_noise in Hn. apply orb_false_iff in Hn as [Hn1 Hn2].
  unfold piece_of.
  destruct (one_of "台" c) eqn:H1.
  { rewrite (one_of_sub "台" " 　,，台~-" c) in Hn1; [done|by vm_compute|done]. }
  destruct (one_of "~-" c) eqn:H2.
  { rewrite (one_of_sub "~-" " 　,，台~-" c) in Hn1; [done|by vm_compute|done]. }
  rewrite Hn2.
  destruct (abbreviated (head bef) c rest) eqn:Hab; [exfalso|done].
  unfold abbreviated in Hab.
  apply andb_true_iff in Hab as [Hab Hprev]. apply andb_true_iff in Hab as [Hc Hrest].
  rewrite one_of_bei_iff in Hc. apply N.eqb_eq in Hc as ->.
  destruct rest as [|c1 rest']; [done|].
  apply andb_true_iff in Hrest as [Hc1 Hc2].
  rewrite one_of_shi_iff in Hc1. apply N.eqb_eq in Hc1 as ->.
  revert Hnone. apply (run_complete _ _ (MState (rev (u "北市") ++ bef) rest' [])); [|done].
  unfold Address.TO_REPLACE_RE. cbn [step]. right. right. right. left.
  exists (MState bef (21271 :: 24066 :: rest') []). split.
  { split; [done|]. by apply not_behind_iff. }
  exists (MState (rev (u "北市") ++ bef) rest' []). split.
  { apply (step_Lit_intro (u "北市") (MState bef (21271 :: 24066 :: rest') []) rest').
    by rewrite code_bei_shi. }
  split; [done|]. apply not_ahead_chang. cbn [after]. by destruct rest'.
Qed.

Lemma forallb_cons_true {A} (g : A -> bool) (x : A) (l : list A) :
  forallb g (x :: l) = true -> g x = true /\ forallb g l = true.
Proof. cbn [forallb]. apply andb_true_iff. Qed.

Lemma forallb_single {A} (g : A -> bool) (x : A) :
  g x = true -> forallb g [x] = true.
Proof. intros H. cbn [forallb]. by rewrite H. Qed.

Lemma rewritten_cons prev c s :
  rewritten prev (c :: s) = piece_of prev c s ++ rewritten (Some c) s.
Proof. reflexivity. Qed.

Lemma scan_hit_here re bef c aft st :
  match_at re bef (c :: aft) = Some st ->
  scan re bef (c :: aft) 0
  = Hit (take (length (c :: aft) - length (after st)) (c :: aft)) (caps st)
      :: scan re (c :: bef) aft (length (c :: aft) - length (after st) - 1).
Proof. intros H. cbn [scan]. by rewrite H. Qed.

Lemma scan_keep_here re bef c aft :
  match_at re bef (c :: aft) = None ->
  scan re bef (c :: aft) 0 = Keep c :: scan re (c :: bef) aft 0.
Proof. intros H. cbn [scan]. by rewrite H. Qed.

Lemma scan_skip_here re bef c aft n :
  scan re bef (c :: aft) (S n) = scan re (c :: bef) aft n.
Proof. done. Qed.

Lemma sub_one (m : nat) : (S m - m = 1)%nat.
Proof. lia. Qed.

Lemma sub_two (m : nat) : (S (S m) - m = 2)%nat.
Proof. lia. Qed.

Lemma scan_step_keep (bef : str) (c : N) (rest : str) :
  match_at Address.TO_REPLACE_RE bef (c :: rest) = None ->
  concat (map (fun p => match p with
                        | Keep c => [c]
                        | Hit f _ => Address.replace f
                        end)
              (scan Address.TO_REPLACE_RE bef (c :: rest) 0))
  = piece_of (head bef) c rest
    ++ concat (map (fun p => match p with
                        | Keep c => [c]
                        | Hit f _ => Address.replace f
                        end)
                   (scan Address.TO_REPLACE_RE (c :: bef) rest 0)).
Proof.
  intros E. rewrite (scan_keep_here _ _ _ _ E). cbn [map concat].
  by rewrite (keep_piece _ _ _ E).
Qed.

Lemma scan_step_one (bef : str) (c : N) (rest : str) st :
  match_at Address.TO_REPLACE_RE bef (c :: rest) = Some st ->
  after st = rest -> Address.replace [c] = piece_of (head bef) c rest ->
  concat (map (fun p => match p with
                        | Keep c => [c]
                        | Hit f _ => Address.replace f
                        end)
              (scan Address.TO_REPLACE_RE bef (c :: rest) 0))
  = piece_of (head bef) c rest
    ++ concat (map (fun p => match p with
                        | Keep c => [c]
                        | Hit f _ => Address.replace f
                        end)
                   (scan Address.TO_REPLACE_RE (c :: bef) rest 0)).
Proof.
  intros E Ha Hr. rewrite (scan_hit_here _ _ _ _ _ E).
  rewrite Ha. cbn [length]. rewrite sub_one. cbn [firstn Nat.sub map concat].
  by rewrite take_0, Hr.
Qed.

Lemma scan_step_two (bef : str) (rest' : str) st :
  match_at Address.TO_REPLACE_RE bef (21271 :: 24066 :: rest') = Some st ->
  after st = rest' -> abbreviated (head bef) 21271 (24066 :: rest') = true ->
  concat (map (fun p => match p with
                        | Keep c => [c]
                        | Hit f _ => Address.replace f
                        end)
              (scan Address.TO_REPLACE_RE bef (21271 :: 24066 :: rest') 0))
  = piece_of (head bef) 21271 (24066 :: rest') ++ piece_of (Some 21271) 24066 rest'
    ++ concat (map (fun p => match p with
                        | Keep c => [c]
                        | Hit f _ => Address.replace f
                        end)
                   (scan Address.TO_REPLACE_RE (24066 :: 21271 :: bef) rest' 0)).
Proof.
  intros E Ha Hab. rewrite (scan_hit_here _ _ _ _ _ E).
  rewrite Ha. cbn [length]. rewrite sub_two. cbn [firstn Nat.sub].
  rewrite scan_skip_here. cbn [map concat].
  rewrite take_0, replace_bei_shi, piece_of_bei, Hab.
  by rewrite piece_of_shi.
Qed.

Lemma scan_rewritten n : forall (aft bef : str),
  (length aft <= n)%nat ->
  forallb (fun c => negb (untidy c)) aft = true ->
  (bef = [] -> match aft with c :: _ => (c <=? 127) = false | [] => True end) ->
  concat (map (fun p => match p with
                        | Keep c => [c]
                        | Hit f _ => Address.replace f
                        end)
              (scan Address.TO_REPLACE_RE bef aft 0))
  = rewritten (head bef) aft.
Proof.
  induction n as [|n IH]; intros aft bef Hlen Htidy Hfirst.
  { destruct aft; [reflexivity|]. cbn [length] in Hlen. lia. }
  destruct aft as [|c rest]; [reflexivity|].
  pose proof (forallb_cons_true _ _ _ Htidy) as [_ Hrest].
  cbn [length] in Hlen. apply le_S_n in Hlen.
  destruct (match_at Address.TO_REPLACE_RE bef (c :: rest)) as [st|] eqn:E.
  - destruct (hit_piece _ _ _ _ E Htidy Hfirst)
      as [[Ha Hr] | (rest' & -> & -> & Ha & Hab)].
    + rewrite (scan_step_one _ _ _ _ E Ha Hr).
      rewrite (IH rest (c :: bef) Hlen Hrest); [reflexivity|]. intros [=].
    + rewrite (scan_step_two _ _ _ E Ha Hab).
      pose proof (forallb_cons_true _ _ _ Hrest) as [_ Hrest'].
      cbn [length] in Hlen. apply Nat.lt_le_incl in Hlen.
      rewrite (IH rest' (24066 :: 21271 :: bef) Hlen Hrest'); [reflexivity|]. intros [=].
  - rewrite (scan_step_keep _ _ _ E).
    rewrite (IH rest (c :: bef) Hlen Hrest); [reflexivity|]. intros [=].
Qed.

Lemma normalize_rewritten s : tidy s = true -> Address.normalize s = rewritten None s.
Proof.
  intros H. unfold tidy in H. apply andb_true_iff in H as [Hfirst Htidy].
  unfold Address.normalize, re_sub.
  apply (scan_rewritten (length s) s []); [done|done|].
  intros _. destruct s as [|c s]; [done|].
  apply andb_true_iff in Hfirst as [Hc _]. by apply negb_true_iff in Hc.
Qed.

(** *** What a pass leaves is tidy, and a pass leaves it as it is *)

Lemma code_tilde_minus : u "~-" = [126; 45].
Proof. vm_compute. reflexivity. Qed.

Lemma full_width_pieces prev rest :
  Forall (fun c => exists d, piece_of prev c rest = [d]
                             /\ untidy d = false /\ (forall p r, piece_of p d r = [d])
                             /\ one_of "市" d = false
                             /\ one_of "臺台新竹" c = false)
         [65296; 65297; 65298; 65299; 65300; 65301; 65302; 65303; 65304; 65305].
Proof.
  repeat constructor; eexists; (split; [vm_compute; reflexivity|]);
    (split; [vm_compute; reflexivity|]); (split; [intros; vm_compute; reflexivity|]);
    split; vm_compute; reflexivity.
Qed.

Lemma piece_of_cases prev c rest :
  (c = 21488 /\ piece_of prev c rest = [33274])
  \/ (c ∈ [126; 45] /\ piece_of prev c rest = [20043])
  \/ (c ∈ [65296; 65297; 65298; 65299; 65300; 65301; 65302; 65303; 65304; 65305]
      /\ exists d, piece_of prev c rest = [d])
  \/ (c = 21271 /\ abbreviated prev c rest = true
      /\ piece_of prev c rest = [33274; 21271])
  \/ (one_of "台" c = false /\ one_of "~-" c = false
      /\ (65296 <=? c) && (c <=? 65305) = false
      /\ abbreviated prev c rest = false /\ piece_of prev c rest = [c]).
Proof.
  unfold piece_of.
  destruct (one_of "台" c) eqn:H1.
  { left. rewrite one_of_tai_iff in H1. apply N.eqb_eq in H1. by rewrite code_tai. }
  destruct (one_of "~-" c) eqn:H2.
  { right. left. apply one_of_elem in H2. rewrite code_tilde_minus in H2.
    by rewrite code_zhi. }
  destruct ((65296 <=? c) && (c <=? 65305)) eqn:H3.
  { right. right. left. split; [by apply full_width_cases|]. by eexists. }
  destruct (abbreviated prev c rest) eqn:H4.
  { right. right. right. left.
    assert (c = 21271) as ->.
    { unfold abbreviated in H4. apply andb_true_iff in H4 as [H4 _].
      apply andb_true_iff in H4 as [H4 _]. rewrite one_of_bei_iff in H4.
      by apply N.eqb_eq in H4. }
    by rewrite code_tai. }
  right. right. right. right. done.
Qed.

Lemma piece_of_constant (d : char) :
  d = 33274 \/ d = 20043 \/ d = 24066 \/ d = 22580 ->
  forall p r, piece_of p d r = [d].
Proof. intros [->|[->|[->| ->]]] p r; vm_compute; reflexivity. Qed.

Lemma piece_of_tidy prev c rest :
  untidy c = false ->
  forallb (fun c => negb (untidy c)) (piece_of prev c rest) = true.
Proof.
  intros Hc.
  destruct (piece_of_cases prev c rest)
    as [[_ ->]|[[_ ->]|[[Hfw _]|[(-> & _ & ->)|(_ & _ & _ & _ & ->)]]]].
  - vm_compute. reflexivity.
  - vm_compute. reflexivity.
  - pose proof (full_width_pieces prev rest) as Hall. rewrite Forall_forall in Hall.
    destruct (Hall c Hfw) as (d & -> & Hd & _).
    apply forallb_single. by rewrite Hd.
  - vm_compute. reflexivity.
  - apply forallb_single. by rewrite Hc.
Qed.

Lemma rewritten_untidy s : forall prev,
  forallb (fun c => negb (untidy c)) s = true ->
  forallb (fun c => negb (untidy c)) (rewritten prev s) = true.
Proof.
  induction s as [|c s IH]; intros prev H; [reflexivity|].
  apply forallb_cons_true in H as [Hc Hs].
  rewrite rewritten_cons, forallb_app. apply andb_true_iff. split.
  - apply piece_of_tidy. by apply negb_true_iff in Hc.
  - by apply IH.
Qed.

Lemma rewritten_tidy s : tidy s = true -> tidy (rewritten None s) = true.
Proof.
  unfold tidy. intros H. apply andb_true_iff in H as [Hfirst Hs].
  apply andb_true_iff. split; [|by apply rewritten_untidy].
  destruct s as [|c s]; [reflexivity|]. rewrite rewritten_cons.
  apply andb_true_iff in Hfirst as [Ha Hf].
  apply negb_true_iff in Ha, Hf.
  destruct (piece_of_cases None c s)
    as [[_ ->]|[[Hc _]|[[Hfw _]|[(_ & _ & ->)|(_ & _ & _ & _ & ->)]]]].
  - vm_compute. reflexivity.
  - exfalso. apply elem_of_cons in Hc as [->|Hc]; [by vm_compute in Ha|].
    apply list_elem_of_singleton in Hc as ->. by vm_compute in Ha.
  - exfalso. clear -Hfw Hf.
    repeat (apply elem_of_cons in Hfw as [->|Hfw]; [by vm_compute in Hf|]).
    by apply elem_of_nil in Hfw.
  - vm_compute. reflexivity.
  - cbn [app]. by rewrite Ha, Hf.
Qed.

Lemma abbreviated_behind prev c rest :
  abbreviated prev c rest = true -> behind prev = false.
Proof.
  unfold abbreviated. intros H. apply andb_true_iff in H as [_ H].
  destruct prev as [c0|]; [|done]. by apply negb_true_iff in H.
Qed.

Lemma piece_of_head_shi p a r X c1 R' :
  piece_of p a r ++ X = c1 :: R' -> one_of "市" c1 = true ->
  a = 24066 /\ R' = X.
Proof.
  intros Heq Hc1. rewrite one_of_shi_iff in Hc1. apply N.eqb_eq in Hc1 as ->.
  destruct (piece_of_cases p a r)
    as [[_ Hp]|[[_ Hp]|[[Hfw _]|[(_ & _ & Hp)|(_ & _ & _ & _ & Hp)]]]].
  - rewrite Hp in Heq. by injection Heq.
  - rewrite Hp in Heq. by injection Heq.
  - pose proof (full_width_pieces p r) as Hall. rewrite Forall_forall in Hall.
    destruct (Hall a Hfw) as (d & Hp & _ & _ & Hd & _).
    rewrite Hp in Heq. injection Heq as -> _. by vm_compute in Hd.
  - rewrite Hp in Heq. by injection Heq.
  - rewrite Hp in Heq. by injection Heq as -> ->.
Qed.

Lemma abbreviated_back prev prev' c s' :
  (behind prev' = false -> behind prev = false) ->
  abbreviated prev' c (rewritten (Some c) s') = true ->
  abbreviated prev c s' = true.
Proof.
  intros Hcover Hab. pose proof (abbreviated_behind _ _ _ Hab) as Hb.
  apply Hcover in Hb. unfold abbreviated in *.
  apply andb_true_iff in Hab as [Hab _]. apply andb_true_iff in Hab as [Hc Hrest].
  rewrite Hc. cbn [andb].
  apply andb_true_iff. split; [|by destruct prev; [apply negb_true_iff|]].
  destruct s' as [|a s'']; [done|]. rewrite rewritten_cons in Hrest.
  destruct (piece_of (Some c) a s'' ++ rewritten (Some a) s'') as [|c1 R'] eqn:HR; [done|].
  apply andb_true_iff in Hrest as [Hc1 HR'].
  destruct (piece_of_head_shi _ _ _ _ _ _ HR Hc1) as [-> ->].
  rewrite one_of_shi_iff, N.eqb_refl. cbn [andb].
  destruct s'' as [|b s''']; [done|]. rewrite rewritten_cons in HR'.
  destruct (one_of "場" b) eqn:Hchang; [|done].
  rewrite one_of_chang_iff in Hchang. apply N.eqb_eq in Hchang as ->.
  rewrite (piece_of_constant 22580) in HR' by auto. cbn [app] in HR'.
  by vm_compute in HR'.
Qed.

Lemma rewritten_again s : forall prev prev',
  (behind prev' = false -> behind prev = false) ->
  rewritten prev' (rewritten prev s) = rewritten prev s.
Proof.
  induction s as [|c s IH]; intros prev prev' Hcover; [done|].
  cbn [rewritten].
  destruct (piece_of_cases prev c s)
    as [[-> Hp]|[[Hc Hp]|[[Hfw _]|[(-> & Hab & Hp)|(H1 & H2 & H3 & H4 & Hp)]]]].
  - rewrite Hp. cbn [app rewritten]. rewrite (piece_of_constant 33274) by auto.
    f_equal. apply IH. intros H. by vm_compute in H.
  - rewrite Hp. cbn [app rewritten]. rewrite (piece_of_constant 20043) by auto.
    f_equal. apply IH. intros _.
    apply elem_of_cons in Hc as [->|Hc]; [by vm_compute|].
    apply list_elem_of_singleton in Hc as ->. by vm_compute.
  - pose proof (full_width_pieces prev s) as Hall. rewrite Forall_forall in Hall.
    destruct (Hall c Hfw) as (d & -> & _ & Hd & _ & Hbehind).
    cbn [app rewritten]. rewrite Hd. f_equal. apply IH. by intros _.
  - rewrite Hp. cbn [app rewritten]. rewrite (piece_of_constant 33274) by auto.
    rewrite piece_of_bei.
    assert (abbreviated (Some 33274) 21271 (rewritten (Some 21271) s) = false) as ->.
    { unfold abbreviated. apply andb_false_iff. right. by vm_compute. }
    cbn [app]. do 2 f_equal. by apply IH.
  - rewrite Hp. cbn [app rewritten].
    assert (piece_of prev' c (rewritten (Some c) s) = [c]) as ->.
    { unfold piece_of. rewrite H1, H2, H3.
      destruct (abbreviated prev' c (rewritten (Some c) s)) eqn:Hab; [|done].
      apply (abbreviated_back prev) in Hab; [congruence|done]. }
    cbn [app]. f_equal. by apply IH.
Qed.

(** C3 (amended): normalize is idempotent on the tidy texts: those that do
    not begin with an ASCII character or a full-width digit and hold no
    space, no ideographic space, no comma, ASCII or full-width, no 灣 and
    none of the Han numerals 一 to 九.  On such a text a pass only rewrites in
    place (台 to 臺, ~ and - to 之, a full-width digit to the ASCII digit, 北市
    to 臺北市 where the pattern allows it); what it leaves is a tidy text
    again, in which the pattern finds nothing more, so a second pass leaves
    it as it is. *)
Theorem normalize_idempotent_on_tidy_text (s : str) :
  tidy s = true ->
  Address.normalize (Address.normalize s) = Address.normalize s
  /\ tidy (Address.normalize s) = true.
Proof.
  intros H. rewrite (normalize_rewritten s H).
  pose proof (rewritten_tidy s H) as H'. split; [|done].
  rewrite (normalize_rewritten _ H'). by apply rewritten_again.
Qed.

Lemma normalize_idempotent_witness :
  let s := u "北市大安區和平東路２段１０６~１號，台北市" in
  let s' := u "北市大安區和平東路２段１０６~１號台北市" in
  tidy s = false
  /\ tidy s' = true
  /\ Address.normalize s' = u "臺北市大安區和平東路2段106之1號臺北市"
  /\ Address.normalize (Address.normalize s') = Address.normalize s'.
Proof.
  split; [vm_compute; reflexivity|]. split; [vm_compute; reflexivity|].
  split; [vm_compute; reflexivity|].
  apply (normalize_idempotent_on_tidy_text (u "北市大安區和平東路２段１０６~１號台北市")).
  vm_compute; reflexivity.
Defined.

(** ** Tokens *)

(** X4: every token that the tokenizer yields, and so every token of an
    Address, a StandardAddress and a Rule, has only ASCII digits in [no], has
    an empty [subno] or 之 followed by digits, has an empty [unit] or one
    character of the unit alphabet, and has exactly one of [no] and [name]
    non-empty ([subno] comes with [no] only). *)
Theorem tokens_are_well_formed (text : str) :
  Forall wf_token (Address.tokenize text)
  /\ Forall wf_token (StandardAddress.new text)
  /\ Forall wf_token (Rule.tokens (Rule.new text)).
Proof.
  split; [apply tokenize_well_formed|].
  split; [apply standard_address_well_formed | apply rule_well_formed].
Qed.

(** A scan cuts the text into pieces: put together again, the characters
    kept and the texts matched are the text that was scanned. *)
Lemma scan_pieces re (Hmin : (1 <= min_len re)%nat) : forall aft bef skip,
  (skip <= length aft)%nat ->
  concat (map piece_text (scan re bef aft skip)) = drop skip aft.
Proof.
  induction aft as [|c aft IH]; intros bef skip Hs.
  - simpl in *. by replace skip with 0%nat by lia.
  - cbn [scan]. destruct skip as [|n].
    + destruct (match_at re bef (c :: aft)) as [st|] eqn:E.
      * pose proof (match_at_consumes _ _ _ _ Hmin E) as Hlt.
        apply run_sound in E as (st' & Hst & [= ->]).
        apply step_spans in Hst as [v [Ha _]]. cbn [after] in Ha.
        destruct v as [|c' v].
        { simpl in Ha. rewrite <- Ha in Hlt. lia. }
        injection Ha as <- Ha.
        assert ((length (c :: aft) - length (after st))%nat = S (length v)) as ->.
        { rewrite Ha. cbn [length]. rewrite length_app.
          rewrite <- Nat.add_succ_l. apply Nat.add_sub. }
        cbn [map concat piece_text]. rewrite IH.
        -- replace (S (length v) - 1)%nat with (length v) by lia.
           cbn [take drop app]. f_equal. apply take_drop.
        -- rewrite Ha, length_app. simpl. lia.
      * cbn [map concat piece_text]. rewrite IH by (simpl; lia). done.
    + rewrite IH by (simpl in *; lia). done.
Qed.

Lemma token_head_text st0 st1 :
  step Address.TOKEN_HEAD st0 st1 -> caps st0 = [] ->
  exists v, spans st0 v st1
            /\ get_cap 0 (caps st1) ++ get_cap 1 (caps st1) ++ get_cap 2 (caps st1) = v
            /\ get_cap 3 (caps st1) = [].
Proof.
  unfold Address.TOKEN_HEAD, Address.NO, Address.SUBNO, Address.NAME.
  cbn [step]. intros [Hnum|Hname] H0.
  - destruct Hnum as (s1 & (s0 & Hd & ->) & s2 & Hopt & -> & _).
    apply (step_Plus is_digit) in Hd as (vn & Hne & Hvn & Hsp & Hc).
    rewrite (spans_consumed _ _ _ Hsp) in Hopt. rewrite H0 in Hc.
    destruct Hopt as [(s3 & (s4 & Hzhi & Hd2) & ->)| ->].
    + apply step_Lit in Hzhi as [Hsp1 Hc1].
      apply (step_Plus is_digit) in Hd2 as (vs & Hne2 & Hvs & Hsp2 & Hc2).
      pose proof (spans_trans _ _ _ _ _ Hsp1 Hsp2) as Hsp3.
      rewrite (spans_consumed _ _ _ Hsp3).
      exists (vn ++ u "之" ++ vs). split.
      * apply (spans_trans st0 vn s0); [done|]. exact Hsp3.
      * cbn [caps set_cap]. rewrite Hc2, Hc1. cbn [caps set_cap]. rewrite Hc.
        cbn [get_cap Nat.eqb]. by rewrite app_nil_r.
    + exists vn. split; [exact Hsp|].
      cbn [caps set_cap]. rewrite Hc. cbn [get_cap Nat.eqb]. by rewrite app_nil_r.
  - destruct Hname as (s1 & Hn & ->).
    assert (exists v, spans st0 v s1 /\ caps s1 = []) as (v & Hsp & Hc).
    { destruct Hn as [(c & aft' & Ha & _ & ->)|Hn].
      - exists [c]. by repeat split.
      - destruct Hn as (v & Hl & _ & Ha & Hb & Hc). exists v.
        rewrite Hc. by repeat split. }
    rewrite (spans_consumed _ _ _ Hsp).
    exists v. split; [exact Hsp|]. cbn [caps set_cap]. rewrite Hc. done.
Qed.

Lemma token_tail_text st1 st :
  step Address.TOKEN_TAIL st1 st ->
  (st = st1)
  \/ exists c, spans st1 [c] st /\ caps st = (3%nat, [c]) :: caps st1.
Proof.
  unfold Address.TOKEN_TAIL, Address.UNIT. cbn [step].
  intros [(s1 & (c & aft' & Ha & Hc & ->) & ->)|[-> _]]; [|by left].
  right. exists c.
  assert (spans st1 [c] (MState (c :: before st1) aft' (caps st1))) as Hsp by by split.
  rewrite (spans_consumed _ _ _ Hsp). split; [|done]. exact Hsp.
Qed.

(** The four fields of a token, joined, are the text that the match of
    [TOKEN_RE] covers. *)
Lemma token_text bef aft st :
  match_at Address.TOKEN_RE bef aft = Some st ->
  Address.join_token (Address.token_of_groups (caps st))
  = consumed (MState bef aft []) st.
Proof.
  intros H. apply run_sound in H as (st' & H & [= ->]).
  cbn [step] in H. destruct H as (st1 & Hhead & Htail).
  apply token_head_text in Hhead as (v & Hsp & Hv & Hu); [|done].
  apply token_tail_text in Htail as [-> | (c & Hsp2 & Hc)].
  - rewrite (spans_consumed _ _ _ Hsp).
    unfold Address.join_token, Address.token_of_groups, Address.NO, Address.SUBNO,
      Address.NAME, Address.UNIT. cbn [t_no t_subno t_name t_unit].
    rewrite Hu, app_nil_r. exact Hv.
  - rewrite (spans_consumed _ _ _ (spans_trans _ _ _ _ _ Hsp Hsp2)).
    unfold Address.join_token, Address.token_of_groups, Address.NO, Address.SUBNO,
      Address.NAME, Address.UNIT. cbn [t_no t_subno t_name t_unit].
    rewrite Hc. cbn [get_cap Nat.eqb]. rewrite <- Hv, <- !app_assoc. done.
Qed.

(** X5: the flat() text of the tokens of a text is a subsequence of the
    normalised text, in order: tokenising only drops characters (those that
    no match of TOKEN_RE covers), it never adds, changes or moves one. *)
Theorem flat_is_subsequence_of_normalized (addr_str : str) :
  Address.flat (Address.tokenize addr_str) `sublist_of` Address.normalize addr_str.
Proof.
  unfold Address.flat, Address.tokenize, re_findall.
  set (s := Address.normalize addr_str).
  pose proof (scan_pieces Address.TOKEN_RE ltac:(by vm_compute) s [] 0%nat
                ltac:(lia)) as Hall.
  rewrite drop_0 in Hall. rewrite <- Hall at 2.
  set (pieces := scan Address.TOKEN_RE [] s 0).
  assert (Forall (fun p => match p with
                           | Keep _ => True
                           | Hit found groups =>
                               Address.join_token (Address.token_of_groups groups) = found
                           end) pieces) as Hhits.
  { apply Forall_forall. intros [c|found groups] Hin; [done|].
    apply scan_hit in Hin as (b & a & st & Hm & -> & ->). by apply token_text. }
  clearbody pieces. clear Hall.
  induction Hhits as [|p pieces Hp _ IH]; simpl; [done|].
  destruct p as [c|found groups]; simpl.
  - by apply sublist_cons.
  - rewrite Hp. by apply sublist_app.
Qed.

Lemma int_fold_nonneg (s : str) : forall acc,
  (0 <= acc)%Z -> digits s ->
  (0 <= fold_left (fun acc c => acc * 10 + (Z.of_N c - 48)) s acc)%Z.
Proof.
  induction s as [|c s IH]; intros acc Hacc Hd; simpl; [done|].
  inversion Hd as [|? ? Hc Hs]; subst. apply IH; [|done].
  unfold is_digit in Hc. apply andb_true_iff in Hc as [Hc _].
  apply N.leb_le in Hc. lia.
Qed.

Lemma int_nonneg (s : str) : digits s -> (0 <= Address.int s)%Z.
Proof. intros H. by apply int_fold_nonneg. Qed.

Lemma int_or_0_nonneg (s : str) : digits s -> (0 <= Address.int_or_0 s)%Z.
Proof. destruct s; [done|]. apply int_nonneg. Qed.

Lemma py_index_elem {A} (l : list A) (idx : Z) (x : A) :
  Address.py_index l idx = Some x -> x ∈ l.
Proof.
  unfold Address.py_index.
  destruct (0 <=? idx)%Z; [by apply list_elem_of_lookup_2|].
  destruct (_ <=? idx)%Z; [by apply list_elem_of_lookup_2 | done].
Qed.

Lemma py_index_out_of_range {A} (l : list A) (idx : Z) :
  (Z.of_nat (length l) <= idx \/ idx < - Z.of_nat (length l))%Z ->
  Address.py_index l idx = None.
Proof.
  intros H. unfold Address.py_index.
  destruct (0 <=? idx)%Z eqn:E0.
  - apply Z.leb_le in E0. apply lookup_ge_None. lia.
  - apply Z.leb_gt in E0.
    destruct (- Z.of_nat (length l) <=? idx)%Z eqn:E1; [|done].
    apply Z.leb_le in E1. lia.
Qed.

Lemma u_zhi : u "之" = [20043].
Proof. vm_compute. reflexivity. Qed.

(** X6: parse on the tokens of any text, at any Python index: both numbers
    are non-negative; an index that is out of range on either side gives
    (0, 0); and so does a token that carries a name. *)
Theorem parse_of_tokens (addr_str : str) (idx : Z) :
  let tokens := Address.tokenize addr_str in
  let p := Address.parse tokens idx in
  (0 <= fst p /\ 0 <= snd p)%Z
  /\ ((Z.of_nat (length tokens) <= idx \/ idx < - Z.of_nat (length tokens))%Z ->
      p = (0, 0)%Z)
  /\ (forall t, Address.py_index tokens idx = Some t -> t_name t <> [] ->
                p = (0, 0)%Z).
Proof.
  intros tokens p. unfold p, Address.parse.
  pose proof (tokenize_well_formed addr_str) as Hwf. fold tokens in Hwf.
  rewrite Forall_forall in Hwf.
  split; [|split].
  - destruct (Address.py_index tokens idx) as [t|] eqn:E; [|done].
    apply py_index_elem, Hwf in E. destruct E as [Hno Hsub _ _]. simpl. split.
    + by apply int_or_0_nonneg.
    + apply int_or_0_nonneg.
      destruct Hsub as [-> | (ds & -> & _ & Hds)]; [constructor|].
      rewrite u_zhi. exact Hds.
  - intros H. by rewrite py_index_out_of_range.
  - intros t Ht Hname. rewrite Ht.
    apply py_index_elem, Hwf in Ht. destruct Ht as [_ _ _ Hone].
    destruct Hone as [[_ Hn]|(-> & -> & _)]; [done|]. done.
Qed.

Lemma flat_app (ts1 ts2 : list token) :
  Address.flat (ts1 ++ ts2) = Address.flat ts1 ++ Address.flat ts2.
Proof. unfold Address.flat. by rewrite map_app, concat_app. Qed.

(** X7: the slices of flat() compose: for a <= b <= c, flat(a, b) followed by
    flat(b, c) is flat(a, c); flat(b) is flat(0, b); and the slice over all
    the tokens is flat(). *)
Theorem flat_slices_compose (tokens : list token) (a b c : nat) :
  (a <= b)%nat -> (b <= c)%nat ->
  Address.flat_range tokens a b ++ Address.flat_range tokens b c
    = Address.flat_range tokens a c
  /\ Address.flat_to tokens b = Address.flat_range tokens 0 b
  /\ Address.flat_range tokens 0 (length tokens) = Address.flat tokens.
Proof.
  intros Hab Hbc. unfold Address.flat_range, Address.flat_to. split; [|split].
  - rewrite <- flat_app. f_equal.
    replace (c - a)%nat with ((b - a) + (c - b))%nat by lia.
    rewrite <- take_take_drop. f_equal. rewrite drop_drop.
    by replace (a + (b - a))%nat with b by lia.
  - by rewrite drop_0, Nat.sub_0_r.
  - by rewrite drop_0, Nat.sub_0_r, firstn_all.
Qed.

Lemma flat_slices_compose_witness :
  let tokens := Address.tokenize (u "臺北市中正區忠孝東路1段1號") in
  (1 <= 3)%nat /\ (3 <= 5)%nat
  /\ Address.flat_range tokens 1 3 ++ Address.flat_range tokens 3 5
     = u "中正區忠孝東路1段1號".
Proof.
  split; [lia|]. split; [lia|].
  destruct (flat_slices_compose (Address.tokenize (u "臺北市中正區忠孝東路1段1號"))
              1 3 5 ltac:(lia) ltac:(lia)) as [H _].
  rewrite H. vm_compute. reflexivity.
Defined.

(** ** StandardAddress: the group scan *)

(** X8: the group scan of StandardAddress is idempotent on token sequences:
    run on its own result it selects the same tokens and leaves the result
    as it is. *)
Theorem standardize_is_idempotent (tokens : list token) :
  StandardAddress.standardize (StandardAddress.standardize tokens)
  = StandardAddress.standardize tokens.
Proof. apply standardize_idem. Qed.

Lemma pick_group_none units ts :
  (forall x c, x ∈ ts -> c ∈ units -> t_unit x <> [c]) ->
  pick_group units ts = None.
Proof.
  induction units as [|unit units IH]; intros H; simpl; [done|].
  assert (pick_unit [unit] ts = None) as ->.
  { apply pick_unit_none. intros x Hx. apply H; [done | left]. }
  apply IH. intros x c Hx Hc. apply H; [done | by right].
Qed.

Lemma pick_levels_none groups ts :
  (forall x units c, x ∈ ts -> units ∈ groups -> c ∈ units -> t_unit x <> [c]) ->
  pick_levels groups ts = ts.
Proof.
  induction groups as [|units groups IH]; intros H; simpl; [done|].
  rewrite pick_group_none.
  - apply IH. intros x us c Hx Hus Hc. eapply H; [done | by right | done].
  - intros x c Hx Hc. eapply H; [done | left | done].
Qed.

(** X9: a token sequence in which no token carries one of the level units
    (縣 市 區 鎮 鄉 路 街 里) is left by the group scan as it is. *)
Theorem standardize_without_level_units (tokens : list token) :
  forallb (fun t => negb (is_level_unit (t_unit t))) tokens = true ->
  StandardAddress.standardize tokens = tokens.
Proof.
  intros H. rewrite standardize_pick_levels. apply pick_levels_none.
  intros x units c Hx Hunits Hc Heq.
  rewrite forallb_forall in H. apply list_elem_of_In, H, negb_true_iff in Hx.
  unfold is_level_unit in Hx.
  assert (existsb (fun units => existsb (fun c => str_eqb (t_unit x) [c]) units)
                  StandardAddress.LEVEL_UNITS_LIST = true) as Hex; [|congruence].
  apply existsb_exists. exists units. split; [by apply list_elem_of_In|].
  apply existsb_exists. exists c. split; [by apply list_elem_of_In|].
  by apply str_eqb_eq.
Qed.

Lemma standardize_without_level_units_witness :
  let tokens := Address.tokenize (u "忠孝東5巷3號2樓") in
  forallb (fun t => negb (is_level_unit (t_unit t))) tokens = true
  /\ length tokens = 4%nat
  /\ StandardAddress.standardize tokens = tokens.
Proof.
  split; [vm_compute; reflexivity|]. split; [vm_compute; reflexivity|].
  apply (standardize_without_level_units (Address.tokenize (u "忠孝東5巷3號2樓"))).
  vm_compute; reflexivity.
Defined.

Lemma pick_unit_first unit (pre post : list token) (t : token) :
  Forall (fun x => t_unit x <> unit) pre -> t_unit t = unit ->
  pick_unit unit (pre ++ t :: post) = Some (t, post).
Proof.
  intros Hpre Ht. induction Hpre as [|x pre Hx _ IH]; simpl.
  - by rewrite (proj2 (str_eqb_eq _ _) Ht).
  - by rewrite (proj2 (str_eqb_neq _ _) Hx).
Qed.

Lemma level_units_first :
  exists groups, StandardAddress.LEVEL_UNITS_LIST = (u "縣" ++ u "市") :: groups.
Proof. eexists. vm_compute. reflexivity. Qed.

Lemma u_xian : exists c, u "縣" = [c].
Proof. eexists. vm_compute. reflexivity. Qed.

Lemma u_city : exists c, u "市" = [c].
Proof. eexists. vm_compute. reflexivity. Qed.

(** X10: the county comes first, else the city: when some token carries the
    unit 縣, the first such token is the first token of the result; when none
    does and some token carries 市, the first such token is.  What follows
    it in the result is a subsequence of what followed it in the tokens. *)
Theorem standardize_puts_county_or_city_first (pre post : list token) (t : token) :
  (t_unit t = u "縣" /\ Forall (fun x => t_unit x <> u "縣") pre)
  \/ (t_unit t = u "市" /\ Forall (fun x => t_unit x <> u "縣") (pre ++ t :: post)
      /\ Forall (fun x => t_unit x <> u "市") pre) ->
  exists rest,
    StandardAddress.standardize (pre ++ t :: post) = t :: rest
    /\ rest `sublist_of` post.
Proof.
  intros H. rewrite standardize_pick_levels.
  destruct level_units_first as [groups ->].
  destruct u_xian as [xian Hx]. destruct u_city as [city Hc].
  rewrite Hx, Hc in *. cbn [app pick_levels pick_group].
  exists (pick_levels groups post). split; [|apply pick_levels_sublist].
  destruct H as [[Ht Hpre]|(Ht & Hall & Hpre)].
  - by rewrite (pick_unit_first _ _ _ _ Hpre Ht).
  - assert (pick_unit [xian] (pre ++ t :: post) = None) as ->.
    { apply pick_unit_none. intros x Hin. rewrite Forall_forall in Hall. by apply Hall. }
    by rewrite (pick_unit_first _ _ _ _ Hpre Ht).
Qed.

Lemma standardize_puts_county_or_city_first_witness :
  let tokens := Address.tokenize (u "中正區忠孝東路臺北市5號") in
  let t := Token [] [] (u "臺北") (u "市") in
  tokens = [Token [] [] (u "中正") (u "區"); Token [] [] (u "忠孝東") (u "路")]
             ++ t :: [Token (u "5") [] [] (u "號")]
  /\ exists rest,
       StandardAddress.standardize tokens = t :: rest
       /\ rest `sublist_of` [Token (u "5") [] [] (u "號")].
Proof.
  split; [vm_compute; reflexivity|].
  replace (Address.tokenize (u "中正區忠孝東路臺北市5號"))
    with ([Token [] [] (u "中正") (u "區"); Token [] [] (u "忠孝東") (u "路")]
            ++ Token [] [] (u "臺北") (u "市") :: [Token (u "5") [] [] (u "號")])
    by (vm_compute; reflexivity).
  apply (standardize_puts_county_or_city_first
           [Token [] [] (u "中正") (u "區"); Token [] [] (u "忠孝東") (u "路")]
           [Token (u "5") [] [] (u "號")] (Token [] [] (u "臺北") (u "市"))).
  right. split; [reflexivity|].
  split; (refine (bool_decide_unpack _ _); vm_compute; exact I).
Defined.

Lemma scan_levels_bounds tokens groups : forall std start,
  (start <= length tokens)%nat ->
  let st := fold_left (fun st units => StandardAddress.scan_units units tokens st)
                      groups (std, start) in
  (length st.1 <= length std + length groups)%nat
  /\ (start <= st.2 <= length tokens)%nat
  /\ (length st.1 - length std <= st.2 - start)%nat.
Proof.
  induction groups as [|units groups IH]; intros std start Hs; simpl.
  - lia.
  - pose proof (scan_units_pick tokens std start units) as H.
    destruct (pick_group units (drop start tokens)) as [[t rest]|].
    + destruct H as (i & -> & Hle & Hl & _).
      apply lookup_lt_Some in Hl.
      destruct (IH (std ++ [t]) (S i) ltac:(lia)) as (H1 & H2 & H3).
      rewrite length_app in H1, H3. simpl in *. lia.
    + rewrite H. destruct (IH std start Hs) as (H1 & H2 & H3). lia.
Qed.

(** X11: the group scan selects at most three tokens, one per level group
    at most; its cursor stays within the tokens and has passed at least the
    tokens it selected; and the result is never longer than the tokens. *)
Theorem standardize_selects_at_most_three (tokens : list token) :
  let picked := (StandardAddress.scan_levels tokens).1 in
  let cursor := (StandardAddress.scan_levels tokens).2 in
  (length picked <= 3)%nat
  /\ (length picked <= cursor <= length tokens)%nat
  /\ (length (StandardAddress.standardize tokens) <= length tokens)%nat.
Proof.
  intros picked cursor.
  destruct (scan_levels_bounds tokens StandardAddress.LEVEL_UNITS_LIST [] 0%nat
              ltac:(lia)) as (H1 & H2 & H3).
  fold (StandardAddress.scan_levels tokens) in H1, H2, H3.
  fold picked in H1, H3. fold cursor in H2, H3. simpl in H1, H3.
  split; [lia|]. split; [lia|].
  apply sublist_length, standardize_sublist.
Qed.

(** ** Rule: qualifiers and matching *)

Lemma rule_singles :
  Forall (fun c => [c] ∈ u "連" :: RULE_KEYWORDS) (u "連至單雙全").
Proof. refine (bool_decide_unpack _ _). vm_compute. exact I. Qed.

(** What [RULE_TOKEN_RE] matches is 連 or one of the keywords. *)
Lemma rule_match_found bef aft st :
  match_at Rule.RULE_TOKEN_RE bef aft = Some st ->
  consumed (MState bef aft []) st ∈ u "連" :: RULE_KEYWORDS.
Proof.
  intros H. apply run_sound in H as (st' & H & [= ->]).
  unfold Rule.RULE_TOKEN_RE in H. unfold RULE_KEYWORDS.
  destruct H as [H|[H|[H|[H|[H|[H|[H|H]]]]]]];
    try (apply step_Lit in H as [Hsp _]; rewrite (spans_consumed _ _ _ Hsp)).
  - do 1 right; left.
  - do 2 right; left.
  - do 3 right; left.
  - do 4 right; left.
  - do 5 right; left.
  - do 6 right; left.
  - do 7 right; left.
  - destruct H as (st1 & (c & aft' & Ha & Hc & ->) & [-> _]).
    rewrite (spans_consumed _ [c] _) by by split.
    apply one_of_elem in Hc. pose proof rule_singles as Hs.
    rewrite Forall_forall in Hs. by apply Hs.
Qed.

Lemma u_lian_not_nil : u "連" <> [].
Proof. vm_compute. discriminate. Qed.

Lemma add_token_keywords (acc : gset str) (p : piece) (q : str) :
  (match p with Keep _ => True | Hit found _ => found ∈ u "連" :: RULE_KEYWORDS end) ->
  q ∈ Rule.add_token acc p -> q ∈ acc \/ q ∈ RULE_KEYWORDS.
Proof.
  intros Hp Hq. destruct p as [c|found groups]; [by left|].
  unfold Rule.add_token, Rule.extract in Hq.
  destruct (str_eqb found (u "連")) eqn:E1; [by left|].
  apply str_eqb_neq in E1.
  assert (found ∈ RULE_KEYWORDS) as Hk.
  { apply elem_of_cons in Hp as [?|?]; done. }
  destruct (str_eqb found (u "附號全")); cbn [fst] in Hq;
    (destruct found as [|c0 found]; [by left|];
     apply elem_of_union in Hq as [Hq|Hq]; [|by left];
     apply elem_of_singleton in Hq as ->; by right).
Qed.

Lemma fold_add_token_keywords (pieces : list piece) (q : str) :
  Forall (fun p => match p with
                   | Keep _ => True
                   | Hit found _ => found ∈ u "連" :: RULE_KEYWORDS
                   end) pieces ->
  forall acc, q ∈ fold_left Rule.add_token pieces acc -> q ∈ acc \/ q ∈ RULE_KEYWORDS.
Proof.
  induction 1 as [|p pieces Hp _ IH]; intros acc Hin; simpl in Hin; [by left|].
  destruct (IH _ Hin) as [H|H]; [|by right].
  by eapply add_token_keywords.
Qed.

(** X12: the qualifier set of a rule holds only keywords of the rule
    language: 及以上附號, 含附號以下, 含附號全, 含附號, 以下, 以上, 附號全, 至, 單,
    雙 or 全; 連 is never in it, nor any other text of the rule string. *)
Theorem rule_tokens_are_keywords (rule_str q : str) :
  q ∈ Rule.rule_tokens (Rule.new rule_str) ->
  q ∈ RULE_KEYWORDS /\ q <> u "連".
Proof.
  intros Hq.
  assert (q ∈ RULE_KEYWORDS) as Hk.
  { unfold Rule.new, Rule.part in Hq. cbn [Rule.rule_tokens] in Hq.
    set (pieces := scan Rule.RULE_TOKEN_RE [] (Address.normalize rule_str) 0) in Hq.
    assert (Forall (fun p => match p with
                             | Keep _ => True
                             | Hit found _ => found ∈ u "連" :: RULE_KEYWORDS
                             end) pieces) as Hall.
    { apply Forall_forall. intros [c|found groups] Hin; [done|].
      apply scan_hit in Hin as (b & a & st & Hm & _ & ->). by apply rule_match_found. }
    destruct (fold_add_token_keywords _ q Hall _ Hq) as [H|H]; [|done].
    by apply not_elem_of_empty in H. }
  split; [done|]. intros ->. revert Hk.
  refine (bool_decide_unpack _ _). vm_compute. exact I.
Qed.

Lemma rule_tokens_are_keywords_witness :
  u "至" ∈ Rule.rule_tokens (Rule.new (u "臺北市中正區忠孝東路1段連1號至10號"))
  /\ u "至" ∈ RULE_KEYWORDS /\ u "至" <> u "連".
Proof.
  split; [by apply (bool_decide_unpack _); vm_compute|].
  apply (rule_tokens_are_keywords (u "臺北市中正區忠孝東路1段連1號至10號") (u "至")).
  by apply (bool_decide_unpack _); vm_compute.
Defined.

(** A rewrite whose replacements are each a subsequence of the text they
    replace gives a subsequence of the text. *)
Lemma re_sub_sublist re (Hmin : (1 <= min_len re)%nat) (repl : str -> str) (s : str) :
  (forall found, repl found `sublist_of` found) ->
  re_sub re repl s `sublist_of` s.
Proof.
  intros Hrepl. unfold re_sub.
  pose proof (scan_pieces re Hmin s [] 0%nat ltac:(lia)) as Hall.
  rewrite drop_0 in Hall. rewrite <- Hall at 2. clear Hall.
  induction (scan re [] s 0) as [|p pieces IH]; simpl; [done|].
  apply sublist_app; [|done]. destruct p as [c|found groups]; simpl; [done|].
  apply Hrepl.
Qed.

Lemma hao_in_fuhaoquan : u "號" `sublist_of` u "附號全".
Proof. vm_compute. apply sublist_cons, sublist_skip, sublist_nil_l. Qed.

(** X13: the address text that part leaves of a rule string is a
    subsequence of the normalised rule string: taking the qualifiers out only
    removes characters (the 號 that 附號全 gives back is its own). *)
Theorem rule_residual_is_subsequence (rule_str : str) :
  (Rule.part rule_str).2 `sublist_of` Address.normalize rule_str.
Proof.
  unfold Rule.part. cbn [snd].
  apply re_sub_sublist; [by vm_compute|].
  intros found. unfold Rule.extract.
  destruct (str_eqb found (u "連")); [apply sublist_nil_l|].
  destruct (str_eqb found (u "附號全")) eqn:E; [|apply sublist_nil_l].
  apply str_eqb_eq in E as ->. exact hao_in_fuhaoquan.
Qed.

Lemma matches_unfold (self : Rule.t) (addr : list token) :
  Rule.matches self addr =
  let nonempty := negb (bool_decide (Rule.rule_tokens self = ∅)) in
  let k := my_last_pos self in
  if (Z.of_nat (length addr) <=? k)%Z then false
  else if negb (Rule.tokens_agree (Rule.tokens self) addr (Z.to_nat (k + 1))) then false
  else
    let his := Address.parse addr (k + 1) in
    if nonempty && bool_decide (his = (0, 0)%Z) then false
    else forallb (fun rt => negb (Rule.rejects (Rule.rule_tokens self) his
                                    (Address.parse (Rule.tokens self) (-1))
                                    (Address.parse (Rule.tokens self) (-2)) rt))
                 (elements (Rule.rule_tokens self)).
Proof. reflexivity. Qed.

Lemma forallb_false_elem {A} (f : A -> bool) (l : list A) (x : A) :
  x ∈ l -> f x = false -> forallb f l = false.
Proof.
  intros Hx Hf. destruct (forallb f l) eqn:E; [|done].
  rewrite forallb_forall in E. apply list_elem_of_In, E in Hx. congruence.
Qed.

Lemma rejects_dan S his mine asst :
  Rule.rejects S his mine asst (u "單") = negb (Z.land (fst his) 1 =? 1)%Z.
Proof.
  unfold Rule.rejects.
  repeat match goal with
         | |- context [str_eqb (u "單") ?b] =>
             let v := eval vm_compute in (str_eqb (u "單") b) in
             replace (str_eqb (u "單") b) with v by (vm_compute; reflexivity)
         end.
  cbn [andb orb]. by rewrite !orb_false_r.
Qed.

Lemma rejects_shuang S his mine asst :
  Rule.rejects S his mine asst (u "雙") = negb (Z.land (fst his) 1 =? 0)%Z.
Proof.
  unfold Rule.rejects.
  repeat match goal with
         | |- context [str_eqb (u "雙") ?b] =>
             let v := eval vm_compute in (str_eqb (u "雙") b) in
             replace (str_eqb (u "雙") b) with v by (vm_compute; reflexivity)
         end.
  cbn [andb orb]. by rewrite !orb_false_r.
Qed.

(** X14: a rule whose qualifier set holds both 單 and 雙 matches no address:
    the number after the exact prefix would have to be odd and even. *)
Theorem odd_and_even_rule_never_matches (self : Rule.t) (addr : list token) :
  u "單" ∈ Rule.rule_tokens self -> u "雙" ∈ Rule.rule_tokens self ->
  Rule.matches self addr = false.
Proof.
  intros Hd Hs. rewrite matches_unfold. cbv zeta.
  destruct (_ <=? _)%Z; [done|]. destruct (negb _); [done|].
  destruct (_ && _); [done|].
  set (his := Address.parse addr (my_last_pos self + 1)).
  destruct (Z.land (fst his) 1 =? 1)%Z eqn:E.
  - apply (forallb_false_elem _ _ (u "雙")); [by apply elem_of_elements|].
    rewrite rejects_shuang. apply Z.eqb_eq in E. fold his. by rewrite E.
  - apply (forallb_false_elem _ _ (u "單")); [by apply elem_of_elements|].
    rewrite rejects_dan. fold his. by rewrite E.
Qed.

Lemma odd_and_even_rule_never_matches_witness :
  let self := Rule.new (u "臺北市中正區忠孝東路單1號雙10號以下") in
  u "單" ∈ Rule.rule_tokens self /\ u "雙" ∈ Rule.rule_tokens self
  /\ Rule.matches self (StandardAddress.new (u "臺北市中正區忠孝東路3號")) = false.
Proof.
  split; [by apply (bool_decide_unpack _); vm_compute|].
  split; [by apply (bool_decide_unpack _); vm_compute|].
  apply (odd_and_even_rule_never_matches (Rule.new (u "臺北市中正區忠孝東路單1號雙10號以下"))).
  - by apply (bool_decide_unpack _); vm_compute.
  - by apply (bool_decide_unpack _); vm_compute.
Defined.

Lemma land_1_odd (n : Z) : (Z.land n 1 =? 1)%Z = Z.odd n.
Proof.
  change 1%Z with (Z.ones 1) at 1. rewrite Z.land_ones by lia.
  change (2 ^ 1)%Z with 2%Z. rewrite Zmod_odd. by destruct (Z.odd n).
Qed.

Lemma land_1_even (n : Z) : (Z.land n 1 =? 0)%Z = Z.even n.
Proof.
  change 1%Z with (Z.ones 1) at 1. rewrite Z.land_ones by lia.
  change (2 ^ 1)%Z with 2%Z. rewrite Zmod_even. by destruct (Z.even n).
Qed.

(** X15: what a match implies, whatever the qualifiers: the address has a
    token at my_last_pos; the rule's tokens up to there are the address's;
    with a qualifier present the number pair after that prefix is not (0, 0);
    with 單 its number is odd, with 雙 it is even. *)
Theorem match_implies (self : Rule.t) (addr : list token) :
  Rule.matches self addr = true ->
  let k := my_last_pos self in
  let his := Address.parse addr (k + 1) in
  (k < Z.of_nat (length addr))%Z
  /\ take (Z.to_nat (k + 1)) (Rule.tokens self) = take (Z.to_nat (k + 1)) addr
  /\ (Rule.rule_tokens self <> ∅ -> his <> (0, 0)%Z)
  /\ (u "單" ∈ Rule.rule_tokens self -> Z.odd (fst his) = true)
  /\ (u "雙" ∈ Rule.rule_tokens self -> Z.even (fst his) = true).
Proof.
  rewrite matches_unfold. cbv zeta. intros H.
  destruct (_ <=? _)%Z eqn:E1; [done|]. apply Z.leb_gt in E1.
  destruct (Rule.tokens_agree _ _ _) eqn:E2; [|done]. cbn [negb] in H.
  apply tokens_agree_take in E2.
  destruct (_ && _) eqn:E3; [done|].
  split; [done|]. split; [done|]. split; [|split].
  - intros Hne Hz. apply andb_false_iff in E3 as [E3|E3].
    + apply negb_false_iff, bool_decide_eq_true in E3. done.
    + by apply bool_decide_eq_false in E3.
  - intros Hd. rewrite forallb_forall in H.
    specialize (H (u "單")). rewrite rejects_dan, land_1_odd, negb_involutive in H.
    apply H, list_elem_of_In. by apply elem_of_elements.
  - intros Hs. rewrite forallb_forall in H.
    specialize (H (u "雙")). rewrite rejects_shuang, land_1_even, negb_involutive in H.
    apply H, list_elem_of_In. by apply elem_of_elements.
Qed.

Lemma match_implies_witness :
  let self := Rule.new (u "臺北市中正區忠孝東路單全") in
  let addr := StandardAddress.new (u "臺北市中正區忠孝東路3號2樓") in
  Rule.matches self addr = true
  /\ my_last_pos self = 2%Z
  /\ Z.odd (fst (Address.parse addr (my_last_pos self + 1))) = true.
Proof.
  split; [vm_compute; reflexivity|]. split; [vm_compute; reflexivity|].
  apply (match_implies (Rule.new (u "臺北市中正區忠孝東路單全"))
           (StandardAddress.new (u "臺北市中正區忠孝東路3號2樓"))).
  - vm_compute; reflexivity.
  - by apply (bool_decide_unpack _); vm_compute.
Defined.

Lemma tokens_agree_app (mine his extra : list token) (n : nat) :
  (n <= length his)%nat ->
  Rule.tokens_agree mine (his ++ extra) n = Rule.tokens_agree mine his n.
Proof.
  induction n as [|n IH]; intros Hn; simpl; [done|].
  rewrite IH by lia. by rewrite lookup_app_l by lia.
Qed.

Lemma parse_app (addr extra : list token) (idx : Z) :
  (0 <= idx < Z.of_nat (length addr))%Z ->
  Address.parse (addr ++ extra) idx = Address.parse addr idx.
Proof.
  intros H. unfold Address.parse, Address.py_index.
  destruct (0 <=? idx)%Z eqn:E; [|apply Z.leb_gt in E; lia].
  by rewrite lookup_app_l by lia.
Qed.

(** X16: tokens of the address after the one that follows the exact prefix
    play no part in a match: when the address has a token at index
    my_last_pos + 1, appending tokens to the address does not change the
    outcome. *)
Theorem match_ignores_trailing_tokens (self : Rule.t) (addr extra : list token) :
  (0 <= my_last_pos self + 1 < Z.of_nat (length addr))%Z ->
  Rule.matches self (addr ++ extra) = Rule.matches self addr.
Proof.
  intros H. rewrite !matches_unfold. cbv zeta.
  rewrite parse_app by done. rewrite tokens_agree_app by lia.
  rewrite length_app.
  destruct (Z.of_nat (length addr) <=? my_last_pos self)%Z eqn:E1.
  { apply Z.leb_le in E1. lia. }
  destruct (Z.of_nat (length addr + length extra) <=? my_last_pos self)%Z eqn:E2.
  { apply Z.leb_le in E2. lia. }
  done.
Qed.

Lemma match_ignores_trailing_tokens_witness :
  let self := Rule.new (u "臺北市中正區忠孝東路1號至10號") in
  let addr := StandardAddress.new (u "臺北市中正區忠孝東路5號") in
  let extra := Address.tokenize (u "之2樓") in
  (0 <= my_last_pos self + 1 < Z.of_nat (length addr))%Z
  /\ Rule.matches self (addr ++ extra) = true.
Proof.
  split; [vm_compute; split; [discriminate | reflexivity]|].
  rewrite (match_ignores_trailing_tokens
             (Rule.new (u "臺北市中正區忠孝東路1號至10號"))
             (StandardAddress.new (u "臺北市中正區忠孝東路5號"))
             (Address.tokenize (u "之2樓"))).
  - vm_compute; reflexivity.
  - vm_compute; split; [discriminate | reflexivity].
Defined.

(** ** Directory: what put, load and find do together *)

Lemma common_prefix_prefix_l a : forall b, common_prefix a b `prefix_of` a.
Proof.
  induction a as [|x a IH]; intros [|y b]; simpl; try apply prefix_nil.
  destruct (x =? y); [|apply prefix_nil]. by apply prefix_cons.
Qed.

Lemma common_prefix_prefix_r a : forall b, common_prefix a b `prefix_of` b.
Proof.
  induction a as [|x a IH]; intros [|y b]; simpl; try apply prefix_nil.
  destruct (x =? y) eqn:E; [|apply prefix_nil].
  apply N.eqb_eq in E as ->. by apply prefix_cons.
Qed.

Lemma common_prefix_greatest a : forall b p,
  p `prefix_of` a -> p `prefix_of` b -> p `prefix_of` common_prefix a b.
Proof.
  induction a as [|x a IH]; intros [|y b] p Ha Hb; simpl; try done.
  destruct p as [|z p]; [apply prefix_nil|].
  apply prefix_cons_inv_1 in Ha as Hx. apply prefix_cons_inv_1 in Hb as Hy.
  apply prefix_cons_inv_2 in Ha. apply prefix_cons_inv_2 in Hb.
  subst. rewrite N.eqb_refl. apply prefix_cons. by apply IH.
Qed.

Lemma common_prefix_same a : common_prefix a a = a.
Proof. induction a as [|x a IH]; simpl; [done|]. by rewrite N.eqb_refl, IH. Qed.

Lemma get_common_part_same a :
  Directory.get_common_part (Some a) (Some a) = Some a.
Proof.
  destruct a as [|x a]; [done|].
  rewrite get_common_part_lcp by by left. by rewrite common_prefix_same.
Qed.

(** X17: get_common_part of a stored text and a new text that is not empty
    is their longest common prefix: a prefix of both that every common
    prefix is a prefix of.  Whatever the texts, the result is a prefix of the
    stored text, and two equal texts give that text. *)
Theorem get_common_part_is_longest_common_prefix (str_a str_b : str) :
  (exists r, Directory.get_common_part (Some str_a) (Some str_b) = Some r
             /\ r `prefix_of` str_a
             /\ (str_b <> [] ->
                 r `prefix_of` str_b
                 /\ forall p, p `prefix_of` str_a -> p `prefix_of` str_b ->
                              p `prefix_of` r))
  /\ Directory.get_common_part (Some str_a) (Some str_a) = Some str_a.
Proof.
  split; [|apply get_common_part_same].
  destruct (get_common_part_is_prefix str_a str_b) as [i Hi].
  exists (take i str_a). split; [done|]. split; [apply prefix_take|].
  intros Hne. rewrite get_common_part_lcp in Hi by by left.
  injection Hi as <-. split; [apply common_prefix_prefix_r|].
  apply common_prefix_greatest.
Qed.

(** X18: with zipcodes that are not empty, the value under a key that was
    free, after put_gradual(k, z1), ..., put_gradual(k, zn), is the
    longest common prefix of z1 ... zn; the other keys of gradual and the
    rows of precise are as they were. *)
Theorem put_gradual_sequence (t : Directory.tables) (k z1 : str) (zs : list str) :
  Directory.gradual t !! k = None ->
  Forall (fun z => z <> []) zs ->
  let t' := fold_left (fun t z => Directory.put_gradual k z t) zs
                      (Directory.put_gradual k z1 t) in
  Directory.gradual t' !! k = Some (Some (longest_common_prefix z1 zs))
  /\ (forall k', k' <> k -> Directory.gradual t' !! k' = Directory.gradual t !! k')
  /\ Directory.precise t' = Directory.precise t.
Proof.
  intros Hfree Hne t'. split; [by apply put_gradual_lcp_nonempty|].
  unfold t'. clear.
  assert (forall t1 : Directory.tables,
            (forall k', k' <> k ->
               Directory.gradual (fold_left (fun t z => Directory.put_gradual k z t) zs t1) !! k'
               = Directory.gradual t1 !! k')
            /\ Directory.precise (fold_left (fun t z => Directory.put_gradual k z t) zs t1)
               = Directory.precise t1) as Hfold.
  { induction zs as [|z zs IH]; intros t1; simpl; [done|].
    destruct (IH (Directory.put_gradual k z t1)) as [IH1 IH2]. split.
    - intros k' Hk. rewrite IH1 by done. unfold Directory.put_gradual. simpl.
      by rewrite lookup_insert_ne.
    - by rewrite IH2. }
  destruct (Hfold (Directory.put_gradual k z1 t)) as [H1 H2].
  split.
  - intros k' Hk. rewrite H1 by done. unfold Directory.put_gradual. simpl.
    by rewrite lookup_insert_ne.
  - by rewrite H2.
Qed.

Lemma put_gradual_sequence_witness :
  let t := Directory.empty_tables in
  let k := u "臺北市" in
  let zs := [u "106"; u "104"] in
  Directory.gradual t !! k = None
  /\ longest_common_prefix (u "100") zs = u "10"
  /\ Directory.gradual
       (fold_left (fun t z => Directory.put_gradual k z t) zs
                  (Directory.put_gradual k (u "100") t)) !! k
     = Some (Some (longest_common_prefix (u "100") zs)).
Proof.
  split; [reflexivity|]. split; [vm_compute; reflexivity|].
  apply (put_gradual_sequence Directory.empty_tables (u "臺北市") (u "100")
           [u "106"; u "104"]).
  - reflexivity.
  - repeat constructor; vm_compute; discriminate.
Defined.

(** *** What [put] writes *)

Lemma fold_left_flat_map {A B C} (f : A -> C -> A) (g : B -> list C) (l : list B) :
  forall a, fold_left f (flat_map g l) a = fold_left (fun a x => fold_left f (g x) a) l a.
Proof.
  induction l as [|x l IH]; intros a; simpl; [done|].
  by rewrite fold_left_app, IH.
Qed.

Lemma fold_left_map {A B C} (f : A -> C -> A) (g : B -> C) (l : list B) :
  forall a, fold_left f (map g l) a = fold_left (fun a x => f a (g x)) l a.
Proof. induction l as [|x l IH]; intros a; simpl; [done|]. by rewrite IH. Qed.

Lemma fold_left_pointwise {A B} (f g : A -> B -> A) (l : list B) :
  (forall a x, f a x = g a x) -> forall a, fold_left f l a = fold_left g l a.
Proof.
  intros Hfg. induction l as [|x l IH]; intros a; simpl; [done|].
  by rewrite Hfg, IH.
Qed.

Lemma put_as_fold h r z t :
  Directory.put h r z t
  = fold_left (fun t k => Directory.put_gradual k z t) (gradual_keys h)
      (Directory.put_precise (Address.flat (Address.tokenize h)) (h ++ r) z t).
Proof.
  unfold Directory.put, gradual_keys.
  rewrite fold_left_app, fold_left_flat_map.
  set (inner := fold_left _ (seq 0 _) _).
  set (inner' := fold_left _ (seq 0 _) _).
  assert (inner = inner') as ->.
  { unfold inner, inner'. apply fold_left_pointwise.
    intros a f. by rewrite fold_left_map. }
  by destruct (3 <=? _)%nat.
Qed.

(** One put_gradual, as a function of the row of the key. *)
Lemma get_common_part_again (v : option str) (z : str) :
  Directory.get_common_part (Directory.get_common_part v (Some z)) (Some z)
  = Directory.get_common_part v (Some z).
Proof.
  destruct v as [a|]; [|apply get_common_part_same].
  destruct z as [|c z].
  - destruct a as [|x a]; [done|]. destruct a; done.
  - rewrite get_common_part_lcp by by left.
    rewrite get_common_part_lcp by by left.
    f_equal. apply (anti_symm prefix); [apply common_prefix_prefix_l|].
    apply common_prefix_greatest; [done|apply common_prefix_prefix_r].
Qed.

Lemma put_gradual_other k k' z t :
  k' <> k ->
  Directory.gradual (Directory.put_gradual k z t) !! k' = Directory.gradual t !! k'.
Proof. intros Hk. unfold Directory.put_gradual. simpl. by rewrite lookup_insert_ne. Qed.

Lemma put_gradual_again k z t :
  Directory.gradual (Directory.put_gradual k z (Directory.put_gradual k z t)) !! k
  = Directory.gradual (Directory.put_gradual k z t) !! k.
Proof.
  rewrite (put_gradual_lookup k z (Directory.put_gradual k z t)).
  rewrite put_gradual_lookup. by rewrite get_common_part_again.
Qed.

Lemma fold_put_gradual_keys z k (keys : list str) : forall t,
  Directory.gradual (fold_left (fun t k => Directory.put_gradual k z t) keys t) !! k
  = if bool_decide (k ∈ keys)
    then Directory.gradual
           (Directory.put_gradual k z t) !! k
    else Directory.gradual t !! k.
Proof.
  induction keys as [|k0 keys IH]; intros t; cbn [fold_left].
  { case_bool_decide as H; [|done]. by apply elem_of_nil in H. }
  rewrite IH. destruct (decide (k0 = k)) as [->|Hne].
  - rewrite put_gradual_again.
    case_bool_decide as H1; case_bool_decide as H2; try done.
    all: exfalso; apply H2; left.
  - rewrite (put_gradual_other k0 k) by done.
    case_bool_decide as H1; case_bool_decide as H2; try done.
    + rewrite !put_gradual_lookup. by rewrite put_gradual_other.
    + exfalso. apply H2. by right.
    + exfalso. apply H1. apply elem_of_cons in H2 as [->|H2]; done.
Qed.

Lemma put_precise_gradual a b z t :
  Directory.gradual (Directory.put_precise a b z t) = Directory.gradual t.
Proof. unfold Directory.put_precise. by destruct (existsb _ _). Qed.

Lemma put_gradual_lookup_precise a b z' k z t :
  Directory.gradual (Directory.put_gradual k z (Directory.put_precise a b z' t)) !! k
  = Directory.gradual (Directory.put_gradual k z t) !! k.
Proof. rewrite !put_gradual_lookup. by rewrite put_precise_gradual. Qed.

Lemma put_gradual_of_put h r z k t :
  Directory.gradual (Directory.put h r z t) !! k
  = if bool_decide (k ∈ gradual_keys h)
    then Directory.gradual (Directory.put_gradual k z t) !! k
    else Directory.gradual t !! k.
Proof.
  rewrite put_as_fold, fold_put_gradual_keys.
  rewrite put_gradual_lookup_precise. by rewrite put_precise_gradual.
Qed.

Lemma elem_of_gradual_keys h k :
  k ∈ gradual_keys h <->
  let addr := Address.tokenize h in
  (exists f e, (f < e <= length addr)%nat /\ k = Address.flat_range addr f e)
  \/ ((3 <= length addr)%nat /\ k = Address.pick_to_flat addr [0; 2]%Z).
Proof.
  unfold gradual_keys. cbn zeta. rewrite elem_of_app.
  rewrite list_elem_of_In, in_flat_map.
  split.
  - intros [(f & Hf & Hk)|Hk].
    + apply in_map_iff in Hk as (l & <- & Hl).
      apply in_seq in Hf. apply in_seq in Hl.
      left. exists f, (l + 1)%nat. split; [lia|done].
    + right. destruct (Nat.leb_spec 3 (length (Address.tokenize h))) as [Hle|Hlt].
      * apply list_elem_of_singleton in Hk. done.
      * by apply elem_of_nil in Hk.
  - intros [(f & e & Hfe & ->)|[Hle ->]].
    + left. exists f. split; [apply in_seq; lia|].
      apply in_map_iff. exists (e - 1)%nat. split.
      * f_equal. lia.
      * apply in_seq. lia.
    + right. apply Nat.leb_le in Hle. rewrite Hle. by apply list_elem_of_singleton.
Qed.

(** X19: the keys of gradual that put writes are the texts of the
    contiguous runs of the tokens of the head and, with three tokens or
    more, of tokens 0 and 2; under each of them it leaves what one
    put_gradual would, however many times its loops come to the same key, and
    the rows of the other keys stay as they are. *)
Theorem put_writes_each_key_once (head_addr_str tail_rule_str zipcode k : str)
        (t : Directory.tables) :
  let addr := Address.tokenize head_addr_str in
  let written :=
    (exists f e, (f < e <= length addr)%nat /\ k = Address.flat_range addr f e)
    \/ ((3 <= length addr)%nat /\ k = Address.pick_to_flat addr [0; 2]%Z) in
  let t' := Directory.put head_addr_str tail_rule_str zipcode t in
  (written ->
   Directory.gradual t' !! k = Directory.gradual (Directory.put_gradual k zipcode t) !! k)
  /\ (~ written -> Directory.gradual t' !! k = Directory.gradual t !! k).
Proof.
  intros addr written t'. unfold t'. rewrite put_gradual_of_put.
  pose proof (elem_of_gradual_keys head_addr_str k) as Hkeys.
  case_bool_decide as Hk; split; intros Hw; try done.
  - exfalso. apply Hw. by apply Hkeys.
  - exfalso. apply Hk. by apply Hkeys.
Qed.

(** *** The two indexes after a sequence of [put]s *)

Lemma put_all_cons row rows t :
  put_all (row :: rows) t = put_all rows (Directory.put row.1.1 row.1.2 row.2 t).
Proof. done. Qed.



Lemma put_all_gradual k rows : forall t,
  Directory.gradual (put_all rows t) !! k
  = fold_left again (zipcodes_under k rows) (Directory.gradual t !! k).
Proof.
  induction rows as [|row rows IH]; intros t; [done|].
  rewrite put_all_cons, IH, put_gradual_of_put.
  unfold zipcodes_under. cbn [List.filter].
  case_bool_decide as Hk; [|done].
  cbn [map fold_left]. by rewrite put_gradual_lookup.
Qed.

Lemma fold_again_lcp zs : forall a,
  Forall (fun z => z <> []) zs ->
  fold_left again zs (Some (Some a)) = Some (Some (fold_left common_prefix zs a)).
Proof.
  induction zs as [|z zs IH]; intros a Hne; [done|].
  apply Forall_cons in Hne as [Hz Hne]. cbn [fold_left].
  unfold again at 2. rewrite get_common_part_lcp by by left. by apply IH.
Qed.

Lemma zipcodes_under_nonempty k rows :
  Forall (fun row => row.2 <> []) rows ->
  Forall (fun z => z <> []) (zipcodes_under k rows).
Proof.
  intros Hne. unfold zipcodes_under. apply Forall_forall. intros z Hz.
  apply list_elem_of_In, in_map_iff in Hz as (row & <- & Hrow).
  apply filter_In in Hrow as [Hrow _].
  rewrite Forall_forall in Hne. apply Hne. by apply list_elem_of_In.
Qed.

(** X20: in a directory built by put from rows whose zipcodes are not
    empty, the value of gradual under a key is the longest common prefix
    of the zipcodes of the rows that write under that key, and a key under
    which no row writes has no row in gradual. *)
Theorem gradual_is_longest_common_prefix (rows : list (str * str * str)) (k : str) :
  Forall (fun row => row.2 <> []) rows ->
  Directory.gradual (put_all rows Directory.empty_tables) !! k
  = match zipcodes_under k rows with
    | [] => None
    | z1 :: zs => Some (Some (longest_common_prefix z1 zs))
    end.
Proof.
  intros Hne. rewrite put_all_gradual.
  pose proof (zipcodes_under_nonempty k rows Hne) as Hzs.
  destruct (zipcodes_under k rows) as [|z1 zs]; [done|].
  apply Forall_cons in Hzs as [_ Hzs]. cbn [fold_left].
  change (again (Directory.gradual Directory.empty_tables !! k) z1) with (Some (Some z1)).
  by apply fold_again_lcp.
Qed.

Lemma Forall_nonempty_decide (rows : list (str * str * str)) :
  forallb (fun row => negb (str_eqb row.2 [])) rows = true ->
  Forall (fun row => row.2 <> []) rows.
Proof.
  intros H. apply Forall_forall. intros row Hrow Hz.
  rewrite forallb_forall in H. apply list_elem_of_In, H in Hrow.
  rewrite Hz in Hrow. done.
Qed.

Lemma gradual_is_longest_common_prefix_witness :
  let rows := [(u "臺北市中正區", u "全", u "100"); (u "臺北市大安區", u "全", u "106");
               (u "基隆市仁愛區", u "全", u "200")] in
  let k := u "臺北市" in
  Forall (fun row => row.2 <> []) rows
  /\ zipcodes_under k rows = [u "100"; u "106"]
  /\ longest_common_prefix (u "100") [u "106"] = u "10"
  /\ Directory.gradual (put_all rows Directory.empty_tables) !! k
     = match zipcodes_under k rows with
       | [] => None
       | z1 :: zs => Some (Some (longest_common_prefix z1 zs))
       end.
Proof.
  split; [apply Forall_nonempty_decide; vm_compute; reflexivity|].
  split; [vm_compute; reflexivity|]. split; [vm_compute; reflexivity|].
  apply (gradual_is_longest_common_prefix
           [(u "臺北市中正區", u "全", u "100"); (u "臺北市大安區", u "全", u "106");
            (u "基隆市仁愛區", u "全", u "200")] (u "臺北市")).
  apply Forall_nonempty_decide; vm_compute; reflexivity.
Defined.

(** *** [precise] after a sequence of [put]s *)

Lemma find_snoc {A} (p : A -> bool) (l : list A) (x : A) :
  List.find p (l ++ [x])
  = match List.find p l with
    | Some y => Some y
    | None => if p x then Some x else None
    end.
Proof.
  induction l as [|y l IH]; simpl; [done|]. by destruct (p y).
Qed.

Lemma has_key_true k r (row : str * str * str) :
  Directory.has_key k r row = true <-> row.1 = (k, r).
Proof.
  destruct row as [[a b] z]. unfold Directory.has_key. cbn [fst snd].
  rewrite andb_true_iff, !str_eqb_eq. split; [by intros [-> ->]|].
  by intros [= -> ->].
Qed.

Lemma precise_lookup_put_precise a b z t k r :
  precise_lookup (Directory.put_precise a b z t) k r
  = match precise_lookup t k r with
    | Some z0 => Some z0
    | None => if bool_decide ((a, b) = (k, r)) then Some z else None
    end.
Proof.
  unfold precise_lookup, Directory.put_precise.
  destruct (existsb _ _) eqn:Hex.
  - destruct (List.find _ _) as [row|] eqn:Hfind; [done|]. cbn [fmap option_fmap option_map].
    case_bool_decide as Hk; [|done]. injection Hk as -> ->.
    apply find_none_existsb in Hfind. congruence.
  - cbn [Directory.precise]. rewrite find_snoc.
    destruct (List.find _ (Directory.precise t)) as [row|]; [done|].
    destruct (Directory.has_key k r (a, b, z)) eqn:Hkey.
    + apply has_key_true in Hkey. by rewrite bool_decide_eq_true_2.
    + rewrite bool_decide_eq_false_2; [done|]. intros Hk.
      apply (has_key_true k r (a, b, z)) in Hk. congruence.
Qed.

Lemma precise_lookup_put h r z t k r' :
  precise_lookup (Directory.put h r z t) k r'
  = match precise_lookup t k r' with
    | Some z0 => Some z0
    | None => if bool_decide (precise_key h r = (k, r')) then Some z else None
    end.
Proof.
  unfold precise_lookup at 1. rewrite put_precise_of_put.
  apply precise_lookup_put_precise.
Qed.

Lemma precise_lookup_put_all k r rows : forall t,
  precise_lookup (put_all rows t) k r
  = match precise_lookup t k r with
    | Some z0 => Some z0
    | None =>
        snd <$> List.find (fun row => bool_decide (precise_key row.1.1 row.1.2 = (k, r)))
                          rows
    end.
Proof.
  induction rows as [|row rows IH]; intros t.
  { cbn. by destruct (precise_lookup t k r). }
  rewrite put_all_cons, IH, precise_lookup_put. cbn [List.find].
  destruct (precise_lookup t k r); [done|].
  by destruct (bool_decide _).
Qed.

(** X21: in a directory built by put from rows, precise holds, under
    a key pair, the zipcode of the first of the rows that has this key pair,
    and nothing when no row has it: of two rows with the same address text
    and the same rule text, the later one is not stored. *)
Theorem precise_holds_first_row (rows : list (str * str * str)) (k r : str) :
  precise_lookup (put_all rows Directory.empty_tables) k r
  = snd <$> List.find (fun row => bool_decide (precise_key row.1.1 row.1.2 = (k, r)))
                      rows.
Proof. by rewrite precise_lookup_put_all. Qed.

(** *** The primary key of [precise] *)

Lemma existsb_has_key_false a b (l : list (str * str * str)) :
  existsb (Directory.has_key a b) l = false -> (a, b) ∉ map fst l.
Proof.
  intros Hex Hin. apply list_elem_of_In, in_map_iff in Hin as (row & Hk & Hrow).
  assert (existsb (Directory.has_key a b) l = true); [|congruence].
  apply existsb_exists. exists row. split; [done|]. by apply has_key_true.
Qed.

Lemma put_precise_NoDup a b z t :
  NoDup (map fst (Directory.precise t)) ->
  NoDup (map fst (Directory.precise (Directory.put_precise a b z t))).
Proof.
  intros Hnd. unfold Directory.put_precise.
  destruct (existsb _ _) eqn:Hex; [done|]. cbn [Directory.precise].
  rewrite map_app. apply NoDup_app. split; [done|]. split.
  - intros key Hkey Hin. apply list_elem_of_singleton in Hin. subst key.
    by apply existsb_has_key_false in Hex.
  - apply NoDup_singleton.
Qed.

Lemma do_write_NoDup t w :
  NoDup (map fst (Directory.precise t)) ->
  NoDup (map fst (Directory.precise (do_write t w))).
Proof.
  intros Hnd. destruct w as [a r z|a z|h r z]; cbn [do_write].
  - by apply put_precise_NoDup.
  - by rewrite put_gradual_precise.
  - rewrite put_precise_of_put. by apply put_precise_NoDup.
Qed.

Lemma pairs_NoDup (a : str) (l : list (str * str * str)) :
  NoDup (map fst l) ->
  NoDup (map fst (omap (fun row => if str_eqb (fst (fst row)) a
                                   then Some (snd (fst row), snd row) else None) l)).
Proof.
  induction l as [|[[k r] z] l IH]; intros Hnd; [constructor|].
  cbn [map fst] in Hnd. apply NoDup_cons in Hnd as [Hnotin Hnd].
  cbn [omap list_omap fst snd]. destruct (str_eqb k a) eqn:Hk; [|by apply IH].
  cbn [map fst]. apply NoDup_cons. split; [|by apply IH].
  intros Hin. apply Hnotin.
  apply list_elem_of_In, in_map_iff in Hin as ([r' z'] & Hr & Hin).
  cbn [fst] in Hr. subst r'.
  apply list_elem_of_In, list_elem_of_omap in Hin as ([[k' r'] z''] & Hrow & Hsome).
  cbn [fst snd] in Hsome. destruct (str_eqb k' a) eqn:Hk'; [|done].
  injection Hsome as -> ->. apply str_eqb_eq in Hk, Hk'. subst.
  apply list_elem_of_In, in_map_iff. exists (a, r, z'). split; [done|].
  by apply list_elem_of_In.
Qed.

(** X22: the primary key of precise: whatever is written to a store in
    which no two rows of precise have the same address text and rule
    text, no two rows have them afterwards, and the rows that a lookup gets
    for an address text have rule texts that are all different. *)
Theorem precise_key_is_unique (t : Directory.tables) (ws : list write) (addr_str : str) :
  NoDup (map fst (Directory.precise t)) ->
  let t' := fold_left do_write ws t in
  NoDup (map fst (Directory.precise t'))
  /\ exists rzpairs,
       Directory.get_rule_str_zipcode_pairs (Some t') addr_str = inr rzpairs
       /\ NoDup (map fst rzpairs).
Proof.
  intros Hnd t'.
  assert (NoDup (map fst (Directory.precise t'))) as Hnd'.
  { unfold t'. clear t'. revert t Hnd.
    induction ws as [|w ws IH]; intros t Hnd; [done|].
    cbn [fold_left]. apply IH. by apply do_write_NoDup. }
  split; [done|]. eexists. split; [reflexivity|].
  rewrite (Permutation_map fst (index_order_perm _)). by apply pairs_NoDup.
Qed.

Lemma precise_key_is_unique_witness :
  let ws := [Put (u "臺北市中正區") (u "全") (u "100");
             PutPrecise (u "臺北市中正區") (u "臺北市中正區全") (u "999");
             Put (u "臺北市中正區") (u "忠孝東路全") (u "100")] in
  NoDup (map fst (Directory.precise Directory.empty_tables))
  /\ length (Directory.precise (fold_left do_write ws Directory.empty_tables)) = 2%nat
  /\ NoDup (map fst (Directory.precise (fold_left do_write ws Directory.empty_tables))).
Proof.
  split; [apply NoDup_nil_2|]. split; [vm_compute; reflexivity|].
  apply (precise_key_is_unique Directory.empty_tables
           [Put (u "臺北市中正區") (u "全") (u "100");
            PutPrecise (u "臺北市中正區") (u "臺北市中正區全") (u "999");
            Put (u "臺北市中正區") (u "忠孝東路全") (u "100")] (u "臺北市中正區")).
  apply NoDup_nil_2.
Defined.

(** *** From [put] to [find] *)

Lemma flat_range_all (tokens : list token) :
  Address.flat_range tokens 0 (length tokens) = Address.flat tokens.
Proof.
  unfold Address.flat_range. rewrite Nat.sub_0_r, drop_0. by rewrite firstn_all.
Qed.

Lemma flat_to_all (tokens : list token) :
  Address.flat_to tokens (length tokens) = Address.flat tokens.
Proof. unfold Address.flat_to. by rewrite firstn_all. Qed.

(** X23: a row that is put into an empty directory is found again: when
    the head address has a token and its tokens are in standard form
    already, and the zipcode is not empty, find of the head address
    returns the zipcode, whatever the rule text of the row. *)
Theorem find_after_put (head_addr_str tail_rule_str zipcode : str) :
  Address.tokenize head_addr_str <> [] ->
  StandardAddress.new head_addr_str = Address.tokenize head_addr_str ->
  zipcode <> [] ->
  let t := Directory.put head_addr_str tail_rule_str zipcode Directory.empty_tables in
  Directory.find head_addr_str (Some t) = (inr zipcode, Some t).
Proof.
  intros Htok Hstd Hz t.
  unfold Directory.find, Directory.within_a_transaction, Directory.find_method.
  rewrite Hstd.
  set (addr := Address.tokenize head_addr_str) in *.
  assert (Directory.find_loop (Some t) addr (length addr) = inr zipcode) as ->; [|done].
  assert (Directory.gradual t !! Address.flat addr = Some (Some zipcode)) as Hg.
  { unfold t. rewrite put_gradual_of_put.
    rewrite bool_decide_eq_true_2.
    - by rewrite put_gradual_lookup.
    - apply elem_of_gradual_keys. left. exists 0%nat, (length addr).
      fold addr. split; [|by rewrite flat_range_all].
      destruct addr; [done|]. cbn [length]. lia. }
  assert (Directory.precise t
          = [(Address.flat addr, head_addr_str ++ tail_rule_str, zipcode)]) as Hp.
  { unfold t. by rewrite put_precise_of_put. }
  destruct (length addr) as [|n] eqn:Hlen; [by destruct addr|].
  cbn [Directory.find_loop]. rewrite <- Hlen, flat_to_all.
  cbn [Directory.get_rule_str_zipcode_pairs Directory.get_gradual_zipcode mbind
       Directory.result_bind].
  rewrite Hp, Hg. cbn [omap list_omap fst snd].
  assert (str_eqb (Address.flat addr) (Address.flat addr) = true) as ->
    by by apply str_eqb_eq.
  cbn [Directory.index_order foldr Directory.index_insert Directory.first_match].
  destruct (Rule.matches _ _); [done|].
  by destruct zipcode.
Qed.

Lemma find_after_put_witness :
  let head := u "臺北市中正區忠孝東路1段" in
  let t := Directory.put head (u "單全") (u "100") Directory.empty_tables in
  length (Address.tokenize head) = 4%nat
  /\ StandardAddress.new head = Address.tokenize head
  /\ Directory.find head (Some t) = (inr (u "100"), Some t).
Proof.
  split; [vm_compute; reflexivity|]. split; [vm_compute; reflexivity|].
  apply (find_after_put (u "臺北市中正區忠孝東路1段") (u "單全") (u "100")).
  - vm_compute. discriminate.
  - vm_compute. reflexivity.
  - vm_compute. discriminate.
Defined.

(** *** [find] on any database *)

Lemma rollback_same d : Directory.rollback d d = d.
Proof. by destruct d. Qed.

Lemma find_keeps s d : (Directory.find s d).2 = d.
Proof.
  unfold Directory.find, Directory.within_a_transaction, Directory.find_method.
  destruct (Directory.find_loop _ _ _); cbn [snd]; [apply rollback_same|done].
Qed.

(** X24: find writes nothing: whatever the database and the outcome, the
    database is afterwards what it was.  On a database file in which the
    tables do not exist, find raises OperationalError when the address has
    a token, and returns the empty text when it has none. *)
Theorem find_writes_nothing (addr_str : str) (d : Directory.database) :
  (Directory.find addr_str d).2 = d
  /\ (Directory.find addr_str None).1
     = match StandardAddress.new addr_str with
       | [] => inr []
       | _ :: _ => inl Directory.OperationalError
       end.
Proof.
  split; [apply find_keeps|].
  unfold Directory.find, Directory.within_a_transaction, Directory.find_method.
  by destruct (StandardAddress.new addr_str).
Qed.

(** *** Where the zipcodes of [find] come from *)

Lemma put_from_rows Z h r z t :
  z ∈ Z -> from_rows Z t -> from_rows Z (Directory.put h r z t).
Proof.
  intros Hz [Hp Hg]. split.
  - intros row. rewrite put_precise_of_put. unfold Directory.put_precise.
    destruct (existsb _ _); [apply Hp|]. cbn [Directory.precise].
    rewrite elem_of_app, list_elem_of_singleton. intros [Hrow| ->]; [by apply Hp|done].
  - intros k v. rewrite put_gradual_of_put.
    case_bool_decide as Hk; [|apply Hg].
    rewrite put_gradual_lookup.
    destruct (Directory.gradual t !! k) as [[a|]|] eqn:Hold.
    + destruct (get_common_part_is_prefix a z) as [i ->]. intros [= <-].
      destruct (Hg k a Hold) as (z' & Hz' & Hpre).
      exists z'. split; [done|]. trans a; [apply prefix_take|done].
    + intros [= <-]. by exists z.
    + intros [= <-]. by exists z.
Qed.

Lemma put_all_from_rows Z rows : forall t,
  (forall row, row ∈ rows -> row.2 ∈ Z) ->
  from_rows Z t -> from_rows Z (put_all rows t).
Proof.
  induction rows as [|row rows IH]; intros t Hin Ht; [done|].
  rewrite put_all_cons. apply IH.
  - intros row' Hrow'. apply Hin. by right.
  - apply put_from_rows; [|done]. apply Hin. left.
Qed.

Lemma find_loop_from_rows Z t addr i z :
  from_rows Z t ->
  Directory.find_loop (Some t) addr i = inr z ->
  z = [] \/ exists z', z' ∈ Z /\ z `prefix_of` z'.
Proof.
  intros [Hp Hg] Hfind.
  destruct (find_loop_spec t addr i) as (z0 & Hz0 & Hspec).
  rewrite Hz0 in Hfind. injection Hfind as ->.
  destruct Hspec as [(j & _ & Hhit & _)|[-> _]]; [|by left]. right.
  destruct Hhit as [(rule_str & Hrow & _)|[_ [Hgk _]]].
  - exists z. split; [|done]. by apply Hp in Hrow.
  - by apply (Hg _ _ Hgk).
Qed.

(** X25: find invents no zipcode: in a directory built by put from
    rows, find returns a text, which is empty or a prefix of the zipcode
    of one of the rows. *)
Theorem find_returns_prefix_of_a_zipcode (rows : list (str * str * str)) (addr_str : str) :
  let t := put_all rows Directory.empty_tables in
  exists z,
    Directory.find addr_str (Some t) = (inr z, Some t)
    /\ (z = [] \/ exists row, row ∈ rows /\ z `prefix_of` row.2).
Proof.
  intros t.
  assert (from_rows (map snd rows) t) as Hfrom.
  { apply put_all_from_rows.
    - intros row Hrow. apply list_elem_of_In, in_map. by apply list_elem_of_In.
    - split; [intros row Hrow; by apply elem_of_nil in Hrow|].
      intros k v Hk. cbn in Hk. by rewrite lookup_empty in Hk. }
  unfold Directory.find, Directory.within_a_transaction, Directory.find_method.
  destruct (find_loop_spec t (StandardAddress.new addr_str)
              (length (StandardAddress.new addr_str))) as (z & Hz & _).
  exists z. rewrite Hz. split; [done|].
  destruct (find_loop_from_rows _ _ _ _ _ Hfrom Hz) as [->|(z' & Hz' & Hpre)]; [by left|].
  right. apply list_elem_of_In, in_map_iff in Hz' as (row & <- & Hrow).
  exists row. split; [by apply list_elem_of_In|done].
Qed.

(** *** Loading *)

Lemma py_index_last {A} (row : list A) (dflt : A) :
  row <> [] -> Address.py_index row (-1) = Some (List.last row dflt).
Proof.
  intros Hne. unfold Address.py_index. cbn [Z.leb Z.compare].
  destruct (- Z.of_nat (length row) <=? -1)%Z eqn:E.
  - replace (Z.to_nat (Z.of_nat (length row) + -1)) with (length row - 1)%nat by lia.
    clear E. induction row as [|f [|g row] IH]; [done|done|].
    specialize (IH ltac:(done)). simpl in *. by rewrite Nat.sub_0_r in IH.
  - apply Z.leb_gt in E. destruct row; [done|]. simpl length in *. lia.
Qed.

Lemma load_row_put (row : list str) (t : Directory.tables) :
  row <> [] ->
  Directory.load_row row t
  = inr (Directory.put (put_args row).1.1 (put_args row).1.2 (put_args row).2 t).
Proof.
  intros Hne. unfold Directory.load_row.
  rewrite (py_index_last row []) by done.
  assert (Address.py_index row 0 = Some (hd [] row)) as -> by by destruct row.
  done.
Qed.

Lemma load_rows_put_all rows : forall t,
  Forall (fun row => row <> []) rows ->
  Directory.load_rows rows t = (inr (), put_all (map put_args rows) t).
Proof.
  induction rows as [|row rows IH]; intros t Hne; [done|].
  apply Forall_cons in Hne as [Hrow Hne].
  cbn [Directory.load_rows]. rewrite load_row_put by done.
  cbn [map]. rewrite put_all_cons. by apply IH.
Qed.

(** X26: on a database file without tables, a load of lines of which
    every data row has a field returns, and commits the directory that put
    builds from the rows, in their order, with the first field as the
    zipcode, the last as the rule text and the fields between them, joined,
    as the head address; the first line is not read. *)
Theorem load_puts_every_row (header : list str) (rows : list (list str)) :
  Forall (fun row => row <> []) rows ->
  Directory.load_chp_csv (header :: rows) None
  = (inr (), Some (put_all (map put_args rows) Directory.empty_tables)).
Proof.
  intros Hne.
  unfold Directory.load_chp_csv, Directory.within_a_transaction,
    Directory.load_chp_csv_method.
  cbn [Directory.create_tables]. by rewrite load_rows_put_all.
Qed.

Lemma load_puts_every_row_witness :
  let header := [u "zipcode"; u "city"; u "area"; u "road"; u "scope"] in
  let rows := [[u "100"; u "臺北市"; u "中正區"; u "八德路1段"; u "全"];
               [u "106"; u "臺北市"; u "大安區"; u "全"]] in
  map put_args rows = [(u "臺北市中正區八德路1段", u "全", u "100");
                       (u "臺北市大安區", u "全", u "106")]
  /\ Directory.load_chp_csv (header :: rows) None
     = (inr (), Some (put_all (map put_args rows) Directory.empty_tables)).
Proof.
  split; [vm_compute; reflexivity|].
  apply (load_puts_every_row
           [u "zipcode"; u "city"; u "area"; u "road"; u "scope"]
           [[u "100"; u "臺北市"; u "中正區"; u "八德路1段"; u "全"];
            [u "106"; u "臺北市"; u "大安區"; u "全"]]).
  repeat constructor; vm_compute; discriminate.
Defined.

Lemma load_leaves_tables lines d :
  exists t, (Directory.load_chp_csv lines d).2 = Some t.
Proof.
  unfold Directory.load_chp_csv, Directory.within_a_transaction,
    Directory.load_chp_csv_method.
  destruct d as [t|]; cbn [Directory.create_tables]; [by exists t|].
  destruct lines as [|header rows]; [by eexists|].
  destruct (Directory.load_rows rows Directory.empty_tables) as [[e|[]] t'];
    by eexists.
Qed.

(** X27: a database file is loaded once: after a call of load_chp_csv,
    whatever its lines and its outcome, the tables exist, and a further
    load raises OperationalError and leaves the database as it is.  A first
    load that fails on a file without tables leaves the two tables, empty. *)
Theorem load_only_once (lines lines' : list (list str)) (d : Directory.database) :
  let d1 := (Directory.load_chp_csv lines d).2 in
  (exists t1, d1 = Some t1)
  /\ Directory.load_chp_csv lines' d1 = (inl Directory.OperationalError, d1)
  /\ (forall e, (Directory.load_chp_csv lines None).1 = inl e ->
                (Directory.load_chp_csv lines None).2 = Some Directory.empty_tables).
Proof.
  intros d1. destruct (load_leaves_tables lines d) as [t1 Ht1].
  fold d1 in Ht1. split; [by exists t1|]. split.
  - by rewrite Ht1.
  - intros e.
    unfold Directory.load_chp_csv, Directory.within_a_transaction,
      Directory.load_chp_csv_method.
    cbn [Directory.create_tables]. destruct lines as [|header rows]; [done|].
    by destruct (Directory.load_rows rows Directory.empty_tables) as [[e'|[]] t'].
Qed.

(** ** Directory: the connection *)

Lemma do_call_kept c conn0 w :
  (Connection.do_call c (Connection.Directory true (Some conn0)) w).1.2
  = Connection.Directory true (Some conn0)
  /\ Connection.connects (Connection.do_call c (Connection.Directory true (Some conn0)) w).2
     = Connection.connects w
  /\ Connection.opened (Connection.do_call c (Connection.Directory true (Some conn0)) w).2
     = Connection.opened w.
Proof.
  destruct c as [lines|s]; cbn [Connection.do_call Connection.method_wrapper
    Connection.keep_alive Connection.conn];
    by destruct (Directory.within_a_transaction _ _).
Qed.

Lemma do_calls_kept cs conn0 : forall w,
  (Connection.do_calls cs (Connection.Directory true (Some conn0)) w).1.2
  = Connection.Directory true (Some conn0)
  /\ Connection.connects (Connection.do_calls cs (Connection.Directory true (Some conn0)) w).2
     = Connection.connects w
  /\ Connection.opened (Connection.do_calls cs (Connection.Directory true (Some conn0)) w).2
     = Connection.opened w.
Proof.
  induction cs as [|c cs IH]; intros w; [done|].
  cbn [Connection.do_calls].
  destruct (do_call_kept c conn0 w) as (Hs & Hc & Ho).
  destruct (Connection.do_call c _ w) as [[o self1] w1]. cbn [fst snd] in *. subst self1.
  destruct (IH w1) as (Hs' & Hc' & Ho').
  destruct (Connection.do_calls cs _ w1) as [[os self2] w2]. cbn [fst snd] in *.
  split; [done|]. split; congruence.
Qed.

Lemma do_call_first c w :
  (Connection.do_call c (Connection.init true) w).1.2
  = Connection.Directory true (Some (Connection.connects w))
  /\ Connection.connects (Connection.do_call c (Connection.init true) w).2
     = S (Connection.connects w)
  /\ Connection.opened (Connection.do_call c (Connection.init true) w).2
     = {[ Connection.connects w ]} ∪ Connection.opened w.
Proof.
  destruct c as [lines|s]; cbn [Connection.do_call Connection.method_wrapper
    Connection.init Connection.keep_alive Connection.conn Connection.file
    Connection.connects Connection.opened];
    by destruct (Directory.within_a_transaction _ _).
Qed.

(** X28: with keep_alive, a directory object uses one connection for all
    its calls: whatever the calls of load_chp_csv and find, and however
    they end, the first of them opens a connection, which the object keeps,
    open, and no other connection is opened. *)
Theorem keep_alive_uses_one_connection (c : Connection.call) (cs : list Connection.call)
        (w : Connection.world) :
  let after := Connection.do_calls (c :: cs) (Connection.init true) w in
  Connection.conn after.1.2 = Some (Connection.connects w)
  /\ Connection.connects after.2 = S (Connection.connects w)
  /\ Connection.opened after.2 = {[ Connection.connects w ]} ∪ Connection.opened w.
Proof.
  cbn [Connection.do_calls].
  destruct (do_call_first c w) as (Hs & Hc & Ho).
  destruct (Connection.do_call c _ w) as [[o self1] w1]. cbn [fst snd] in *. subst self1.
  destruct (do_calls_kept cs (Connection.connects w) w1) as (Hs' & Hc' & Ho').
  destruct (Connection.do_calls cs _ w1) as [[os self2] w2]. cbn [fst snd] in *.
  subst self2. split; [done|]. split; congruence.
Qed.

Lemma close_fresh (c : nat) (X : gset nat) : c ∉ X -> ({[ c ]} ∪ X) ∖ {[ c ]} = X.
Proof.
  intros Hc. apply set_eq. intros x.
  rewrite elem_of_difference, elem_of_union, elem_of_singleton. split.
  - by intros [[Hx|Hx] Hne].
  - intros Hx. split; [by right|]. by intros ->.
Qed.

Lemma do_call_closed c conn0 w :
  Connection.connects w ∉ Connection.opened w ->
  let after := Connection.do_call c (Connection.Directory false conn0) w in
  after.1.2 = Connection.Directory false (Some (Connection.connects w))
  /\ Connection.connects after.2 = S (Connection.connects w)
  /\ Connection.opened after.2 = Connection.opened w.
Proof.
  intros Hfresh.
  destruct c as [lines|s]; cbn [Connection.do_call Connection.method_wrapper
    Connection.keep_alive Connection.conn Connection.file
    Connection.connects Connection.opened];
    destruct (Directory.within_a_transaction _ _); cbn [fst snd Connection.connects
      Connection.opened]; (split; [done|]); (split; [done|]); by apply close_fresh.
Qed.

Lemma do_calls_closed cs : forall conn0 w,
  (forall c, c ∈ Connection.opened w -> (c < Connection.connects w)%nat) ->
  let after := Connection.do_calls cs (Connection.Directory false conn0) w in
  Connection.connects after.2 = (Connection.connects w + length cs)%nat
  /\ Connection.opened after.2 = Connection.opened w.
Proof.
  induction cs as [|c cs IH]; intros conn0 w Hlt.
  { cbn. split; [lia|done]. }
  cbn [Connection.do_calls].
  destruct (do_call_closed c conn0 w) as (Hs & Hc & Ho).
  { intros Hin. apply Hlt in Hin. lia. }
  destruct (Connection.do_call c _ w) as [[o self1] w1]. cbn [fst snd] in *. subst self1.
  destruct (IH (Some (Connection.connects w)) w1) as (Hc' & Ho').
  { intros c' Hin. rewrite Ho in Hin. apply Hlt in Hin. lia. }
  destruct (Connection.do_calls cs _ w1) as [[os self2] w2]. cbn [fst snd length] in *.
  split; [lia|congruence].
Qed.

(** X29: without keep_alive, every call of load_chp_csv or find opens
    a connection of its own and closes it before it returns or raises: after
    any calls, as many connections have been opened as there were calls, and
    the connections that are open are those that were open before. *)
Theorem each_call_closes_its_connection (cs : list Connection.call) (w : Connection.world) :
  (forall c, c ∈ Connection.opened w -> (c < Connection.connects w)%nat) ->
  let after := Connection.do_calls cs (Connection.init false) w in
  Connection.connects after.2 = (Connection.connects w + length cs)%nat
  /\ Connection.opened after.2 = Connection.opened w.
Proof. apply do_calls_closed. Qed.

Lemma each_call_closes_its_connection_witness :
  let w := Connection.World None 0 ∅ in
  let cs := [Connection.LoadChpCsv [[u "zipcode"; u "scope"]; [u "100"; u "臺北市中正區"; u "全"]];
             Connection.Find (u "臺北市中正區"); Connection.Find (u "")] in
  let after := Connection.do_calls cs (Connection.init false) w in
  Connection.connects after.2 = (Connection.connects w + length cs)%nat
  /\ Connection.opened after.2 = Connection.opened w.
Proof.
  apply (each_call_closes_its_connection
           [Connection.LoadChpCsv [[u "zipcode"; u "scope"]; [u "100"; u "臺北市中正區"; u "全"]];
            Connection.Find (u "臺北市中正區"); Connection.Find (u "")]
           (Connection.World None 0 ∅)).
  intros c Hc. cbn in Hc. by apply elem_of_empty in Hc.
Defined.

(** ** The scenarios of the specification, run on the model *)

Example tokenize_example :
  Address.tokenize (u "臺北市中正區忠孝東路1段1號")
  = [ Token [] [] (u "臺北") (u "市"); Token [] [] (u "中正") (u "區");
      Token [] [] (u "忠孝東") (u "路"); Token [] [] (u "1") (u "段");
      Token (u "1") [] [] (u "號") ]
  /\ map Address.token_of_groups (re_findall Address.TOKEN_RE (u "10之2號"))
     = [ Token (u "10") (u "之2") [] (u "號") ].
Proof. vm_compute. done. Qed.

Example normalize_examples :
  Address.normalize (u "台北市中正區") = u "臺北市中正區"
  /\ Address.normalize (u "北市中正區") = u "臺北市中正區"
  /\ Address.normalize (u "新竹北市中正區") = u "新竹北市中正區"
  /\ Address.normalize (u "北市場") = u "北市場".
Proof. vm_compute. done. Qed.

Example find_examples :
  let header := [u "zipcode"; u "city"; u "area"; u "road"; u "scope"] in
  let d1 := snd (Directory.load_chp_csv
                   [header; [u "100"; u "臺北市"; u "中正區"; u "忠孝東路1段"; u "1號至10號"]]
                   None) in
  let d2 := snd (Directory.load_chp_csv
                   [header; [u "10041"; u "臺北市"; u "中正區"; u "忠孝東路"; u "全"];
                            [u "10051"; u "臺北市"; u "中正區"; u "仁愛路"; u "全"]]
                   None) in
  fst (Directory.find (u "臺北市中正區忠孝東路1段5號") d1) = inr (u "100")
  /\ Rule.matches (Rule.new (u "臺北市中正區忠孝東路1段1號至10號"))
                  (StandardAddress.new (u "臺北市中正區忠孝東路1段11號")) = false
  /\ fst (Directory.find (u "臺北市中正區") d2) = inr (u "100").
Proof. vm_compute. done. Qed.

(** The rows of a key are tried in the order of the index, not in the order
    of the lines: of two rules that both match, the one whose text comes
    first (全 is before 雙) gives the zipcode, though it was loaded last. *)
Example find_takes_rows_by_rule_text :
  let header := [u "zipcode"; u "city"; u "area"; u "road"; u "scope"] in
  let d := snd (Directory.load_chp_csv
                  [header; [u "101"; u "臺北市"; u "中正區"; u "忠孝東路"; u "雙全"];
                           [u "100"; u "臺北市"; u "中正區"; u "忠孝東路"; u "全"]]
                  None) in
  let addr := StandardAddress.new (u "臺北市中正區忠孝東路2號") in
  map snd (Directory.precise (rows_of d)) = [u "101"; u "100"]
  /\ Rule.matches (Rule.new (u "臺北市中正區忠孝東路雙全")) addr = true
  /\ Rule.matches (Rule.new (u "臺北市中正區忠孝東路全")) addr = true
  /\ fst (Directory.find (u "臺北市中正區忠孝東路2號") d) = inr (u "100").
Proof. vm_compute. done. Qed.
